(** * Astro codegen: the template-and-frontmatter pipeline

    A shallow embedding of [packages/astro/src/compiler/codegen/index.ts].

    - JavaScript strings are [string]s of 8-bit code units.
    - A [Record<string, string>] is the list of its entries in
      [Object.entries] order.
    - [Map]s and [Set]s are insertion ordered, so they are association
      lists and duplicate-free lists.
    - Thrown errors, the logging sink and the mutable [CodegenState] are
      threaded through a state-and-exception monad: what was mutated before
      a [throw] is still there in the [catch].
    - Collaborators that live outside this file (esbuild, Babel, the
      Markdown renderer, the template parser, [path], [URL], the logger's
      transport) are fields of [Env]. *)

From Stdlib Require Import String Ascii List ZArith NArith Bool Lia.
Import ListNotations.

Local Open Scope list_scope.
Local Open Scope string_scope.

Set Implicit Arguments.

(* ================================================================= *)
(** ** JavaScript strings *)

Module Js.

Definition dq : string := String "034"%char EmptyString.
Definition nl : string := String "010"%char EmptyString.
Definition nul : string := String "000"%char EmptyString.

(** [`"${s}"`] *)
Definition quoted (s : string) : string := dq ++ s ++ dq.

(** [s.slice(n)] for [0 <= n]. *)
Fixpoint slice_from (n : nat) (s : string) : string :=
  match n, s with
  | O, _ => s
  | S _, EmptyString => EmptyString
  | S n', String _ s' => slice_from n' s'
  end.

Fixpoint take (n : nat) (s : string) : string :=
  match n, s with
  | O, _ => EmptyString
  | S _, EmptyString => EmptyString
  | S n', String c s' => String c (take n' s')
  end.

(** [s.slice(1, -1)] *)
Definition slice_1_m1 (s : string) : string :=
  take (String.length s - 2) (slice_from 1 s).

(** [s.startsWith(p)] *)
Fixpoint startsWith (s p : string) : bool :=
  match p, s with
  | EmptyString, _ => true
  | String _ _, EmptyString => false
  | String a p', String b s' => Ascii.eqb a b && startsWith s' p'
  end.

(** [s.indexOf(c)] for a one-character needle; [None] is [-1]. *)
Fixpoint indexOf_char (c : ascii) (s : string) : option nat :=
  match s with
  | EmptyString => None
  | String a s' =>
      if Ascii.eqb a c then Some O
      else option_map S (indexOf_char c s')
  end.

Definition includes_char (c : ascii) (s : string) : bool :=
  match indexOf_char c s with Some _ => true | None => false end.

(** [s.split(c)] for a one-character separator: never empty. *)
Fixpoint split_char (c : ascii) (s : string) : list string :=
  match s with
  | EmptyString => [EmptyString]
  | String a s' =>
      if Ascii.eqb a c then EmptyString :: split_char c s'
      else match split_char c s' with
           | [] => [String a EmptyString]
           | h :: t => String a h :: t
           end
  end.

(** [s.replace(pat, by)] with a string pattern: first occurrence only. *)
Fixpoint replace_first (pat by_ s : string) : string :=
  if startsWith s pat then by_ ++ slice_from (String.length pat) s
  else match s with
       | EmptyString => EmptyString
       | String a s' => String a (replace_first pat by_ s')
       end.

(** The class [\s] on 8-bit code units: TAB, LF, VT, FF, CR, space and
    NBSP. *)
Definition is_space (c : ascii) : bool :=
  let n := nat_of_ascii c in
  ((9 <=? n)%nat && (n <=? 13)%nat) || (n =? 32)%nat || (n =? 160)%nat.

Fixpoint all_space (s : string) : bool :=
  match s with
  | EmptyString => true
  | String a s' => is_space a && all_space s'
  end.

Fixpoint trim_start (s : string) : string :=
  match s with
  | EmptyString => EmptyString
  | String a s' => if is_space a then trim_start s' else s
  end.

(** Drops the trailing white space. *)
Fixpoint trim_end (s : string) : string :=
  match s with
  | EmptyString => EmptyString
  | String a s' => if all_space s then EmptyString else String a (trim_end s')
  end.

(** [s.trim()] *)
Definition trim (s : string) : string := trim_end (trim_start s).

Fixpoint join (sep : string) (l : list string) : string :=
  match l with
  | [] => EmptyString
  | [x] => x
  | x :: r => x ++ sep ++ join sep r
  end.

(** Number of occurrences of the code unit [c]. *)
Fixpoint count (c : ascii) (s : string) : Z :=
  match s with
  | EmptyString => 0%Z
  | String a s' => ((if Ascii.eqb a c then 1 else 0) + count c s')%Z
  end.

(** *** [JSON.stringify] on a string *)

Definition hex_digit (n : nat) : ascii :=
  if (n <? 10)%nat then ascii_of_nat (48 + n) else ascii_of_nat (87 + n).

Definition json_char (c : ascii) : string :=
  let n := nat_of_ascii c in
  if (n =? 34)%nat then "\" ++ dq
  else if (n =? 92)%nat then "\\"
  else if (n =? 8)%nat then "\b"
  else if (n =? 12)%nat then "\f"
  else if (n =? 10)%nat then "\n"
  else if (n =? 13)%nat then "\r"
  else if (n =? 9)%nat then "\t"
  else if (n <? 32)%nat then
    "\u00" ++ String (hex_digit (n / 16)) (String (hex_digit (n mod 16)) EmptyString)
  else String c EmptyString.

Fixpoint json_body (s : string) : string :=
  match s with
  | EmptyString => EmptyString
  | String a s' => json_char a ++ json_body s'
  end.

Definition JSON_stringify (s : string) : string := quoted (json_body s).

(** *** Own properties of an object literal

    [Object.entries] lists the array-index keys first, in ascending
    numeric order, and then the other keys in insertion order. *)

Definition is_digit (c : ascii) : bool :=
  let n := nat_of_ascii c in (48 <=? n)%nat && (n <=? 57)%nat.

Fixpoint digits_value (acc : N) (s : string) : option N :=
  match s with
  | EmptyString => Some acc
  | String a s' =>
      if is_digit a
      then digits_value (acc * 10 + N.of_nat (nat_of_ascii a - 48)) s'
      else None
  end.

(** The canonical numeric strings below [2^32 - 1]. *)
Definition array_index (k : string) : option N :=
  match k with
  | EmptyString => None
  | String a r =>
      if Ascii.eqb a "0" && negb (String.eqb r EmptyString) then None
      else if Nat.ltb 10 (String.length k) then None
      else match digits_value 0 k with
           | Some n => if N.ltb n 4294967295 then Some n else None
           | None => None
           end
  end.

Definition Object : Type := list (string * string).

Fixpoint get (k : string) (o : Object) : option string :=
  match o with
  | [] => None
  | (k', v) :: r => if String.eqb k' k then Some v else get k r
  end.

Definition has (k : string) (o : Object) : bool :=
  match get k o with Some _ => true | None => false end.

Fixpoint update (k v : string) (o : Object) : Object :=
  match o with
  | [] => []
  | (k', v') :: r =>
      if String.eqb k' k then (k', v) :: r else (k', v') :: update k v r
  end.

Fixpoint insert_index (n : N) (k v : string) (o : Object) : Object :=
  match o with
  | [] => [(k, v)]
  | (k', v') :: r =>
      match array_index k' with
      | Some m => if N.ltb m n then (k', v') :: insert_index n k v r
                  else (k, v) :: o
      | None => (k, v) :: o
      end
  end.

(** [o[k] = v] *)
Definition set (k v : string) (o : Object) : Object :=
  if has k o then update k v o
  else match array_index k with
       | Some n => insert_index n k v o
       | None => (o ++ [(k, v)])%list
       end.

(** A JavaScript string is truthy when it is not empty. *)
Definition truthy (v : option string) : bool :=
  match v with
  | Some s => negb (String.eqb s EmptyString)
  | None => false
  end.

End Js.

(* ================================================================= *)
(** ** Hydration directives and generated props *)

Definition hydrationDirectives : list string :=
  ["client:load"; "client:idle"; "client:visible"; "client:media"; "client:only"].

Definition hydrationDirectives_has (key : string) : bool :=
  existsb (String.eqb key) hydrationDirectives.

Record HydrationAttributes : Type := mkHydration {
  method : option string;
  value : option string
}.

(** The loop has no [break]: a later directive overwrites an earlier one. *)
Definition findHydrationAttributes (attrs : Js.Object) : HydrationAttributes :=
  fold_left
    (fun acc kv =>
       let '(key, val) := kv in
       if hydrationDirectives_has key
       then {| method := Some (Js.slice_from 7 key);
               value := if String.eqb val "true" then None else Some val |}
       else acc)
    attrs
    {| method := None; value := None |}.

Definition astroContextEntry : string := "[__astroContext]:props[__astroContext]".

(** One iteration of the loop of [generateAttributes]. *)
Definition generateAttributes_step (result : string) (kv : string * string) : string :=
  let '(key, val) := kv in
  if hydrationDirectives_has key then result
  else if Js.startsWith key "..." then result ++ key ++ ","
  else result ++ Js.JSON_stringify key ++ ":" ++ val ++ ",".

Definition generateAttributes (attrs : Js.Object) : string :=
  let result := fold_left generateAttributes_step attrs "{" in
  let result := result ++ astroContextEntry in
  result ++ "}".

(* ================================================================= *)
(** ** Errors, the logging sink and the monad *)

Record JsError : Type := mkError {
  error_name : string;
  message : string
}.

Definition Error (msg : string) : JsError := mkError "Error" msg.
Definition TypeError (msg : string) : JsError := mkError "TypeError" msg.

(** [err.toString()] *)
Definition error_toString (e : JsError) : string :=
  if String.eqb (message e) "" then error_name e
  else error_name e ++ ": " ++ message e.

(** What reaches the logging sink: [warn], [error] and [parseError] of
    [../../logger.js]. *)
Inductive LogEntry : Type :=
| LogWarn (file msg : string)
| LogError (file msg : string)
| LogParseError (file : string) (line column : nat) (frame msg : string).

(** A call into a collaborator either returns or throws. *)
Inductive fallible (A : Type) : Type :=
| Returns (a : A)
| Throws (e : JsError).
Arguments Throws {A} e.

(** An outcome of running modelled code.  [OutOfFuel] is an artefact of the
    model: the bound on the re-entries from Markdown flushes was reached. *)
Inductive outcome (A : Type) : Type :=
| Ok (a : A)
| Throw (e : JsError)
| OutOfFuel.
Arguments Throw {A} e.
Arguments OutOfFuel {A}.

Definition M (S A : Type) : Type := S -> outcome A * S.

Definition ret {S A : Type} (a : A) : M S A := fun s => (Ok a, s).

Definition bind {S A B : Type} (m : M S A) (k : A -> M S B) : M S B :=
  fun s =>
    match m s with
    | (Ok a, s') => k a s'
    | (Throw e, s') => (Throw e, s')
    | (OutOfFuel, s') => (OutOfFuel, s')
    end.

Definition throw {S A : Type} (e : JsError) : M S A := fun s => (Throw e, s).

Definition gets {S A : Type} (f : S -> A) : M S A := fun s => (Ok (f s), s).

Definition modify {S : Type} (f : S -> S) : M S unit := fun s => (Ok tt, f s).

(** [try { m } catch (err) { handler err }] *)
Definition try_catch {S A : Type} (m : M S A) (handler : JsError -> M S A) : M S A :=
  fun s =>
    match m s with
    | (Throw e, s') => handler e s'
    | r => r
    end.

Definition when {S : Type} (b : bool) (m : M S unit) : M S unit :=
  if b then m else ret tt.

Definition of_fallible {S A : Type} (r : fallible A) : M S A :=
  match r with
  | Returns a => ret a
  | Throws e => throw e
  end.

Declare Scope js_scope.
Delimit Scope js_scope with js.
Notation "x <- c ;; k" := (bind c (fun x => k))
  (at level 61, c at next level, right associativity) : js_scope.
Notation "c ;; k" := (bind c (fun _ => k))
  (at level 61, right associativity) : js_scope.
Local Open Scope js_scope.

Fixpoint mapM {S A B : Type} (f : A -> M S B) (l : list A) : M S (list B) :=
  match l with
  | [] => ret []
  | x :: r => y <- f x ;; ys <- mapM f r ;; ret (y :: ys)
  end.

Fixpoint forM_ {S A : Type} (f : A -> M S unit) (l : list A) : M S unit :=
  match l with
  | [] => ret tt
  | x :: r => f x ;; forM_ f r
  end.

(* ================================================================= *)
(** ** The template AST *)

Inductive NodeType : Type :=
| Element | InlineComponent | Fragment | Slot | SlotTemplate | Head | Title
| Body | Text | MustacheTag | Expression | CodeSpan | CodeFence | Comment
| Attribute | Spread | Style | AttributeShorthand
| OtherType (s : string).

Definition type_name (t : NodeType) : string :=
  match t with
  | Element => "Element" | InlineComponent => "InlineComponent"
  | Fragment => "Fragment" | Slot => "Slot" | SlotTemplate => "SlotTemplate"
  | Head => "Head" | Title => "Title" | Body => "Body" | Text => "Text"
  | MustacheTag => "MustacheTag" | Expression => "Expression"
  | CodeSpan => "CodeSpan" | CodeFence => "CodeFence" | Comment => "Comment"
  | Attribute => "Attribute" | Spread => "Spread" | Style => "Style"
  | AttributeShorthand => "AttributeShorthand"
  | OtherType s => s
  end.

(** [attr.value]: [true], [false], [undefined] or a list of segments. *)
Inductive AttrValue (T : Type) : Type :=
| ValueTrue
| ValueFalse
| ValueUndefined
| ValueList (l : list T).
Arguments ValueTrue {T}.
Arguments ValueFalse {T}.
Arguments ValueUndefined {T}.

(** A [TemplateNode] with the properties the code generator reads.  A
    property that a node does not have is [""], [[]] or [None]. *)
#[warnings="-register-all"]
Inductive TemplateNode : Type :=
  Node {
    type : NodeType;
    name : string;
    attributes : list TemplateNode;
    children : list TemplateNode;
    expression : option TemplateNode;
    codeChunks : list string;
    attr_value : AttrValue TemplateNode;
    raw : option string;
    data : option string;
    content : option string;
    start : nat;
    end_ : nat
  }.

(** Constructors for the usual shapes. *)
Definition mkElement (t : NodeType) (nm : string)
    (attrs kids : list TemplateNode) : TemplateNode :=
  Node t nm attrs kids None [] ValueUndefined None None None 0 0.

Definition mkText (s : string) : TemplateNode :=
  Node Text "" [] [] None [] ValueUndefined (Some s) (Some s) None 0 0.

Definition mkExpression (chunks : list string) (kids : list TemplateNode) : TemplateNode :=
  Node Expression "" [] kids None chunks ValueUndefined None None None 0 0.

Definition mkMustache (e : TemplateNode) : TemplateNode :=
  Node MustacheTag "" [] [] (Some e) [] ValueUndefined None None None 0 0.

Definition mkAttribute (nm : string) (v : AttrValue TemplateNode) : TemplateNode :=
  Node Attribute nm [] [] None [] v None None None 0 0.

(* ================================================================= *)
(** ** Codegen state *)

Inductive SpecifierType : Type :=
| ImportDefaultSpecifier
| ImportSpecifier
| ImportNamespaceSpecifier.

(** [imported] is [imported.name] or [imported.value] of an
    [ImportSpecifier]. *)
Record Specifier : Type := mkSpecifier {
  specifier_type : SpecifierType;
  local : string;
  imported : string
}.

Record ComponentInfo : Type := mkComponentInfo {
  importSpecifier : Specifier;
  url : string
}.

(** [markers.insideMarkdown] when it is an object: [{ $scope, count }]. *)
Record MarkdownMarker : Type := mkMarker {
  scope : option string;
  count : Z
}.

Record CodegenState : Type := mkState {
  components : list (string * ComponentInfo);
  css : list string;
  filename : string;
  fileID : string;
  insideMarkdown : option MarkdownMarker;   (* [None] is [false] *)
  declarations : list string;
  exportStatements : list string;
  importStatements : list string;
  componentImports : list (string * list string);
  customElementCandidates : list (string * string)
}.

Definition set_components v (s : CodegenState) : CodegenState :=
  mkState v (css s) (filename s) (fileID s) (insideMarkdown s) (declarations s)
    (exportStatements s) (importStatements s) (componentImports s)
    (customElementCandidates s).
Definition set_css v (s : CodegenState) : CodegenState :=
  mkState (components s) v (filename s) (fileID s) (insideMarkdown s) (declarations s)
    (exportStatements s) (importStatements s) (componentImports s)
    (customElementCandidates s).
Definition set_insideMarkdown v (s : CodegenState) : CodegenState :=
  mkState (components s) (css s) (filename s) (fileID s) v (declarations s)
    (exportStatements s) (importStatements s) (componentImports s)
    (customElementCandidates s).
Definition set_declarations v (s : CodegenState) : CodegenState :=
  mkState (components s) (css s) (filename s) (fileID s) (insideMarkdown s) v
    (exportStatements s) (importStatements s) (componentImports s)
    (customElementCandidates s).
Definition set_exportStatements v (s : CodegenState) : CodegenState :=
  mkState (components s) (css s) (filename s) (fileID s) (insideMarkdown s)
    (declarations s) v (importStatements s) (componentImports s)
    (customElementCandidates s).
Definition set_importStatements v (s : CodegenState) : CodegenState :=
  mkState (components s) (css s) (filename s) (fileID s) (insideMarkdown s)
    (declarations s) (exportStatements s) v (componentImports s)
    (customElementCandidates s).
Definition set_componentImports v (s : CodegenState) : CodegenState :=
  mkState (components s) (css s) (filename s) (fileID s) (insideMarkdown s)
    (declarations s) (exportStatements s) (importStatements s) v
    (customElementCandidates s).
Definition set_customElementCandidates v (s : CodegenState) : CodegenState :=
  mkState (components s) (css s) (filename s) (fileID s) (insideMarkdown s)
    (declarations s) (exportStatements s) (importStatements s)
    (componentImports s) v.

(** *** [Set<string>] and [Map<string, V>], insertion ordered *)

Definition set_has (x : string) (l : list string) : bool :=
  existsb (String.eqb x) l.

Definition set_add (x : string) (l : list string) : list string :=
  if set_has x l then l else (l ++ [x])%list.

Definition set_delete (x : string) (l : list string) : list string :=
  filter (fun y => negb (String.eqb x y)) l.

Fixpoint map_get {V : Type} (k : string) (m : list (string * V)) : option V :=
  match m with
  | [] => None
  | (k', v) :: r => if String.eqb k' k then Some v else map_get k r
  end.

Definition map_has {V : Type} (k : string) (m : list (string * V)) : bool :=
  match map_get k m with Some _ => true | None => false end.

Fixpoint map_update {V : Type} (k : string) (v : V) (m : list (string * V)) :=
  match m with
  | [] => []
  | (k', v') :: r =>
      if String.eqb k' k then (k', v) :: r else (k', v') :: map_update k v r
  end.

Definition map_set {V : Type} (k : string) (v : V) (m : list (string * V)) :=
  if map_has k m then map_update k v m else (m ++ [(k, v)])%list.

(** The state one document compile owns, and the sink it writes to. *)
Record World : Type := mkWorld {
  state : CodegenState;
  logged : list LogEntry
}.

Definition modify_state (f : CodegenState -> CodegenState) : M World unit :=
  modify (fun w => mkWorld (f (state w)) (logged w)).

Definition log (e : LogEntry) : M World unit :=
  modify (fun w => mkWorld (state w) (logged w ++ [e])%list).

Definition importStatements_add (x : string) : M World unit :=
  modify_state (fun s => set_importStatements (set_add x (importStatements s)) s).

Definition importStatements_delete (x : string) : M World unit :=
  modify_state (fun s => set_importStatements (set_delete x (importStatements s)) s).

(* ================================================================= *)
(** ** The frontmatter AST

    Babel nodes, with a constructor for each kind the code generator tells
    apart and [OtherNode] for the rest. *)

#[warnings="-register-all"]
Inductive BabelNode : Type :=
| Identifier (name_ : string)
| StringLiteral (value_ : string)
| MemberExpression (object property : BabelNode) (computed : bool)
| CallExpression (callee : BabelNode) (arguments : list BabelNode)
| MetaProperty (meta property : BabelNode)
| VariableDeclarator (id : BabelNode) (init : option BabelNode)
| VariableDeclaration (kind : string) (declarations_ : list BabelNode)
| FunctionDeclaration (id : option BabelNode) (params_and_body : list BabelNode)
| ExportNamedDeclaration (declaration : option BabelNode)
    (specifiers : list BabelNode) (start_ end__ : nat)
| ImportDeclaration (specifiers : list Specifier) (source : string)
    (start_ end__ : nat)
| OtherNode (type_ : string) (name_ : option string) (children_ : list BabelNode).

(** [ast.module] *)
Record Script : Type := mkScript {
  script_content : string;
  script_start : nat;
  script_end : nat
}.

(** The [Ast] of [@astrojs/parser]. *)
Record Ast : Type := mkAst {
  ast_module : option Script;
  ast_css : list TemplateNode;
  ast_html : TemplateNode;
  meta_features : N
}.

(* ================================================================= *)
(** ** Collaborators *)

(** The first message of an esbuild failure. *)
Record EsbuildMessage : Type := mkMessage {
  text : string;
  location_line : nat;
  location_column : nat;
  location_length : nat
}.

Record Env : Type := mkEnv {
  (* ../utils.js *)
  isComponentTag : string -> bool;
  isCustomElementTag : string -> bool;
  positionAt : nat -> string -> nat * nat;
  (* ./utils.js *)
  warnIfRelativeStringLiteral : string -> string -> string -> list LogEntry;
  (* ../transform/prism.js *)
  PRISM_IMPORT : string;
  (* esbuild, with the options of [transpileExpressionSafe] *)
  transformSync : string -> string + EsbuildMessage;
  (* fs, @babel/code-frame, kleur *)
  readFileSync : string -> string;
  codeFrameColumns : string -> nat * nat -> nat * nat -> string;
  yellow : string -> string;
  (* @astrojs/markdown-support, @astrojs/parser, ../transform *)
  renderMarkdown : string -> option string -> fallible string;
  parse : string -> fallible TemplateNode;
  transform : TemplateNode -> fallible TemplateNode;
  (* path, url *)
  extname : string -> string;
  posix_relative : string -> string -> string;
  resolveHref : string -> string -> string;
  (* astroConfig *)
  pages_path : string;
  projectRoot_pathname : string;
  projectRoot_href : string;
  (* @babel/parser, @babel/generator *)
  babelParser_parse : string -> fallible (list BabelNode);
  babelGenerator : list BabelNode -> string;
  babelGenerator_node : BabelNode -> string;
  (* ../../node_builtins.js, camel-case, @astrojs/parser *)
  nodeBuiltinsSet : list string;
  camelCase : string -> string;
  FEATURE_CUSTOM_ELEMENT : N
}.

(* ================================================================= *)
(** ** Regular expressions of the source, as functions *)

Definition is_comma (c : ascii) : bool := Ascii.eqb c ",".
Definition is_rparen (c : ascii) : bool := Ascii.eqb c ")".

(** [s.replace(/^\,/, '')] *)
Definition strip_leading_comma (s : string) : string :=
  match s with
  | String a r => if is_comma a then r else s
  | EmptyString => s
  end.

(** [s.replace(/\,\)/g, ')')] *)
Fixpoint replace_comma_paren (s : string) : string :=
  match s with
  | EmptyString => EmptyString
  | String a r =>
      match r with
      | String b r' =>
          if is_comma a && is_rparen b then String b (replace_comma_paren r')
          else String a (replace_comma_paren r)
      | EmptyString => s
      end
  end.

(** [s.replace(/\,+/g, ',')]; [prev] says that the previous code unit was a
    comma of the run being collapsed. *)
Fixpoint collapse_commas_from (prev : bool) (s : string) : string :=
  match s with
  | EmptyString => EmptyString
  | String a r =>
      if is_comma a
      then (if prev then collapse_commas_from true r
            else String a (collapse_commas_from true r))
      else String a (collapse_commas_from false r)
  end.

Definition collapse_commas (s : string) : string := collapse_commas_from false s.

(** [s.replace(/\)h/g, '),h')] *)
Fixpoint separate_paren_h (s : string) : string :=
  match s with
  | EmptyString => EmptyString
  | String a r =>
      match r with
      | String b r' =>
          if is_rparen a && Ascii.eqb b "h"
          then String a (String "," (String b (separate_paren_h r')))
          else String a (separate_paren_h r)
      | EmptyString => s
      end
  end.

(** The rewrites applied to [buffers.out] once the walk is over. *)
Definition cleanup (out : string) : string :=
  separate_paren_h (collapse_commas (replace_comma_paren (strip_leading_comma out))).

(** [s.replace(pat, by)] for a global pattern that is a literal, not empty;
    [skip] code units of the current match are still to be dropped. *)
Fixpoint replace_all_from (pat by_ : string) (skip : nat) (s : string) : string :=
  match s with
  | EmptyString => EmptyString
  | String a r =>
      match skip with
      | S k => replace_all_from pat by_ k r
      | O =>
          if Js.startsWith s pat
          then by_ ++ replace_all_from pat by_ (String.length pat - 1) r
          else String a (replace_all_from pat by_ 0 r)
      end
  end.

(** [raw.replace(/ASTRO_ESCAPED_LEFT_CURLY_BRACKET\0/g, '{')] *)
Definition unescape_curly (s : string) : string :=
  replace_all_from ("ASTRO_ESCAPED_LEFT_CURLY_BRACKET" ++ Js.nul) "{" 0 s.

(** [code.replace(/\;$/, '')] *)
Fixpoint strip_final_semicolon (s : string) : string :=
  match s with
  | EmptyString => EmptyString
  | String a r =>
      match r with
      | EmptyString => if Ascii.eqb a ";" then EmptyString else s
      | String _ _ => String a (strip_final_semicolon r)
      end
  end.

(** [/\.[^.]+$/]: the last dot, when something follows it. *)
Fixpoint replace_extension (ext : string) (s : string) : string :=
  match s with
  | EmptyString => EmptyString
  | String a r =>
      if Ascii.eqb a "." && negb (Js.includes_char "." r) && negb (String.eqb r "")
      then ext
      else String a (replace_extension ext r)
  end.

Definition is_blank (c : ascii) : bool := Ascii.eqb c " " || Ascii.eqb c "009".
Definition is_line_end (c : ascii) : bool := Ascii.eqb c "010" || Ascii.eqb c "013".

(** The first match of [/^[ \t]*(?=\S)/gm] that is not empty: its length.
    [run] is the length of the indentation read on the current line, while
    still inside it. *)
Fixpoint first_indent (run : option nat) (s : string) : option nat :=
  match s with
  | EmptyString => None
  | String a r =>
      let next := if is_line_end a then Some O else None in
      match run with
      | Some k =>
          if is_blank a then first_indent (Some (S k)) r
          else if negb (Js.is_space a) && negb (Nat.eqb k 0) then Some k
          else first_indent next r
      | None => first_indent next r
      end
  end.

(** [str.replace(/^[ \t]{0,first}/gm, '')]; [budget] is what may still be
    dropped on the current line, while still inside its indentation. *)
Fixpoint strip_indent (first : nat) (budget : option nat) (s : string) : string :=
  match s with
  | EmptyString => EmptyString
  | String a r =>
      let next := if is_line_end a then Some first else None in
      match budget with
      | Some (S k) =>
          if is_blank a then strip_indent first (Some k) r
          else String a (strip_indent first next r)
      | _ => String a (strip_indent first next r)
      end
  end.

Definition dedent (str : string) : string :=
  match first_indent (Some O) str with
  | Some first => strip_indent first (Some first) str
  | None => str
  end.

Definition FALSY_EXPRESSIONS : list string := ["false"; "null"; "undefined"; "void 0"].

Definition PlainExtensions : list string := [".js"; ".jsx"; ".ts"; ".tsx"].

(** What [+] makes of a value that may be [undefined]. *)
Definition concat_opt (o : option string) : string :=
  match o with
  | Some s => s
  | None => "undefined"
  end.

(** What [Array.prototype.join] makes of it. *)
Definition join_opt (o : option string) : string :=
  match o with
  | Some s => s
  | None => ""
  end.

(* ================================================================= *)
(** ** Attributes, expressions and component wrappers *)

(** [getTextFromAttribute]; [None] is [undefined]. *)
Definition getTextFromAttribute (attr : TemplateNode) : fallible (option string) :=
  match type attr with
  | Text =>
      match raw attr, data attr with
      | Some r, _ => Returns (Some r)
      | None, Some d => Returns (Some d)
      | None, None => Throws (Error ("Unknown attribute type " ++ type_name (type attr)))
      end
  | MustacheTag =>
      match expression attr with
      | Some e => Returns (hd_error (codeChunks e))
      | None => Throws (TypeError "Cannot read property 'codeChunks' of undefined")
      end
  | _ => Throws (Error ("Unknown attribute type " ++ type_name (type attr)))
  end.

(** The loop of [compileExpression] that splices the compiled children
    between the code chunks. *)
Fixpoint interleave (chunks children : list string) : string :=
  match chunks with
  | [] => ""
  | chunk :: chunks' =>
      match children with
      | child :: children' => chunk ++ child ++ interleave chunks' children'
      | [] => chunk ++ interleave chunks' []
      end
  end.

Definition isFrontmatterDefinedComponent (componentName : string)
    (componentInfo : option ComponentInfo) (st : CodegenState) : bool :=
  let hasVariableDeclaration := set_has componentName (declarations st) in
  let isNotImported := match componentInfo with None => true | Some _ => false end in
  hasVariableDeclaration && isNotImported.

Definition isFragmentComponent (componentName : string) : bool :=
  String.eqb componentName "Fragment".

Definition import_element_registry : string :=
  "import {AstroElementRegistry} from 'astro/dist/internal/element-registry.js';".
Definition import_astro_component : string :=
  "import {__astro_component} from 'astro/dist/internal/__astro_component.js';".
Definition import_astro_slot : string :=
  "import { __astro_slot } from 'astro/dist/internal/__astro_slot.js';".
Definition import_astro_slot_content : string :=
  "import { __astro_slot_content } from 'astro/dist/internal/__astro_slot.js';".

Section Codegen.

Variable env : Env.

(** [transpileExpressionSafe]; [None] is [null]. *)
Definition transpileExpressionSafe (raw_ : string) (location_start : nat)
    : M World (option string) :=
  match transformSync env raw_ with
  | inl code => ret (Some code)
  | inr e =>
      st <- gets state ;;
      let text_ := readFileSync env (filename st) in
      let '(line0, character0) := positionAt env location_start text_ in
      let line := line0 + location_line e in
      let character := character0 + (location_column e + 1) in
      let frame :=
        codeFrameColumns env text_ (line, character)
          (line, character + location_length e) in
      log (LogParseError (filename st) line character frame (text e)) ;;
      ret None
  end.

Definition getComponentUrl (url_ : string) (filename_ : string) : string :=
  let componentExt := extname env url_ in
  let ext := if set_has componentExt PlainExtensions then ".js"
             else componentExt ++ ".js" in
  let href := resolveHref env url_ filename_ in
  "/_astro/" ++ replace_extension ext (Js.replace_first (projectRoot_href env) "" href).

(** [JSON.stringify({ hydrate: method, displayName: _name })] *)
Definition stringify_element_args (method_ : option string) (_name : string) : string :=
  "{" ++ match method_ with
         | Some m => Js.quoted "hydrate" ++ ":" ++ Js.JSON_stringify m ++ ","
         | None => ""
         end
      ++ Js.quoted "displayName" ++ ":" ++ Js.JSON_stringify _name ++ "}".

(** [JSON.stringify(componentExport)] *)
Definition stringify_componentExport (v : option string) : string :=
  match v with
  | Some s => "{" ++ Js.quoted "value" ++ ":" ++ Js.JSON_stringify s ++ "}"
  | None => "{}"
  end.

Definition getComponentExport (_name : string) (importSpecifier_ : Specifier)
    : option string :=
  match specifier_type importSpecifier_ with
  | ImportDefaultSpecifier => Some "default"
  | ImportSpecifier => Some (imported importSpecifier_)
  | ImportNamespaceSpecifier => nth_error (Js.split_char "." _name) 1
  end.

(** [hydration.value || 'null'] *)
Definition value_or_null (h : HydrationAttributes) : string :=
  if Js.truthy (value h) then join_opt (value h) else "null".

(** [getComponentWrapper]: the wrapper expression and its imports.  The
    component info is [None] for [{}]. *)
Definition getComponentWrapper (_name : string) (hydration : HydrationAttributes)
    (info : option ComponentInfo) : M World (string * list string) :=
  legacy <-
    match Js.indexOf_char ":" _name with
    | Some (S _) =>
        let parts := Js.split_char ":" _name in
        let legacyName := hd "" parts in
        let legacyMethod := nth_error parts 1 in
        st <- gets state ;;
        let shortname := posix_relative env (projectRoot_pathname env) (filename st) in
        log (LogWarn shortname
               (yellow env
                  ("Deprecation warning: Partial hydration now uses a directive syntax. Please update to "
                   ++ Js.dq ++ "<" ++ legacyName ++ " client:" ++ concat_opt legacyMethod
                   ++ " />" ++ Js.dq))) ;;
        ret (legacyName, legacyMethod)
    | _ => ret (_name, method hydration)
    end ;;
  let '(name0, method_) := legacy in
  if isCustomElementTag env _name then
    ret ("__astro_component(...__astro_element_registry.astroComponentArgs("
           ++ Js.quoted name0 ++ ", " ++ stringify_element_args method_ _name ++ "))",
         [import_element_registry; import_astro_component])
  else
    body <-
      (if Js.truthy method_ then
         match info with
         | None => throw (TypeError "The path argument must be of type string. Received undefined")
         | Some i =>
             st <- gets state ;;
             let componentUrl := getComponentUrl (url i) (filename st) in
             let componentExport := getComponentExport _name (importSpecifier i) in
             let metadata :=
               "{ hydrate: " ++ Js.quoted (join_opt method_)
               ++ ", displayName: " ++ Js.quoted name0
               ++ ", componentUrl: " ++ Js.quoted componentUrl
               ++ ", componentExport: " ++ stringify_componentExport componentExport
               ++ ", value: " ++ value_or_null hydration ++ " }" in
             ret (if String.eqb (join_opt method_) "only" then "Fragment" else name0,
                  metadata)
         end
       else
         ret (name0,
              "{ hydrate: undefined, displayName: " ++ Js.quoted name0
              ++ ", value: " ++ value_or_null hydration ++ " }")) ;;
    let '(name1, metadata) := body in
    ret ("__astro_component(" ++ name1 ++ ", " ++ metadata ++ ")",
         [import_astro_component]).

(** *** What depends on the recursive compile of child nodes *)

Section WithCompile.

(** [compileHtml] on the children of an expression. *)
Variable compileHtml_child : TemplateNode -> M World string.

(** [compileHtml] on the AST of a flushed Markdown region. *)
Variable compileHtml_flush : TemplateNode -> M World string.

(** [compileExpression].  [Promise.all] starts the children in order;
    they are run here one after the other. *)
Definition compileExpression (node : TemplateNode) : M World string :=
  children_ <- mapM compileHtml_child (children node) ;;
  let raw_ := interleave (codeChunks node) children_ in
  code <- transpileExpressionSafe ("(" ++ raw_ ++ ")") (start node) ;;
  match code with
  | None => throw (Error "Unable to compile expression")
  | Some code => ret (strip_final_semicolon (Js.trim code))
  end.

Definition compileExpression_of (e : option TemplateNode) : M World string :=
  match e with
  | Some node => compileExpression node
  | None => throw (TypeError "Cannot read property 'children' of undefined")
  end.

(** One segment of a multi-segment attribute value. *)
Definition segment_code (v : TemplateNode) : fallible string :=
  if Js.truthy (content v) then Returns (join_opt (content v))
  else match getTextFromAttribute v with
       | Returns (Some t) => Returns (Js.JSON_stringify t)
       | Returns None => Returns ""
       | Throws e => Throws e
       end.

Fixpoint segments_code (l : list TemplateNode) : fallible (list string) :=
  match l with
  | [] => Returns []
  | v :: r =>
      match segment_code v with
      | Throws e => Throws e
      | Returns c =>
          match segments_code r with
          | Throws e => Throws e
          | Returns cs => Returns (c :: cs)
          end
      end
  end.

(** The body of the loop of [getAttributes], for one attribute. *)
Definition getAttributes_step (nodeName : string) (isPage : bool)
    (result : Js.Object) (attr : TemplateNode) : M World Js.Object :=
  match type attr with
  | Spread =>
      code <- compileExpression_of (expression attr) ;;
      if negb (String.eqb code "")
      then ret (Js.set ("...(" ++ code ++ ")") "" result)
      else ret result
  | _ =>
      match attr_value attr with
      | ValueTrue => ret (Js.set (name attr) "true" result)
      | ValueFalse | ValueUndefined => ret result
      | ValueList [] => ret (Js.set (name attr) (Js.dq ++ Js.dq) result)
      | ValueList [val] =>
          match type val with
          | MustacheTag =>
              code <- compileExpression_of (expression val) ;;
              if negb (String.eqb code "")
              then ret (Js.set (name attr) ("(" ++ code ++ ")") result)
              else ret result
          | Text =>
              text_ <- of_fallible (getTextFromAttribute val) ;;
              when (negb isPage)
                (forM_ log (warnIfRelativeStringLiteral env nodeName (name attr)
                              (join_opt text_))) ;;
              ret (Js.set (name attr) (Js.JSON_stringify (join_opt text_)) result)
          | AttributeShorthand =>
              ret (Js.set (name attr) ("(" ++ name attr ++ ")") result)
          | t => throw (Error ("UNKNOWN: " ++ type_name t))
          end
      | ValueList segments =>
          codes <- of_fallible (segments_code segments) ;;
          ret (Js.set (name attr) ("(" ++ Js.join "+" codes ++ ")") result)
      end
  end.

Fixpoint getAttributes_loop (nodeName : string) (isPage : bool)
    (result : Js.Object) (attrs : list TemplateNode) : M World Js.Object :=
  match attrs with
  | [] => ret result
  | attr :: rest =>
      result' <- getAttributes_step nodeName isPage result attr ;;
      getAttributes_loop nodeName isPage result' rest
  end.

Definition getAttributes (nodeName : string) (attrs : list TemplateNode)
    : M World Js.Object :=
  st <- gets state ;;
  let isPage := Js.startsWith (filename st) (pages_path env) in
  getAttributes_loop nodeName isPage [] attrs.

End WithCompile.

End Codegen.

(* ================================================================= *)
(** ** The template walk *)

Inductive Buffer : Type := BufferOut | BufferMarkdown.

(** The locals of one [compileHtml] call, next to the shared world. *)
Record Walk : Type := mkWalk {
  world : World;
  paren : Z;
  buffers_out : string;
  buffers_markdown : string;
  curr : Buffer
}.

Definition set_world v (w : Walk) : Walk :=
  mkWalk v (paren w) (buffers_out w) (buffers_markdown w) (curr w).
Definition set_paren v (w : Walk) : Walk :=
  mkWalk (world w) v (buffers_out w) (buffers_markdown w) (curr w).
Definition set_out v (w : Walk) : Walk :=
  mkWalk (world w) (paren w) v (buffers_markdown w) (curr w).
Definition set_markdown v (w : Walk) : Walk :=
  mkWalk (world w) (paren w) (buffers_out w) v (curr w).
Definition set_curr v (w : Walk) : Walk :=
  mkWalk (world w) (paren w) (buffers_out w) (buffers_markdown w) v.

(** The locals at the start of [compileHtml]. *)
Definition fresh_walk (g : World) : Walk := mkWalk g (-1) "" "" BufferOut.

(** Runs code on the shared world inside the walk. *)
Definition lift_world {A : Type} (m : M World A) : M Walk A :=
  fun w => let '(r, g) := m (world w) in (r, set_world g w).

(** [buffers[curr] += s] *)
Definition emit (s : string) : M Walk unit :=
  modify (fun w =>
    match curr w with
    | BufferOut => set_out (buffers_out w ++ s) w
    | BufferMarkdown => set_markdown (buffers_markdown w ++ s) w
    end).

(** [buffers.out += s] *)
Definition emit_out (s : string) : M Walk unit :=
  modify (fun w => set_out (buffers_out w ++ s) w).

(** [paren++] and [paren--] *)
Definition paren_incr : M Walk unit := modify (fun w => set_paren (paren w + 1)%Z w).
Definition paren_decr : M Walk unit := modify (fun w => set_paren (paren w - 1)%Z w).

(** [if (curr === 'out') curr = 'markdown'] *)
Definition promote_to_markdown : M Walk unit := modify (set_curr BufferMarkdown).

Definition curr_is_markdown (w : Walk) : bool :=
  match curr w with BufferMarkdown => true | BufferOut => false end.

Definition is_inside (st : CodegenState) : bool :=
  match insideMarkdown st with Some _ => true | None => false end.

(** What the [enter] hook tells the walker: [this.skip()] or not. *)
Inductive Control : Type := Descend | SkipNode.

Definition has_slot_attribute (node : TemplateNode) : bool :=
  existsb (fun attr => String.eqb (name attr) "slot") (attributes node).

Definition has_attrs_besides_scope (node : TemplateNode) : bool :=
  negb (Nat.eqb
    (List.length (filter (fun attr => negb (String.eqb (name attr) "$scope"))
                         (attributes node))) 0).

Section Walker.

Variable env : Env.
Variable compileHtml_child : TemplateNode -> M World string.
Variable compileHtml_flush : TemplateNode -> M World string.

(** The recursive [compileHtml] of a flush runs on
    [{ ...state, markers: { insideMarkdown: false } }]: the maps, sets and
    arrays are shared, the marker is not. *)
Definition with_fresh_markers {A : Type} (m : M World A) : M World A :=
  fun g =>
    let outer := insideMarkdown (state g) in
    let '(r, g') := m (mkWorld (set_insideMarkdown None (state g)) (logged g)) in
    (r, mkWorld (set_insideMarkdown outer (state g')) (logged g')).

Definition pushMarkdownToBuffer : M Walk unit :=
  md <- gets buffers_markdown ;;
  if Js.all_space md then
    emit_out ("," ++ md) ;;
    modify (set_markdown "") ;;
    modify (set_curr BufferOut)
  else
    st <- gets (fun w => state (world w)) ;;
    let scopedClassName :=
      match insideMarkdown st with
      | Some m => scope m
      | None => None
      end in
    let className :=
      match scopedClassName with
      | Some s => if String.eqb s "" then Some s else Some (Js.slice_1_m1 s)
      | None => None
      end in
    rendered <- of_fallible (renderMarkdown env (dedent md) className) ;;
    ast <- of_fallible (parse env rendered) ;;
    html <- of_fallible (transform env ast) ;;
    result <- lift_world (with_fresh_markers (compileHtml_flush html)) ;;
    emit_out ("," ++ result) ;;
    modify (set_markdown "") ;;
    modify (set_curr BufferOut).

Definition flush_if_markdown : M Walk unit :=
  w <- gets (fun w => w) ;;
  when (curr_is_markdown w) pushMarkdownToBuffer.

(** The [slot] attribute: a wrapping [h(__astro_slot_content, ...]. *)
Definition open_slot_content (attributes_ : Js.Object) : M Walk unit :=
  when (Js.truthy (Js.get "slot" attributes_))
    (lift_world (importStatements_add import_astro_slot_content) ;;
     emit ("h(__astro_slot_content, { name: " ++ join_opt (Js.get "slot" attributes_) ++ " },") ;;
     paren_incr).

(** A plain element, or a component defined in the frontmatter: [tag] is
    the first argument of [h], already quoted when it has to be. *)
Definition open_static (tag : string) (attributes_ : Js.Object) : M Walk unit :=
  flush_if_markdown ;;
  open_slot_content attributes_ ;;
  emit ("h(" ++ tag ++ ", " ++ generateAttributes attributes_ ++ ",") ;;
  paren_incr.

(** [case 'Prism'] of the inner switch. *)
Definition inject_prism : M World unit :=
  importStatements_add (PRISM_IMPORT env) ;;
  modify_state (fun s =>
    if map_has "Prism" (components s) then s
    else set_components
           (map_set "Prism"
              (mkComponentInfo (mkSpecifier ImportDefaultSpecifier "Prism" "")
                               "astro/components/Prism.astro")
              (components s)) s).

(** [components.get(componentName)], or the namespace before the first dot
    when the name has one. *)
Definition lookup_component (componentName : string) (st : CodegenState)
    : option ComponentInfo :=
  if Js.includes_char "." componentName
  then map_get (hd "" (Js.split_char "." componentName)) (components st)
  else map_get componentName (components st).

Definition unable_to_hydrate (componentName : string) : string :=
  "Unable to hydrate " ++ Js.quoted componentName
  ++ " because it is statically defined in the frontmatter script. Hydration directives may only be used on imported components.".

Definition unable_to_render (componentName filename_ : string) : string :=
  "Unable to render " ++ Js.quoted componentName ++ " because it is undefined"
  ++ Js.nl ++ "  " ++ filename_.

(** The [try] block of [case 'Element']. *)
Definition enter_element_try (node : TemplateNode) : M Walk unit :=
  let name_ := name node in
  attributes_ <- lift_world (getAttributes env compileHtml_child name_ (attributes node)) ;;
  let hydrationAttributes := findHydrationAttributes attributes_ in
  modify (fun w =>
    set_out (if String.eqb (buffers_out w) "" then buffers_out w ++ ""
             else buffers_out w ++ ",") w) ;;
  match type node with
  | Slot =>
      lift_world (importStatements_add import_astro_slot) ;;
      emit ("h(__astro_slot, " ++ generateAttributes attributes_ ++ ", children") ;;
      paren_incr
  | _ =>
      if negb (isComponentTag env name_) then
        open_static (Js.quoted name_) attributes_
      else
        let componentName := hd "" (Js.split_char ":" name_) in
        st <- gets (fun w => state (world w)) ;;
        let componentInfo := lookup_component componentName st in
        if (isFrontmatterDefinedComponent componentName componentInfo st
            && negb (isCustomElementTag env componentName))
           || isFragmentComponent componentName
        then
          if Js.truthy (method hydrationAttributes)
          then throw (Error (unable_to_hydrate componentName))
          else open_static componentName attributes_
        else if (match componentInfo with None => true | Some _ => false end)
                && negb (isCustomElementTag env componentName)
        then throw (Error (unable_to_render componentName (filename st)))
        else if String.eqb componentName "Markdown" then
          let scope_ := Js.get "$scope" attributes_ in
          lift_world (modify_state (fun s =>
            set_insideMarkdown
              (match insideMarkdown s with
               | Some m => Some (mkMarker scope_ (count m + 1))
               | None => Some (mkMarker scope_ 1)
               end) s)) ;;
          let keys := filter (fun attr => negb (String.eqb attr "$scope"))
                             (map fst attributes_) in
          when (negb (Nat.eqb (List.length keys) 0))
            (flush_if_markdown ;;
             emit ("," ++ componentName ++ ".__render("
                   ++ generateAttributes attributes_ ++ "),")) ;;
          modify (set_curr BufferMarkdown)
        else
          wrapped <- lift_world (getComponentWrapper env name_ hydrationAttributes componentInfo) ;;
          let '(wrapper, wrapperImports) := wrapped in
          lift_world (forM_ importStatements_add wrapperImports) ;;
          when (match method hydrationAttributes with
                | Some m => String.eqb m "only"
                | None => false
                end)
            (st' <- gets (fun w => state (world w)) ;;
             let componentImports_ :=
               match map_get componentName (componentImports st') with
               | Some l => l
               | None => []
               end in
             lift_world (forM_ importStatements_delete componentImports_)) ;;
          flush_if_markdown ;;
          open_slot_content attributes_ ;;
          paren_incr ;;
          emit ("h(" ++ wrapper ++ ", " ++ generateAttributes attributes_)
  end.

(** [case 'Title': case 'Element':], with its [catch]. *)
Definition enter_element (node : TemplateNode) : M Walk Control :=
  if String.eqb (name node) "" then throw (Error "AHHHH")
  else
    try_catch (enter_element_try node)
      (fun err =>
         paren_decr ;;
         st <- gets (fun w => state (world w)) ;;
         let rel := Js.replace_first (projectRoot_pathname env) "" (filename st) in
         lift_world (log (LogError rel (error_toString err)))) ;;
    ret Descend.

(** The [enter] hook of the walk. *)
Definition enter (node : TemplateNode) (parent : option TemplateNode)
    : M Walk Control :=
  match type node with
  | Expression =>
      code <- lift_world (compileExpression env compileHtml_child node) ;;
      if set_has code FALSY_EXPRESSIONS then ret SkipNode
      else
        when (negb (String.eqb code ""))
          (st <- gets (fun w => state (world w)) ;;
           if is_inside st then emit ("{" ++ code ++ "}")
           else emit (",(" ++ code ++ ")")) ;;
        ret SkipNode
  | MustacheTag =>
      st <- gets (fun w => state (world w)) ;;
      when (is_inside st) promote_to_markdown ;;
      ret Descend
  | Comment => ret Descend
  | Fragment => emit "h(Fragment, null," ;; ret Descend
  | SlotTemplate =>
      emit "h(Fragment, null, children" ;; paren_incr ;; ret Descend
  | Slot | Head | InlineComponent =>
      when (String.eqb (name node) "Prism") (lift_world inject_prism) ;;
      enter_element node
  | Title | Element => enter_element node
  | Attribute | Spread => ret SkipNode
  | Style =>
      match content node with
      | Some styles =>
          lift_world (modify_state (fun s => set_css (css s ++ [styles])%list s)) ;;
          ret SkipNode
      | None => throw (TypeError "Cannot read property 'styles' of undefined")
      end
  | CodeSpan | CodeFence =>
      st <- gets (fun w => state (world w)) ;;
      if is_inside st then
        promote_to_markdown ;; emit (concat_opt (raw node)) ;; ret Descend
      else
        emit ("," ++ concat_opt (option_map Js.JSON_stringify (data node))) ;;
        ret Descend
  | Text =>
      text_ <- of_fallible (getTextFromAttribute node) ;;
      let text_ := join_opt text_ in
      st <- gets (fun w => state (world w)) ;;
      if is_inside st then
        promote_to_markdown ;; emit text_ ;; ret Descend
      else
        match parent with
        | None => throw (TypeError "Cannot read property 'name' of null")
        | Some p =>
            if negb (String.eqb (name p) "Markdown") && Js.all_space text_
            then ret Descend
            else if String.eqb (name p) "code" then
              match raw node with
              | Some r => emit ("," ++ Js.JSON_stringify (unescape_curly r)) ;; ret Descend
              | None => throw (TypeError "Cannot read property 'replace' of undefined")
              end
            else emit ("," ++ Js.JSON_stringify text_) ;; ret Descend
        end
  | t => throw (Error ("Unexpected (enter) node type: " ++ type_name t))
  end.

(** The closing parentheses of an element-class [leave]. *)
Definition close_parens (node : TemplateNode) : M Walk unit :=
  when (has_slot_attribute node) (emit_out ")" ;; paren_decr) ;;
  p <- gets paren ;;
  when (negb (Z.eqb p (-1))) (emit_out ")" ;; paren_decr).

(** [insideMarkdown.count--] and the reset to [false].  The module is
    strict code: writing a property of [false] throws. *)
Definition leave_markdown_marker : M World unit :=
  st <- gets state ;;
  match insideMarkdown st with
  | None => throw (TypeError "Cannot create property 'count' on boolean 'false'")
  | Some m =>
      let c := (count m - 1)%Z in
      modify_state (set_insideMarkdown
                      (if (c <=? 0)%Z then None else Some (mkMarker (scope m) c)))
  end.

(** The [leave] hook of the walk. *)
Definition leave (node : TemplateNode) : M Walk unit :=
  match type node with
  | Fragment => emit ")"
  | Text | Attribute | Spread | Comment | Expression | MustacheTag
  | CodeSpan | CodeFence => ret tt
  | SlotTemplate | Slot | Head | Body | Title | Element =>
      flush_if_markdown ;;
      close_parens node
  | InlineComponent =>
      done <-
        (if String.eqb (name node) "Markdown" then
           lift_world leave_markdown_marker ;;
           ret (has_attrs_besides_scope node)
         else ret false) ;;
      if done : bool then ret tt
      else
        w <- gets (fun w => w) ;;
        if curr_is_markdown w && negb (String.eqb (buffers_markdown w) "") then
          pushMarkdownToBuffer ;;
          st <- gets (fun w => state (world w)) ;;
          if negb (is_inside st) then ret tt
          else close_parens node
        else close_parens node
  | Style => ret tt
  | t => throw (Error ("Unexpected (leave) node type: " ++ type_name t))
  end.

End Walker.

(* ================================================================= *)
(** ** [asyncWalk] and [compileHtml] *)

(** The end of [compileHtml]: the walk ran on fresh locals, its [out]
    buffer is cleaned up and resolved.  When a hook throws, the promise of
    the walk rejects and [resolve] is never called: no string comes out. *)
Definition compileHtml_of_walk (walk : M Walk unit) : M World string :=
  fun g =>
    match walk (fresh_walk g) with
    | (Ok _, w) => (Ok (cleanup (buffers_out w)), world w)
    | (Throw e, w) => (Throw e, world w)
    | (OutOfFuel, w) => (OutOfFuel, world w)
    end.

Section AsyncWalk.

Variable env : Env.
Variable compileHtml_flush : TemplateNode -> M World string.

(** [visit] of estree-walker's [asyncWalk]: [enter], then the child nodes
    held by the properties of the node unless the hook skipped, then
    [leave]. *)
Fixpoint visit (node : TemplateNode) (parent : option TemplateNode) {struct node}
    : M Walk unit :=
  ctl <- enter env (fun child => compileHtml_of_walk (visit child None))
               compileHtml_flush node parent ;;
  match ctl with
  | SkipNode => ret tt
  | Descend =>
      forM_ (fun c => visit c (Some node)) (attributes node) ;;
      match expression node with
      | Some e => visit e (Some node)
      | None => ret tt
      end ;;
      forM_ (fun c => visit c (Some node)) (children node) ;;
      leave env compileHtml_flush node
  end.

End AsyncWalk.

(** [compileHtml].  [fuel] bounds how deep flushed Markdown may re-enter the
    compiler; everything else is structural. *)
Fixpoint compileHtml (env : Env) (fuel : nat) (enterNode : TemplateNode)
    : M World string :=
  match fuel with
  | O => fun g => (OutOfFuel, g)
  | S fuel' => compileHtml_of_walk (visit env (compileHtml env fuel') enterNode None)
  end.

(* ================================================================= *)
(** ** The frontmatter: [compileModule] *)

(** [/Astro\s*\.\s*fetchContent/] matched where [s] starts. *)
Definition fetchContent_matches_here (s : string) : bool :=
  Js.startsWith s "Astro"
  && (let r := Js.trim_start (Js.slice_from 5 s) in
      Js.startsWith r "."
      && Js.startsWith (Js.trim_start (Js.slice_from 1 r)) "fetchContent").

(** [/Astro\s*\.\s*fetchContent/.test(s)] *)
Fixpoint test_fetchContent (s : string) : bool :=
  fetchContent_matches_here s
  || match s with
     | EmptyString => false
     | String _ r => test_fetchContent r
     end.

Definition import_fetchContent : string :=
  "import {fetchContent} from 'astro/dist/internal/fetch-content.js';" ++ Js.nl.

(** [(node as any).name] *)
Definition node_name (n : BabelNode) : option string :=
  match n with
  | Identifier nm => Some nm
  | OtherNode _ nm _ => nm
  | _ => None
  end.

Definition option_is (o : option string) (s : string) : bool :=
  match o with
  | Some x => String.eqb x s
  | None => false
  end.

(** The test that [enter] makes on the callee of a call expression. *)
Definition is_fetchContent_callee (callee : BabelNode) : bool :=
  match callee with
  | MemberExpression object property _ =>
      option_is (node_name object) "Astro"
      && option_is (node_name property) "fetchContent"
  | _ => false
  end.

(** [import.meta.globEager] *)
Definition globEager_callee : BabelNode :=
  MemberExpression
    (MetaProperty (Identifier "import") (Identifier "meta"))
    (Identifier "globEager") false.

Definition only_string_literals (filename_ : string) : string :=
  "[Astro.fetchContent] Only string literals allowed, ex: `Astro.fetchContent('./post/*.md')`"
  ++ Js.nl ++ "  " ++ filename_.

(** What the [enter] visitor does to the arguments of a call whose callee
    passed the test. *)
Definition wrap_arguments (filename_ : string) (arguments : list BabelNode)
    : fallible (list BabelNode) :=
  match arguments with
  | StringLiteral _ :: _ => Returns [CallExpression globEager_callee arguments]
  | _ :: _ => Throws (Error (only_string_literals filename_))
  | [] => Throws (TypeError "Cannot read property 'type' of undefined")
  end.

Definition fallible_bind {A B : Type} (r : fallible A) (k : A -> fallible B) : fallible B :=
  match r with
  | Returns a => k a
  | Throws e => Throws e
  end.

Definition fallible_option {A : Type} (f : A -> fallible A) (o : option A)
    : fallible (option A) :=
  match o with
  | Some a => fallible_bind (f a) (fun a' => Returns (Some a'))
  | None => Returns None
  end.

(** [traverse(parseResult, { enter })]: every node in source order; the
    children of a node are visited after its [enter], so the wrapped
    arguments are visited where the visitor put them. *)
Fixpoint traverse_fetchContent (filename_ : string) (node : BabelNode)
    : fallible BabelNode :=
  let all :=
    fix all (l : list BabelNode) : fallible (list BabelNode) :=
      match l with
      | [] => Returns []
      | n :: r =>
          fallible_bind (traverse_fetchContent filename_ n) (fun n' =>
          fallible_bind (all r) (fun r' => Returns (n' :: r')))
      end in
  match node with
  | Identifier _ | StringLiteral _ | ImportDeclaration _ _ _ _ => Returns node
  | MemberExpression object property computed =>
      fallible_bind (traverse_fetchContent filename_ object) (fun object' =>
      fallible_bind (traverse_fetchContent filename_ property) (fun property' =>
      Returns (MemberExpression object' property' computed)))
  | CallExpression callee arguments =>
      if is_fetchContent_callee callee then
        fallible_bind (wrap_arguments filename_ arguments) (fun _ =>
        fallible_bind (traverse_fetchContent filename_ callee) (fun callee' =>
        fallible_bind (all arguments) (fun arguments' =>
        Returns (CallExpression callee' [CallExpression globEager_callee arguments']))))
      else
        fallible_bind (traverse_fetchContent filename_ callee) (fun callee' =>
        fallible_bind (all arguments) (fun arguments' =>
        Returns (CallExpression callee' arguments')))
  | MetaProperty meta property =>
      fallible_bind (traverse_fetchContent filename_ meta) (fun meta' =>
      fallible_bind (traverse_fetchContent filename_ property) (fun property' =>
      Returns (MetaProperty meta' property')))
  | VariableDeclarator id init =>
      fallible_bind (traverse_fetchContent filename_ id) (fun id' =>
      fallible_bind (fallible_option (traverse_fetchContent filename_) init) (fun init' =>
      Returns (VariableDeclarator id' init')))
  | VariableDeclaration kind declarations_ =>
      fallible_bind (all declarations_) (fun d' => Returns (VariableDeclaration kind d'))
  | FunctionDeclaration id rest =>
      fallible_bind (fallible_option (traverse_fetchContent filename_) id) (fun id' =>
      fallible_bind (all rest) (fun rest' => Returns (FunctionDeclaration id' rest')))
  | ExportNamedDeclaration declaration specifiers start_ end__ =>
      fallible_bind (fallible_option (traverse_fetchContent filename_) declaration)
        (fun declaration' =>
      fallible_bind (all specifiers) (fun specifiers' =>
      Returns (ExportNamedDeclaration declaration' specifiers' start_ end__)))
  | OtherNode type_ name_ children_ =>
      fallible_bind (all children_) (fun c' => Returns (OtherNode type_ name_ c'))
  end.

Fixpoint traverse_program (filename_ : string) (body : list BabelNode)
    : fallible (list BabelNode) :=
  match body with
  | [] => Returns []
  | n :: r =>
      fallible_bind (traverse_fetchContent filename_ n) (fun n' =>
      fallible_bind (traverse_program filename_ r) (fun r' => Returns (n' :: r')))
  end.

(** [content.slice(start || undefined, end || undefined)] *)
Definition slice_range (start_ end__ : nat) (s : string) : string :=
  let stop := if Nat.eqb end__ 0 then String.length s else end__ in
  Js.take (stop - start_) (Js.slice_from start_ s).

(** The locals of [compileModule] that the loop over the body fills. *)
Record ModuleLocals : Type := mkLocals {
  body_kept : list BabelNode;            (* [program.body] after the splices *)
  imports_found : list BabelNode;        (* [componentImports] *)
  props_found : list BabelNode;          (* [componentProps] *)
  exports_found : list BabelNode;        (* [componentExports] *)
  getStaticPaths_found : string;
  declarations_found : list string       (* added to [state.declarations] *)
}.

(** How the loop classifies a named export of a variable declaration. *)
Inductive ExportClass : Type := SpecialExport | PropExport.

(** [(declaration.id as Identifier).name] of [declarations[0]]; the outer
    [None] is a missing declarator. *)
Definition first_declarator_name (declarations_ : list BabelNode)
    : option (option string) :=
  match declarations_ with
  | VariableDeclarator id _ :: _ => Some (node_name id)
  | _ => None
  end.

Definition classify_export (first_name : option string) : ExportClass :=
  if option_is first_name "__layout" || option_is first_name "__content"
  then SpecialExport else PropExport.

Section Frontmatter.

Variable env : Env.

(** One turn of [while (--i >= 0)]: [node] is [body[i]], [acc] holds what
    the turns for the later statements did. *)
Definition classify_statement (node : BabelNode) (acc : ModuleLocals)
    : fallible ModuleLocals :=
  let keep := mkLocals (node :: body_kept acc) (imports_found acc) (props_found acc)
                (exports_found acc) (getStaticPaths_found acc)
                (declarations_found acc) in
  match node with
  | ExportNamedDeclaration None _ _ _ => Returns keep
  | ExportNamedDeclaration (Some (VariableDeclaration _ declarations_)) _ _ _ =>
      match first_declarator_name declarations_ with
      | None => Throws (TypeError "Cannot read property 'id' of undefined")
      | Some first_name =>
          match classify_export first_name with
          | SpecialExport =>
              Returns (mkLocals (body_kept acc) (imports_found acc) (props_found acc)
                         (exports_found acc ++ [node])%list
                         (getStaticPaths_found acc) (declarations_found acc))
          | PropExport =>
              Returns (mkLocals (body_kept acc) (imports_found acc)
                         (props_found acc ++ firstn 1 declarations_)%list
                         (exports_found acc)
                         (getStaticPaths_found acc) (declarations_found acc))
          end
      end
  | ExportNamedDeclaration (Some (FunctionDeclaration id _)) _ _ _ =>
      if option_is (match id with Some i => node_name i | None => None end)
                   "getStaticPaths"
      then Returns (mkLocals (body_kept acc) (imports_found acc) (props_found acc)
                      (exports_found acc) (babelGenerator_node env node)
                      (declarations_found acc))
      else Returns keep
  | ExportNamedDeclaration (Some _) _ _ _ =>
      Returns (mkLocals (body_kept acc) (imports_found acc) (props_found acc)
                 (exports_found acc) (getStaticPaths_found acc)
                 (declarations_found acc))
  | FunctionDeclaration id _ =>
      match id with
      | Some i =>
          if Js.truthy (node_name i)
          then Returns (mkLocals (node :: body_kept acc) (imports_found acc)
                          (props_found acc) (exports_found acc)
                          (getStaticPaths_found acc)
                          (declarations_found acc ++ [join_opt (node_name i)])%list)
          else Returns keep
      | None => Returns keep
      end
  | ImportDeclaration _ _ _ _ =>
      Returns (mkLocals (body_kept acc) (imports_found acc ++ [node])%list
                 (props_found acc) (exports_found acc)
                 (getStaticPaths_found acc) (declarations_found acc))
  | VariableDeclaration _ declarations_ =>
      let names :=
        flat_map (fun d =>
                    match d with
                    | VariableDeclarator (Identifier nm) _ => [nm]
                    | _ => []
                    end) declarations_ in
      Returns (mkLocals (node :: body_kept acc) (imports_found acc)
                 (props_found acc) (exports_found acc)
                 (getStaticPaths_found acc)
                 (declarations_found acc ++ names)%list)
  | _ => Returns keep
  end.

(** The whole loop: the body is walked from its last statement. *)
Fixpoint classify_body (body : list BabelNode) : fallible ModuleLocals :=
  match body with
  | [] => Returns (mkLocals [] [] [] [] "" [])
  | node :: rest =>
      fallible_bind (classify_body rest) (classify_statement node)
  end.

(** The specifiers of one import: [state.components] and
    [state.componentImports]. *)
Definition record_specifier (importUrl text_ : string) (specifier : Specifier)
    : M World unit :=
  let componentName := local specifier in
  modify_state (fun s =>
    set_components (map_set componentName (mkComponentInfo specifier importUrl)
                      (components s)) s) ;;
  modify_state (fun s =>
    if map_has componentName (componentImports s) then s
    else set_componentImports (map_set componentName [] (componentImports s)) s) ;;
  modify_state (fun s =>
    match map_get componentName (componentImports s) with
    | Some l => set_componentImports
                  (map_set componentName (l ++ [text_])%list (componentImports s)) s
    | None => s
    end).

(** The body of [for (const componentImport of componentImports)]. *)
Definition record_import (features : N) (content_ : string) (componentImport : BabelNode)
    : M World unit :=
  match componentImport with
  | ImportDeclaration specifiers importUrl start_ end__ =>
      let text_ := slice_range start_ end__ content_ in
      if set_has importUrl (nodeBuiltinsSet env) then
        throw (Error ("Node builtins must be prefixed with 'node:'. Use node:"
                      ++ importUrl ++ " instead."))
      else
        forM_ (record_specifier importUrl text_) specifiers ;;
        if negb (N.eqb (N.land features (FEATURE_CUSTOM_ELEMENT env)) 0)
           && Nat.eqb (List.length specifiers) 0
        then
          let moduleImportName := camelCase env (importUrl ++ "Module") in
          st <- gets state ;;
          importStatements_add
            ("import * as " ++ moduleImportName ++ " from '" ++ importUrl ++ "';" ++ Js.nl) ;;
          modify_state (fun s =>
            set_customElementCandidates
              (map_set moduleImportName (getComponentUrl env importUrl (filename st))
                       (customElementCandidates s)) s)
        else importStatements_add text_
  | _ => ret tt
  end.

Definition record_export (content_ : string) (componentExport : BabelNode)
    : M World unit :=
  match componentExport with
  | ExportNamedDeclaration _ _ start_ end__ =>
      modify_state (fun s =>
        set_exportStatements
          (set_add (slice_range start_ end__ content_) (exportStatements s)) s)
  | _ => ret tt
  end.

(** [componentProps.map((prop) => prop.id?.name).filter((v) => v)] *)
Definition prop_names (props : list BabelNode) : list string :=
  flat_map (fun prop =>
              match prop with
              | VariableDeclarator id _ =>
                  if Js.truthy (node_name id) then [join_opt (node_name id)] else []
              | _ => []
              end) props.

Definition props_warning (props : list string) : string :=
  yellow env
    (Js.nl ++ "Defining props with " ++ Js.quoted "export"
     ++ " has been removed! Please see https://github.com/snowpackjs/astro/blob/main/packages/astro/CHANGELOG.md#0150"
     ++ Js.nl ++ "Please update your code to use:" ++ Js.nl ++ Js.nl
     ++ "const { " ++ Js.join ", " props ++ " } = Astro.props;" ++ Js.nl).

(** The program that [compileModule] hands to the generator, with what
    the loop collected: the traversal, then the loop. *)
Definition prepare_program (content_ : string) : M World ModuleLocals :=
  parseResult <- of_fallible (babelParser_parse env content_) ;;
  st <- gets state ;;
  program <-
    (if test_fetchContent content_ then
       importStatements_add import_fetchContent ;;
       of_fallible (traverse_program (filename st) parseResult)
     else ret parseResult) ;;
  locals <- of_fallible (classify_body program) ;;
  modify_state (fun s =>
    set_declarations
      (fold_left (fun d x => set_add x d) (declarations_found locals) (declarations s)) s) ;;
  ret locals.

(** [compileModule]: the script and [getStaticPaths]. *)
Definition compileModule (features : N) (module : option Script)
    : M World (string * option string) :=
  match module with
  | None => ret ("", None)
  | Some m =>
      let content_ := script_content m in
      locals <- prepare_program content_ ;;
      forM_ (record_import features content_) (imports_found locals) ;;
      forM_ (record_export content_) (exports_found locals) ;;
      when (negb (Nat.eqb (List.length (props_found locals)) 0))
        (st <- gets state ;;
         let shortname := posix_relative env (projectRoot_pathname env) (filename st) in
         log (LogWarn shortname (props_warning (prop_names (props_found locals))))) ;;
      let script := "" ++ babelGenerator env (body_kept locals) in
      transpiledScript <- transpileExpressionSafe env script (script_start m) ;;
      match transpiledScript with
      | None => throw (Error "Unable to compile script")
      | Some script =>
          ret (script,
               if String.eqb (getStaticPaths_found locals) "" then None
               else Some (getStaticPaths_found locals))
      end
  end.

End Frontmatter.

(* ================================================================= *)
(** ** The driver: [compileCss] and [codegen] *)

(** [compileCss]: the walk pushes the styles of every [Style] node it
    meets and skips what is below it. *)
Fixpoint compileCss (style : TemplateNode) : fallible (list string) :=
  let all :=
    fix all (l : list TemplateNode) : fallible (list string) :=
      match l with
      | [] => Returns []
      | n :: r =>
          fallible_bind (compileCss n) (fun c =>
          fallible_bind (all r) (fun cs => Returns (c ++ cs)%list))
      end in
  match type style with
  | Style =>
      match content style with
      | Some styles => Returns [styles]
      | None => Throws (TypeError "Cannot read property 'styles' of undefined")
      end
  | _ =>
      fallible_bind (all (attributes style)) (fun a =>
      fallible_bind (match expression style with
                     | Some e => compileCss e
                     | None => Returns []
                     end) (fun e =>
      fallible_bind (all (children style)) (fun c => Returns (a ++ e ++ c)%list)))
  end.

Record TransformResult : Type := mkResult {
  result_script : string;
  result_imports : list string;
  result_exports : list string;
  result_html : string;
  result_css : option string;
  result_getStaticPaths : option string;
  result_hasCustomElements : bool;
  result_customElementCandidates : list (string * string)
}.

Definition initial_state (filename_ fileID_ : string) : CodegenState :=
  {| components := [];
     css := [];
     filename := filename_;
     fileID := fileID_;
     insideMarkdown := None;
     declarations := [];
     exportStatements := [];
     importStatements := [];
     componentImports := [];
     customElementCandidates := [] |}.

(** [codegen], run on the state it creates. *)
Definition codegen_steps (env : Env) (fuel : nat) (ast : Ast) : M World TransformResult :=
  compiled <- compileModule env (meta_features ast) (ast_module ast) ;;
  let '(script, getStaticPaths) := compiled in
  forM_ (fun style =>
           styles <- of_fallible (compileCss style) ;;
           modify_state (fun s => set_css (css s ++ styles)%list s))
        (ast_css ast) ;;
  html <- compileHtml env fuel (ast_html ast) ;;
  st <- gets state ;;
  ret {| result_script := script;
         result_imports := importStatements st;
         result_exports := exportStatements st;
         result_html := html;
         result_css := match css st with
                       | [] => None
                       | _ => Some (Js.join (Js.nl ++ Js.nl) (css st))
                       end;
         result_getStaticPaths := getStaticPaths;
         result_hasCustomElements :=
           negb (N.eqb (N.land (meta_features ast) (FEATURE_CUSTOM_ELEMENT env)) 0);
         result_customElementCandidates := customElementCandidates st |}.

(** [codegen]: the artifact or the error, and what was sent to the sink. *)
Definition codegen (env : Env) (fuel : nat) (ast : Ast) (filename_ fileID_ : string)
    : outcome TransformResult * list LogEntry :=
  let '(r, g) := codegen_steps env fuel ast (mkWorld (initial_state filename_ fileID_) []) in
  (r, logged g).

(* ================================================================= *)
(** ** A concrete environment for closed examples *)

Definition is_upper (c : ascii) : bool :=
  let n := nat_of_ascii c in (65 <=? n)%nat && (n <=? 90)%nat.

Fixpoint no_upper (s : string) : bool :=
  match s with
  | EmptyString => true
  | String a r => negb (is_upper a) && no_upper r
  end.

(** Modelled from the spec: [isCustomElementTag] of [../utils.js] is not
    among the sources; the glossary calls a custom element "a lowercase tag
    name containing a hyphen". *)
Definition spec_isCustomElementTag (tag : string) : bool :=
  no_upper tag && Js.includes_char "-" tag.

(** Modelled from the spec: [isComponentTag] of [../utils.js] is not among
    the sources; a component tag is a capitalized name (data model,
    invariant 2) or a custom-element tag (component resolver). *)
Definition spec_isComponentTag (tag : string) : bool :=
  match tag with
  | String a _ => is_upper a || spec_isCustomElementTag tag
  | EmptyString => false
  end.

(** A stand-in for esbuild: input with an [@] is a syntax error, anything
    else comes back as a statement. *)
Definition sample_transformSync (raw_ : string) : string + EsbuildMessage :=
  if Js.includes_char "@" raw_
  then inr (mkMessage "Unexpected @" 0 0 1)
  else inl (raw_ ++ ";" ++ Js.nl).

Definition sample_env_parsing (program : list BabelNode) : Env :=
  {| isComponentTag := spec_isComponentTag;
     isCustomElementTag := spec_isCustomElementTag;
     positionAt := fun _ _ => (0, 0);
     warnIfRelativeStringLiteral := fun _ _ _ => [];
     PRISM_IMPORT := "import Prism from 'astro/components/Prism.astro';";
     transformSync := sample_transformSync;
     readFileSync := fun _ => "";
     codeFrameColumns := fun _ _ _ => "";
     yellow := fun s => s;
     renderMarkdown := fun md _ => Returns md;
     parse := fun html => Returns (mkElement Fragment "" [] [mkText html]);
     transform := fun ast => Returns ast;
     extname := fun _ => ".jsx";
     posix_relative := fun _ to => to;
     resolveHref := fun url_ _ => "file:///project/src/pages/" ++ Js.slice_from 2 url_;
     pages_path := "/project/src/pages/";
     projectRoot_pathname := "/project/";
     projectRoot_href := "file:///project/src/pages/";
     babelParser_parse := fun _ => Returns program;
     babelGenerator := fun _ => "";
     babelGenerator_node := fun _ => "";
     nodeBuiltinsSet := ["fs"; "path"; "url"];
     camelCase := fun s => s;
     FEATURE_CUSTOM_ELEMENT := 1%N |}.

Definition sample_env : Env := sample_env_parsing [].

Definition sample_filename : string := "/project/src/pages/index.astro".

Definition empty_world : World := mkWorld (initial_state sample_filename sample_filename) [].

(* ================================================================= *)
(** ** Notions used to state the properties *)

(** What [findHydrationAttributes] returns for a directive entry. *)
Definition hydration_of_entry (kv : string * string) : HydrationAttributes :=
  {| method := Some (Js.slice_from 7 (fst kv));
     value := if String.eqb (snd kv) "true" then None else Some (snd kv) |}.

Definition is_directive_entry (kv : string * string) : bool :=
  hydrationDirectives_has (fst kv).

(** The text that one attribute that is not a directive adds to the props
    object: the two last branches of the loop of [generateAttributes]. *)
Definition props_entry (kv : string * string) : string :=
  if Js.startsWith (fst kv) "..." then fst kv ++ ","
  else Js.JSON_stringify (fst kv) ++ ":" ++ snd kv ++ ",".

(** The texts of a list, one after the other. *)
Definition concat_all (l : list string) : string := fold_right append "" l.

(** ['('] minus [')']: how many parentheses a text leaves open. *)
Definition delta (s : string) : Z := (Js.count "(" s - Js.count ")" s)%Z.

(** As many ['('] as [')']. *)
Definition balanced (s : string) : Prop := Js.count "(" s = Js.count ")" s.

(** The [html] of an artifact, when there is one. *)
Definition result_html_of (r : outcome TransformResult * list LogEntry) : option string :=
  match fst r with
  | Ok a => Some (result_html a)
  | _ => None
  end.

(** *** Documents of the examples *)

Definition document_of (html : TemplateNode) : Ast :=
  {| ast_module := None; ast_css := []; ast_html := html; meta_features := 0 |}.

(** [<h1>Hi</h1>] *)
Definition h1_element : TemplateNode := mkElement Element "h1" [] [mkText "Hi"].

(** [<Foo />], which nothing defines. *)
Definition undefined_component : TemplateNode := mkElement InlineComponent "Foo" [] [].

(** [<div><Foo /></div>] *)
Definition div_around_undefined : TemplateNode :=
  mkElement Element "div" [] [undefined_component].

(** [<div>{@}</div>]: an expression that does not transpile. *)
Definition div_with_bad_expression : TemplateNode :=
  mkElement Element "div" [] [mkExpression ["@"] []].

(** [<div a={@}>x</div>]: the same expression as an attribute value. *)
Definition div_with_bad_attribute : TemplateNode :=
  mkElement Element "div"
    [mkAttribute "a" (ValueList [mkMustache (mkExpression ["@"] [])])]
    [mkText "x"].

(** Frontmatter [import * as Ns from './c.jsx';], template
    [<Ns.X client:only />]. *)
Definition namespace_import : list BabelNode :=
  [ImportDeclaration [mkSpecifier ImportNamespaceSpecifier "Ns" ""] "./c.jsx" 0 30].

Definition namespace_only_document : Ast :=
  {| ast_module := Some (mkScript "import * as Ns from './c.jsx';" 0 30);
     ast_css := [];
     ast_html := mkElement InlineComponent "Ns.X" [mkAttribute "client:only" ValueTrue] [];
     meta_features := 0 |}.

(** Frontmatter [import X from './X.jsx';], template [<X client:only />]. *)
Definition default_import : list BabelNode :=
  [ImportDeclaration [mkSpecifier ImportDefaultSpecifier "X" ""] "./X.jsx" 0 23].

Definition default_only_document : Ast :=
  {| ast_module := Some (mkScript "import X from './X.jsx';" 0 23);
     ast_css := [];
     ast_html := mkElement InlineComponent "X" [mkAttribute "client:only" ValueTrue] [];
     meta_features := 0 |}.

(** Frontmatter [import { Markdown } from 'astro/components';], template
    [<tag># Hi</tag>]. *)
Definition markdown_import : list BabelNode :=
  [ImportDeclaration [mkSpecifier ImportSpecifier "Markdown" "Markdown"]
     "astro/components" 0 44].

Definition markdown_document (tag : string) : Ast :=
  {| ast_module := Some (mkScript "import { Markdown } from 'astro/components';" 0 44);
     ast_css := [];
     ast_html := mkElement InlineComponent tag [] [mkText "# Hi"];
     meta_features := 0 |}.

(** The marker at the end of a run of [codegen]. *)
Definition final_insideMarkdown (env : Env) (fuel : nat) (ast : Ast)
    : option (option MarkdownMarker) :=
  match codegen_steps env fuel ast empty_world with
  | (Ok _, g) => Some (insideMarkdown (state g))
  | _ => None
  end.

Definition is_LogError (e : LogEntry) : bool :=
  match e with
  | LogError _ _ => true
  | _ => false
  end.

(** *** Measures and invariants *)

(** The number of nodes below a node, itself included. *)
Fixpoint node_size (n : TemplateNode) : nat :=
  S (list_sum (map node_size (attributes n))
     + list_sum (map node_size (children n))
     + match expression n with Some e => node_size e | None => 0 end
     + match attr_value n with
       | ValueList l => list_sum (map node_size l)
       | _ => 0
       end).

(** [markers.insideMarkdown] is [false] or has a count of at least one. *)
Definition marker_ok (g : World) : Prop :=
  match insideMarkdown (state g) with
  | Some m => (1 <= count m)%Z
  | None => True
  end.

(** The sink only grows. *)
Definition log_extends (g g' : World) : Prop :=
  exists l, logged g' = (logged g ++ l)%list.

(** What code does to the world, whatever its outcome. *)
Definition respects {A : Type} (R : World -> World -> Prop) (m : M World A) : Prop :=
  forall g, R g (snd (m g)).

Definition respects_walk {A : Type} (R : World -> World -> Prop) (m : M Walk A) : Prop :=
  forall w, R (world w) (world (snd (m w))).

(** *** Documents of literal markup

    The documents for which the balance of parentheses is proved: no
    [<Markdown>], no hydration, no [Style], no expression in an attribute,
    and literals that have as many ['('] as [')']. *)

Definition text_of (n : TemplateNode) : option string :=
  match raw n with
  | Some r => Some r
  | None => data n
  end.

Definition zero_delta (s : string) : bool := Z.eqb (delta s) 0.

Definition opt_zero_delta (o : option string) : bool :=
  match o with
  | Some s => zero_delta s
  | None => true
  end.

Definition is_none {A : Type} (o : option A) : bool :=
  match o with
  | Some _ => false
  | None => true
  end.

(** A segment of an attribute value made of several segments. *)
Definition plain_segment (v : TemplateNode) : bool :=
  if Js.truthy (content v) then opt_zero_delta (content v)
  else match type v with
       | Text => opt_zero_delta (text_of v)
       | MustacheTag =>
           match expression v with
           | Some e => opt_zero_delta (hd_error (codeChunks e))
           | None => true
           end
       | _ => true
       end.

(** An attribute whose value is [true], empty, a text, a shorthand or
    several segments; a [slot] attribute has a value. *)
Definition plain_attribute (a : TemplateNode) : bool :=
  match type a with Attribute => true | _ => false end
  && zero_delta (name a)
  && negb (hydrationDirectives_has (name a))
  && match attr_value a with
     | ValueTrue => true
     | ValueFalse | ValueUndefined => negb (String.eqb (name a) "slot")
     | ValueList [] => true
     | ValueList [v] =>
         match type v with
         | MustacheTag => false
         | Text => opt_zero_delta (text_of v)
         | _ => true
         end
     | ValueList l => forallb plain_segment l
     end.

(** The walker skips it. *)
Definition inert_attribute (a : TemplateNode) : bool :=
  match type a with
  | Attribute | Spread => true
  | _ => false
  end.

Fixpoint plain (n : TemplateNode) : bool :=
  match type n with
  | Fragment | Comment =>
      forallb inert_attribute (attributes n) && is_none (expression n)
      && forallb plain (children n)
  | SlotTemplate =>
      forallb inert_attribute (attributes n) && negb (has_slot_attribute n)
      && is_none (expression n) && forallb plain (children n)
  | Element | Title | Head | InlineComponent =>
      zero_delta (name n)
      && negb (Js.includes_char ":" (name n))
      && negb (String.eqb (name n) "Markdown")
      && forallb plain_attribute (attributes n) && is_none (expression n)
      && forallb plain (children n)
  | Slot =>
      forallb plain_attribute (attributes n) && negb (has_slot_attribute n)
      && is_none (expression n) && forallb plain (children n)
  | Text =>
      opt_zero_delta (text_of n)
      && forallb inert_attribute (attributes n) && is_none (expression n)
      && forallb plain (children n)
  | CodeSpan | CodeFence =>
      opt_zero_delta (data n)
      && forallb inert_attribute (attributes n) && is_none (expression n)
      && forallb plain (children n)
  | Expression =>
      zero_delta (concat_all (codeChunks n)) && forallb plain (children n)
  | _ => false
  end.

Definition element_like (t : NodeType) : bool :=
  match t with
  | Element | Title | Head | InlineComponent => true
  | _ => false
  end.

(** How many parentheses the [enter] of a node of literal markup leaves
    open in [buffers.out], and by how much it raises [paren]. *)
Definition opened_delta (n : TemplateNode) : Z :=
  match type n with
  | Fragment | SlotTemplate | Slot => 1
  | Element | Title | Head | InlineComponent =>
      if has_slot_attribute n then 2 else 1
  | _ => 0
  end.

Definition opened_paren (n : TemplateNode) : Z :=
  match type n with
  | Fragment => 0
  | _ => opened_delta n
  end.

(** No error was recovered: nothing went to the sink through [error]. *)
Definition no_errors (l : list LogEntry) : Prop :=
  Forall (fun e => is_LogError e = false) l.

(** The transpiler keeps the balance of what it is given. *)
Definition transpiler_keeps_balance (env : Env) : Prop :=
  forall raw_ code,
    transformSync env raw_ = inl code -> delta raw_ = 0%Z -> delta code = 0%Z.

(** The entries of a props object have balanced keys and values and no
    hydration directive among the keys. *)
Definition plain_object (o : Js.Object) : Prop :=
  Forall (fun kv => delta (fst kv) = 0%Z /\ delta (snd kv) = 0%Z
                    /\ hydrationDirectives_has (fst kv) = false) o.

(** The walk is in the ordinary buffer and outside of any Markdown. *)
Definition walk_ok (w : Walk) : Prop :=
  curr w = BufferOut /\ insideMarkdown (state (world w)) = None.

(** From [w] to [w'], [paren] moved by [dp] and the open parentheses of
    [buffers.out] by [dd]; the walk is still in the ordinary buffer. *)
Definition moved (dp dd : Z) (w w' : Walk) : Prop :=
  walk_ok w'
  /\ paren w' = (paren w + dp)%Z
  /\ delta (buffers_out w') = (delta (buffers_out w) + dd)%Z.

(** The invariant of the marker, as a relation between two worlds. *)
Definition keeps_marker_ok (g g' : World) : Prop := marker_ok g -> marker_ok g'.

(** The walk of a node of literal markup of size at most [n], when it
    returns and no error was recovered, leaves [paren] and the open
    parentheses of [buffers.out] as they were. *)
Definition visit_keeps_balance (env : Env)
    (compileHtml_flush : TemplateNode -> M World string) (n : nat) : Prop :=
  forall node, (node_size node <= n)%nat -> plain node = true ->
  forall parent w w',
    visit env compileHtml_flush node parent w = (Ok tt, w') ->
    walk_ok w -> (-1 <= paren w)%Z ->
    no_errors (logged (world w')) ->
    moved 0 0 w w'.

(** The marker is what it was. *)
Definition same_marker (g g' : World) : Prop :=
  insideMarkdown (state g') = insideMarkdown (state g).

(** [<div class="a" slot="s"><p>Hi (there)</p>{x}<my-el /></div>] in a
    fragment. *)
Definition literal_document : Ast :=
  document_of
    (mkElement Fragment "" []
       [mkElement Element "div"
          [mkAttribute "class" (ValueList [mkText "a"]);
           mkAttribute "slot" (ValueList [mkText "s"])]
          [mkElement Element "p" [] [mkText "Hi (there)"];
           mkExpression ["x"] [];
           mkElement Element "my-el" [] []]]).

(** *** The frontmatter *)

Definition option_list {A : Type} (o : option A) : list A :=
  match o with
  | Some a => [a]
  | None => []
  end.

(** The child nodes that the traversal visits, in its order. *)
Definition babel_children (n : BabelNode) : list BabelNode :=
  match n with
  | Identifier _ | StringLiteral _ | ImportDeclaration _ _ _ _ => []
  | MemberExpression object property _ => [object; property]
  | CallExpression callee arguments => callee :: arguments
  | MetaProperty meta property => [meta; property]
  | VariableDeclarator id init => id :: option_list init
  | VariableDeclaration _ declarations_ => declarations_
  | FunctionDeclaration id rest => (option_list id ++ rest)%list
  | ExportNamedDeclaration declaration specifiers _ _ =>
      (option_list declaration ++ specifiers)%list
  | OtherNode _ _ children_ => children_
  end.

(** [n] is [root] or a node below it. *)
Inductive occurs (n : BabelNode) : BabelNode -> Prop :=
| occurs_here : occurs n n
| occurs_below (c root : BabelNode) :
    In c (babel_children root) -> occurs n c -> occurs n root.

(** A call [Astro.fetchContent(...)]. *)
Definition is_fetchContent_call (n : BabelNode) : bool :=
  match n with
  | CallExpression callee _ => is_fetchContent_callee callee
  | _ => false
  end.

Definition call_arguments (n : BabelNode) : list BabelNode :=
  match n with
  | CallExpression _ arguments => arguments
  | _ => []
  end.

Definition is_string_literal (n : BabelNode) : bool :=
  match n with
  | StringLiteral _ => true
  | _ => false
  end.

(** The first argument is a string literal. *)
Definition first_argument_is_literal (n : BabelNode) : bool :=
  match call_arguments n with
  | a :: _ => is_string_literal a
  | [] => false
  end.

(** The statements that the loop of [compileModule] leaves in
    [program.body]: every case of the loop without a [splice]. *)
Definition stays_in_script (node : BabelNode) : bool :=
  match node with
  | ExportNamedDeclaration None _ _ _ => true
  | ExportNamedDeclaration (Some (FunctionDeclaration id _)) _ _ _ =>
      negb (option_is (match id with Some i => node_name i | None => None end)
                      "getStaticPaths")
  | ExportNamedDeclaration (Some _) _ _ _ => false
  | ImportDeclaration _ _ _ _ => false
  | _ => true
  end.

(** No import statement of [w] is missing in [w']. *)
Definition imports_grow (w w' : World) : Prop :=
  incl (importStatements (state w)) (importStatements (state w')).

(** [const posts = Astro.fetchContent('./*.md');] *)
Definition fetchContent_source : string := "const posts = Astro.fetchContent('./*.md');".

(** [const posts = Astro.fetchContent(glob);] *)
Definition fetchContent_glob_source : string := "const posts = Astro.fetchContent(glob);".

(** The same statement with a comment before the dot. *)
Definition commented_fetchContent_source : string :=
  "const posts = Astro/**/.fetchContent(glob);".

Definition fetchContent_call (arguments : list BabelNode) : BabelNode :=
  CallExpression (MemberExpression (Identifier "Astro") (Identifier "fetchContent") false)
                 arguments.

Definition fetchContent_statement (arguments : list BabelNode) : BabelNode :=
  VariableDeclaration "const"
    [VariableDeclarator (Identifier "posts") (Some (fetchContent_call arguments))].

(** A named export of a variable declaration: [export <kind> <declarators>]. *)
Definition variable_export (kind : string) (declarators specifiers : list BabelNode)
    (start_ end__ : nat) : BabelNode :=
  ExportNamedDeclaration (Some (VariableDeclaration kind declarators))
    specifiers start_ end__.

(** [export let <first> = a, <second> = b;] *)
Definition export_let (first second : string) : BabelNode :=
  variable_export "let"
    [VariableDeclarator (Identifier first) (Some (Identifier "a"));
     VariableDeclarator (Identifier second) (Some (Identifier "b"))]
    [] 0 0.

(** The program that the loop of [compileModule] runs over: the parse,
    and the traversal when the text of the frontmatter passes the test. *)
Definition program_of (env : Env) (filename_ content_ : string)
    : fallible (list BabelNode) :=
  fallible_bind (babelParser_parse env content_) (fun parsed =>
    if test_fetchContent content_ then traverse_program filename_ parsed
    else Returns parsed).

(* ================================================================= *)
(** ** More notions, for the properties of the single functions *)

(** The code units [a], [b] next to each other somewhere in [s]. *)
Fixpoint has_pair (a b : ascii) (s : string) : bool :=
  match s with
  | EmptyString => false
  | String x r =>
      match r with
      | String y _ => (Ascii.eqb x a && Ascii.eqb y b) || has_pair a b r
      | EmptyString => false
      end
  end.

(** [s] without the code units that [drop] selects. *)
Fixpoint without (drop : ascii -> bool) (s : string) : string :=
  match s with
  | EmptyString => EmptyString
  | String a r => if drop a then without drop r else String a (without drop r)
  end.

(** The five values of [HydrationAttributes['method']]. *)
Definition hydration_methods : list string := ["load"; "idle"; "visible"; "media"; "only"].

(** *** What the loop of [compileModule] takes from one statement *)

Definition is_import (n : BabelNode) : bool :=
  match n with
  | ImportDeclaration _ _ _ _ => true
  | _ => false
  end.

(** [componentExports.push(node)] *)
Definition special_export_of (n : BabelNode) : list BabelNode :=
  match n with
  | ExportNamedDeclaration (Some (VariableDeclaration _ declarations_)) _ _ _ =>
      match first_declarator_name declarations_ with
      | Some first_name =>
          match classify_export first_name with
          | SpecialExport => [n]
          | PropExport => []
          end
      | None => []
      end
  | _ => []
  end.

(** [componentProps.push(declaration)] *)
Definition prop_of (n : BabelNode) : list BabelNode :=
  match n with
  | ExportNamedDeclaration (Some (VariableDeclaration _ declarations_)) _ _ _ =>
      match first_declarator_name declarations_ with
      | Some first_name =>
          match classify_export first_name with
          | SpecialExport => []
          | PropExport => firstn 1 declarations_
          end
      | None => []
      end
  | _ => []
  end.

(** [export function getStaticPaths ...] *)
Definition is_getStaticPaths_export (n : BabelNode) : bool :=
  match n with
  | ExportNamedDeclaration (Some (FunctionDeclaration id _)) _ _ _ =>
      option_is (match id with Some i => node_name i | None => None end) "getStaticPaths"
  | _ => false
  end.

(** The names that a statement adds to [state.declarations]. *)
Definition declared_names (n : BabelNode) : list string :=
  match n with
  | FunctionDeclaration (Some i) _ =>
      if Js.truthy (node_name i) then [join_opt (node_name i)] else []
  | VariableDeclaration _ declarations_ =>
      flat_map (fun d =>
                  match d with
                  | VariableDeclarator (Identifier nm) _ => [nm]
                  | _ => []
                  end) declarations_
  | _ => []
  end.

(** The message of the error for an import of a Node builtin. *)
Definition builtin_message (importUrl : string) : string :=
  "Node builtins must be prefixed with 'node:'. Use node:" ++ importUrl ++ " instead.".

Definition import_source (n : BabelNode) : option string :=
  match n with
  | ImportDeclaration _ source _ _ => Some source
  | _ => None
  end.

(** What [compileModule] leaves alone or only adds to, once the loop over
    the body is over: the declarations are the same and no key of the two
    component maps is lost. *)
Definition records_grow (w w' : World) : Prop :=
  declarations (state w') = declarations (state w)
  /\ (forall k, map_has k (components (state w)) = true ->
                map_has k (components (state w')) = true)
  /\ (forall k, map_has k (componentImports (state w)) = true ->
                map_has k (componentImports (state w')) = true).

(** [import fs from 'fs';] *)
Definition builtin_import : BabelNode :=
  ImportDeclaration [mkSpecifier ImportDefaultSpecifier "fs" ""] "fs" 0 20.

(** [const Title = 'h1';], [function Box() {}] and
    [export function getStaticPaths() {}] *)
Definition declaring_program : list BabelNode :=
  [VariableDeclaration "const"
     [VariableDeclarator (Identifier "Title") (Some (StringLiteral "h1"))];
   FunctionDeclaration (Some (Identifier "Box")) [];
   ExportNamedDeclaration
     (Some (FunctionDeclaration (Some (Identifier "getStaticPaths")) [])) [] 0 0].

(** An entry of the attribute map that [getAttributes] made from the
    attribute list [attrs]: the name of one of them with a value that is
    not empty, or the key of a spread, [...(code)], with the empty
    value. *)
Definition attribute_entry (attrs : list TemplateNode) (kv : string * string) : Prop :=
  (snd kv <> "" /\ exists a, In a attrs /\ fst kv = name a)
  \/ (snd kv = "" /\ Js.startsWith (fst kv) "...(" = true).

(** Code that writes nothing to the sink and leaves the file name alone. *)
Definition quiet (w w' : World) : Prop :=
  logged w' = logged w /\ filename (state w') = filename (state w).

(** The world after [import X from './c.jsx';]. *)
Definition imported_X : ComponentInfo :=
  mkComponentInfo (mkSpecifier ImportDefaultSpecifier "X" "") "./c.jsx".

Definition world_with_X : World :=
  mkWorld (set_components [("X", imported_X)]
             (initial_state sample_filename sample_filename)) [].

(* ================================================================= *)
(** * Properties *)

Unset Implicit Arguments.

(** ** Strings *)

Lemma append_nil_r (s : string) : s ++ "" = s.
Proof. induction s as [|a s IH]; simpl; [reflexivity | now rewrite IH]. Qed.

Lemma append_assoc (a b c : string) : (a ++ b) ++ c = a ++ (b ++ c).
Proof. induction a as [|x a IH]; simpl; [reflexivity | now rewrite IH]. Qed.

Lemma count_append (c : ascii) (a b : string) :
  Js.count c (a ++ b) = (Js.count c a + Js.count c b)%Z.
Proof. induction a as [|x a IH]; simpl; [reflexivity | rewrite IH; lia]. Qed.

Lemma delta_append (a b : string) : delta (a ++ b) = (delta a + delta b)%Z.
Proof. unfold delta. rewrite !count_append. lia. Qed.

(** ** Hydration directives (C4) *)

Lemma findHydrationAttributes_snoc (attrs : Js.Object) (kv : string * string) :
  findHydrationAttributes (attrs ++ [kv])%list =
    if is_directive_entry kv then hydration_of_entry kv
    else findHydrationAttributes attrs.
Proof.
  unfold findHydrationAttributes. rewrite fold_left_app. simpl.
  destruct kv as [key val]. unfold is_directive_entry, hydration_of_entry. simpl.
  destruct (hydrationDirectives_has key); reflexivity.
Qed.

Lemma findHydrationAttributes_find_rev (attrs : Js.Object) :
  findHydrationAttributes attrs =
    match find is_directive_entry (rev attrs) with
    | Some kv => hydration_of_entry kv
    | None => {| method := None; value := None |}
    end.
Proof.
  induction attrs as [|kv attrs IH] using rev_ind.
  - reflexivity.
  - rewrite findHydrationAttributes_snoc, rev_app_distr. simpl.
    destruct (is_directive_entry kv); [reflexivity | exact IH].
Qed.

(** C4, as amended: the classifier returns what the LAST directive key of
    the map gives (the loop never breaks): the method is the key without
    its [client:] prefix, the value is [undefined] when the raw value is
    ["true"] and the raw value otherwise; without any directive both are
    [undefined]. *)
Theorem findHydrationAttributes_last_directive (attrs : Js.Object) :
  (forall before kv after,
     attrs = (before ++ kv :: after)%list ->
     is_directive_entry kv = true ->
     forallb (fun x => negb (is_directive_entry x)) after = true ->
     findHydrationAttributes attrs = hydration_of_entry kv)
  /\ (forallb (fun x => negb (is_directive_entry x)) attrs = true ->
      findHydrationAttributes attrs = {| method := None; value := None |})
  /\ findHydrationAttributes attrs =
       match find is_directive_entry (rev attrs) with
       | Some kv => hydration_of_entry kv
       | None => {| method := None; value := None |}
       end.
Proof.
  assert (Hskip : forall l1 l2,
            forallb (fun x => negb (is_directive_entry x)) l1 = true ->
            find is_directive_entry (rev l1 ++ l2)%list = find is_directive_entry l2).
  { intros l1 l2 Hl. rewrite forallb_forall in Hl.
    assert (Hr : forall x, In x (rev l1) -> is_directive_entry x = false).
    { intros x Hx. apply in_rev in Hx. specialize (Hl x Hx).
      now destruct (is_directive_entry x). }
    induction (rev l1) as [|x l IH]; [reflexivity|]. simpl.
    rewrite (Hr x (or_introl eq_refl)). apply IH. intros y Hy. apply Hr. now right. }
  split; [|split].
  - intros before kv after -> Hkv Hafter.
    rewrite findHydrationAttributes_find_rev, rev_app_distr. simpl.
    rewrite <- app_assoc. simpl. rewrite (Hskip after _ Hafter). simpl.
    now rewrite Hkv.
  - intros Hall. rewrite findHydrationAttributes_find_rev.
    rewrite <- (app_nil_r (rev attrs)). now rewrite (Hskip attrs [] Hall).
  - apply findHydrationAttributes_find_rev.
Qed.

Lemma findHydrationAttributes_last_directive_witness :
  findHydrationAttributes [("client:load", "true"); ("client:idle", "x"); ("id", "a")]
  = {| method := Some "idle"; value := Some "x" |}.
Proof.
  exact (proj1 (findHydrationAttributes_last_directive
                  [("client:load", "true"); ("client:idle", "x"); ("id", "a")])
               [("client:load", "true")] ("client:idle", "x") [("id", "a")]
               eq_refl eq_refl eq_refl).
Defined.

(** C4, as stated, fails: with [client:load] before [client:idle] the
    classifier answers for [client:idle]. *)
Lemma findHydrationAttributes_not_first_directive :
  ~ (forall attrs kv,
       find is_directive_entry attrs = Some kv ->
       findHydrationAttributes attrs = hydration_of_entry kv).
Proof.
  intros H.
  specialize (H [("client:load", "true"); ("client:idle", "x")] ("client:load", "true") eq_refl).
  vm_compute in H. discriminate H.
Qed.

(** ** Generated props (C9) *)

Lemma generateAttributes_fold (attrs : Js.Object) (acc : string) :
  fold_left generateAttributes_step attrs acc =
    acc ++ concat_all (map props_entry
                         (filter (fun kv => negb (is_directive_entry kv)) attrs)).
Proof.
  revert acc. induction attrs as [|[key val] attrs IH]; intros acc; simpl.
  - now rewrite append_nil_r.
  - rewrite IH. unfold is_directive_entry at 2. unfold generateAttributes_step. simpl.
    destruct (hydrationDirectives_has key); simpl; [reflexivity|].
    unfold props_entry at 2; simpl fst; simpl snd.
    destruct (Js.startsWith key "...");
      unfold Js.JSON_stringify, Js.quoted, Js.dq; simpl;
      repeat (rewrite append_assoc; simpl); reflexivity.
Qed.

Lemma generateAttributes_kept (attrs : Js.Object) :
  generateAttributes attrs =
    "{" ++ concat_all (map props_entry
                         (filter (fun kv => negb (is_directive_entry kv)) attrs))
    ++ astroContextEntry ++ "}".
Proof.
  unfold generateAttributes. rewrite generateAttributes_fold.
  now rewrite !append_assoc.
Qed.



(** ** What the code does on small documents *)


(** The same without any error: the text [(] is one more open
    parenthesis in the [html]. *)
Lemma html_unbalanced_by_text :
  exists artifact,
    codegen sample_env 1 (document_of (mkElement Element "p" [] [mkText "("]))
            sample_filename sample_filename = (Ok artifact, [])
    /\ delta (result_html artifact) = 1%Z.
Proof. eexists. split; vm_compute; reflexivity. Qed.



(** The same expression as an attribute value: the error is caught by the
    element, and the text that follows is still emitted. *)
Lemma failed_attribute_expression_is_recovered :
  exists artifact,
    codegen sample_env 1 (document_of div_with_bad_attribute)
            sample_filename sample_filename
    = (Ok artifact,
       [LogParseError sample_filename 0 1 "" "Unexpected @";
        LogError "src/pages/index.astro" "Error: Unable to compile expression"])
    /\ result_html artifact = Js.quoted "x" ++ ")".
Proof. eexists. split; vm_compute; reflexivity. Qed.

(** C5 on the failing input: a namespace import rendered as
    [<Ns.X client:only />] is replaced by [Fragment] in the wrapper, but
    its raw import stays in [imports]: the removal looks up ["Ns.X"], and
    the import was recorded under ["Ns"]. *)
Lemma client_only_keeps_namespace_import :
  exists artifact,
    codegen (sample_env_parsing namespace_import) 1 namespace_only_document
            sample_filename sample_filename = (Ok artifact, [])
    /\ result_imports artifact
       = ["import * as Ns from './c.jsx';"; import_astro_component]
    /\ Js.startsWith (result_html artifact) "h(__astro_component(Fragment, " = true.
Proof.
  eexists. split; [vm_compute; reflexivity|].
  split; vm_compute; reflexivity.
Qed.

(** The sibling case: a default import rendered as [<X client:only />]
    loses its raw import. *)
Lemma client_only_removes_default_import :
  exists artifact,
    codegen (sample_env_parsing default_import) 1 default_only_document
            sample_filename sample_filename = (Ok artifact, [])
    /\ result_imports artifact = [import_astro_component]
    /\ Js.startsWith (result_html artifact) "h(__astro_component(Fragment, " = true.
Proof.
  eexists. split; [vm_compute; reflexivity|].
  split; vm_compute; reflexivity.
Qed.

(** C8 on the failing input: [<Markdown:load># Hi</Markdown:load>] enters
    the Markdown region under the name before the colon and, on leave,
    compares the whole name with ["Markdown"]: the counter is still 1 when
    the compile completes.  [<Markdown># Hi</Markdown>] ends with
    [false]. *)
Lemma legacy_markdown_name_leaves_marker :
  final_insideMarkdown (sample_env_parsing markdown_import) 2
    (markdown_document "Markdown:load") = Some (Some (mkMarker None 1))
  /\ final_insideMarkdown (sample_env_parsing markdown_import) 2
       (markdown_document "Markdown") = Some None.
Proof. split; vm_compute; reflexivity. Qed.

(* ================================================================= *)
(** ** What every step of a compile does to the shared world

    A relation between the world before and after that is a preorder, that
    holds across a write to the sink and across the updates the code makes
    to the state, holds across every hook, every walk and [compileHtml]
    itself, whatever the outcome. *)

Lemma node_size_in (x : TemplateNode) (l : list TemplateNode) :
  In x l -> (node_size x <= list_sum (map node_size l))%nat.
Proof.
  induction l as [|y l IH]; simpl; [tauto|].
  intros [-> | H]; [lia | specialize (IH H); lia].
Qed.

Lemma node_size_unfold (n : TemplateNode) :
  node_size n =
    S (list_sum (map node_size (attributes n))
       + list_sum (map node_size (children n))
       + match expression n with Some e => node_size e | None => 0 end
       + match attr_value n with
         | ValueList l => list_sum (map node_size l)
         | _ => 0
         end).
Proof. destruct n; reflexivity. Qed.

Lemma node_size_child (n c : TemplateNode) :
  In c (children n) -> (node_size c < node_size n)%nat.
Proof. intros H. apply node_size_in in H. rewrite (node_size_unfold n). lia. Qed.

Lemma node_size_attribute (n a : TemplateNode) :
  In a (attributes n) -> (node_size a < node_size n)%nat.
Proof. intros H. apply node_size_in in H. rewrite (node_size_unfold n). lia. Qed.

Lemma node_size_expression (n e : TemplateNode) :
  expression n = Some e -> (node_size e < node_size n)%nat.
Proof. intros H. rewrite (node_size_unfold n), H. lia. Qed.

Lemma node_size_value (n v : TemplateNode) (l : list TemplateNode) :
  attr_value n = ValueList l -> In v l -> (node_size v < node_size n)%nat.
Proof.
  intros H Hin. apply node_size_in in Hin. rewrite (node_size_unfold n), H. lia.
Qed.

Section Respects.

Variable R : World -> World -> Prop.

Hypothesis R_refl : forall g, R g g.
Hypothesis R_trans : forall g1 g2 g3, R g1 g2 -> R g2 g3 -> R g1 g3.

(** A write to the sink. *)
Hypothesis R_log : forall g e, R g (mkWorld (state g) (logged g ++ [e])).

(** An update of the state that leaves the marker alone. *)
Hypothesis R_state :
  forall g st,
    insideMarkdown st = insideMarkdown (state g) ->
    R g (mkWorld st (logged g)).

(** Entering a [<Markdown>]. *)
Hypothesis R_enter :
  forall g scope_,
    R g (mkWorld
           (set_insideMarkdown
              (match insideMarkdown (state g) with
               | Some m => Some (mkMarker scope_ (count m + 1))
               | None => Some (mkMarker scope_ 1)
               end) (state g))
           (logged g)).

(** Leaving it. *)
Hypothesis R_leave :
  forall g m,
    insideMarkdown (state g) = Some m ->
    R g (mkWorld
           (set_insideMarkdown
              (if (count m - 1 <=? 0)%Z then None
               else Some (mkMarker (scope m) (count m - 1))) (state g))
           (logged g)).

(** The marker of a flush is its own. *)
Hypothesis R_fresh :
  forall g g',
    R (mkWorld (set_insideMarkdown None (state g)) (logged g)) g' ->
    R g (mkWorld (set_insideMarkdown (insideMarkdown (state g)) (state g')) (logged g')).

Lemma respects_ret {A : Type} (a : A) : respects R (ret a).
Proof. intros g. apply R_refl. Qed.

Lemma respects_throw {A : Type} (e : JsError) : respects R (@throw World A e).
Proof. intros g. apply R_refl. Qed.

Lemma respects_gets {A : Type} (f : World -> A) : respects R (gets f).
Proof. intros g. apply R_refl. Qed.

Lemma respects_bind {A B : Type} (m : M World A) (k : A -> M World B) :
  respects R m -> (forall a, respects R (k a)) -> respects R (bind m k).
Proof.
  intros Hm Hk g. unfold bind. specialize (Hm g).
  destruct (m g) as [[a | e |] g1]; simpl in *; try exact Hm.
  eapply R_trans; [exact Hm | apply Hk].
Qed.

Lemma respects_try_catch {A : Type} (m : M World A) (h : JsError -> M World A) :
  respects R m -> (forall e, respects R (h e)) -> respects R (try_catch m h).
Proof.
  intros Hm Hh g. unfold try_catch. specialize (Hm g).
  destruct (m g) as [[a | e |] g1]; simpl in *; try exact Hm.
  eapply R_trans; [exact Hm | apply Hh].
Qed.

Lemma respects_when (b : bool) (m : M World unit) :
  respects R m -> respects R (when b m).
Proof. intros H. destruct b; [exact H | apply respects_ret]. Qed.

Lemma respects_of_fallible {A : Type} (r : fallible A) :
  respects R (of_fallible r).
Proof. destruct r; [apply respects_ret | apply respects_throw]. Qed.

Lemma respects_log (e : LogEntry) : respects R (log e).
Proof. intros g. apply R_log. Qed.

Lemma respects_modify_state (f : CodegenState -> CodegenState) :
  (forall s, insideMarkdown (f s) = insideMarkdown s) ->
  respects R (modify_state f).
Proof. intros H g. apply R_state. apply H. Qed.

Lemma respects_mapM {A B : Type} (f : A -> M World B) (l : list A) :
  (forall x, In x l -> respects R (f x)) -> respects R (mapM f l).
Proof.
  induction l as [|x l IH]; intros H; simpl.
  - apply respects_ret.
  - apply respects_bind; [apply H; now left|]. intros y.
    apply respects_bind; [apply IH; intros; apply H; now right|].
    intros ys. apply respects_ret.
Qed.

Lemma respects_forM_ {A : Type} (f : A -> M World unit) (l : list A) :
  (forall x, In x l -> respects R (f x)) -> respects R (forM_ f l).
Proof.
  induction l as [|x l IH]; intros H; simpl.
  - apply respects_ret.
  - apply respects_bind; [apply H; now left|]. intros _.
    apply IH. intros; apply H; now right.
Qed.

Lemma respects_importStatements_add (x : string) :
  respects R (importStatements_add x).
Proof. apply respects_modify_state. reflexivity. Qed.

Lemma respects_importStatements_delete (x : string) :
  respects R (importStatements_delete x).
Proof. apply respects_modify_state. reflexivity. Qed.

Lemma respects_with_fresh_markers {A : Type} (m : M World A) :
  respects R m -> respects R (with_fresh_markers m).
Proof.
  intros H g. unfold with_fresh_markers.
  specialize (H (mkWorld (set_insideMarkdown None (state g)) (logged g))).
  destruct (m _) as [r g']. simpl in *. now apply R_fresh.
Qed.

Ltac respects_state :=
  intros; simpl;
  repeat match goal with
         | |- context [if ?b then _ else _] => destruct b
         | |- context [match ?x with _ => _ end] => destruct x
         end;
  reflexivity.

Ltac respects_step :=
  match goal with
  | |- respects _ (bind _ _) => apply respects_bind; [|intro]
  | |- respects _ (ret _) => apply respects_ret
  | |- respects _ (throw _) => apply respects_throw
  | |- respects _ (gets _) => apply respects_gets
  | |- respects _ (when _ _) => apply respects_when
  | |- respects _ (of_fallible _) => apply respects_of_fallible
  | |- respects _ (log _) => apply respects_log
  | |- respects _ (forM_ _ _) => apply respects_forM_; intros
  | |- respects _ (importStatements_add _) => apply respects_importStatements_add
  | |- respects _ (importStatements_delete _) => apply respects_importStatements_delete
  | |- respects _ (modify_state _) => apply respects_modify_state; respects_state
  | |- respects _ (match ?x with _ => _ end) => destruct x
  | |- respects _ (if ?x then _ else _) => destruct x
  end.

Variable env : Env.

Lemma respects_transpileExpressionSafe (raw_ : string) (location_start : nat) :
  respects R (transpileExpressionSafe env raw_ location_start).
Proof. unfold transpileExpressionSafe. repeat respects_step. Qed.

Lemma respects_getComponentWrapper (_name : string) (hydration : HydrationAttributes)
    (info : option ComponentInfo) :
  respects R (getComponentWrapper env _name hydration info).
Proof. unfold getComponentWrapper. repeat respects_step. Qed.

Lemma respects_inject_prism : respects R (inject_prism env).
Proof. unfold inject_prism. repeat respects_step. Qed.

Lemma respects_leave_markdown_marker : respects R leave_markdown_marker.
Proof.
  intros g. unfold leave_markdown_marker, bind, gets, throw, modify_state, modify.
  simpl. destruct (insideMarkdown (state g)) as [m|] eqn:E; simpl.
  - now apply R_leave.
  - apply R_refl.
Qed.

Lemma respects_enter_marker (scope_ : option string) :
  respects R
    (modify_state (fun s =>
       set_insideMarkdown
         (match insideMarkdown s with
          | Some m => Some (mkMarker scope_ (count m + 1))
          | None => Some (mkMarker scope_ 1)
          end) s)).
Proof. intros g. apply R_enter. Qed.

(** *** The frontmatter and the styles *)

Lemma respects_record_specifier (importUrl text_ : string) (specifier : Specifier) :
  respects R (record_specifier importUrl text_ specifier).
Proof. unfold record_specifier. repeat respects_step. Qed.

Lemma respects_record_import (features : N) (content_ : string) (i : BabelNode) :
  respects R (record_import env features content_ i).
Proof.
  unfold record_import.
  repeat first [apply respects_record_specifier | respects_step].
Qed.

Lemma respects_record_export (content_ : string) (e : BabelNode) :
  respects R (record_export content_ e).
Proof. unfold record_export. repeat respects_step. Qed.

Lemma respects_prepare_program (content_ : string) :
  respects R (prepare_program env content_).
Proof. unfold prepare_program. repeat respects_step. Qed.

Lemma respects_compileModule (features : N) (module : option Script) :
  respects R (compileModule env features module).
Proof.
  unfold compileModule. destruct module as [m|]; [|apply respects_ret].
  repeat first [ apply respects_prepare_program | apply respects_record_import
               | apply respects_record_export
               | apply respects_transpileExpressionSafe | respects_step ].
Qed.

Lemma respects_styles (styles : list TemplateNode) :
  respects R
    (forM_ (fun style =>
              styles <- of_fallible (compileCss style) ;;
              modify_state (fun s => set_css (css s ++ styles)%list s))
           styles).
Proof. repeat respects_step. Qed.

(** *** Expressions and attributes, given the compile of child nodes *)

Section RespectsChild.

Variable compileHtml_child : TemplateNode -> M World string.

Lemma respects_compileExpression (node : TemplateNode) :
  (forall c, In c (children node) -> respects R (compileHtml_child c)) ->
  respects R (compileExpression env compileHtml_child node).
Proof.
  intros H. unfold compileExpression.
  apply respects_bind; [now apply respects_mapM|]. intros cs.
  apply respects_bind; [apply respects_transpileExpressionSafe|].
  intros code. repeat respects_step.
Qed.

Lemma respects_compileExpression_of (e : option TemplateNode) (n : nat) :
  (forall c, (node_size c < n)%nat -> respects R (compileHtml_child c)) ->
  (forall x, e = Some x -> (node_size x < n)%nat) ->
  respects R (compileExpression_of env compileHtml_child e).
Proof.
  intros H He. destruct e as [x|]; simpl; [|apply respects_throw].
  apply respects_compileExpression. intros c Hc.
  apply H. specialize (He x eq_refl). apply node_size_child in Hc. lia.
Qed.

Lemma respects_getAttributes_step (nodeName : string) (isPage : bool)
    (result : Js.Object) (attr : TemplateNode) :
  (forall c, (node_size c < node_size attr)%nat -> respects R (compileHtml_child c)) ->
  respects R (getAttributes_step env compileHtml_child nodeName isPage result attr).
Proof.
  intros H. unfold getAttributes_step.
  assert (Hspread : respects R (compileExpression_of env compileHtml_child (expression attr))).
  { apply respects_compileExpression_of with (n := node_size attr); [exact H|].
    intros x Hx. now apply node_size_expression. }
  assert (Hrest :
    respects R
      (match attr_value attr with
       | ValueTrue => ret (Js.set (name attr) "true" result)
       | ValueFalse | ValueUndefined => ret result
       | ValueList [] => ret (Js.set (name attr) (Js.dq ++ Js.dq) result)
       | ValueList [val] =>
           match type val with
           | MustacheTag =>
               code <- compileExpression_of env compileHtml_child (expression val) ;;
               if negb (String.eqb code "")
               then ret (Js.set (name attr) ("(" ++ code ++ ")") result)
               else ret result
           | Text =>
               text_ <- of_fallible (getTextFromAttribute val) ;;
               when (negb isPage)
                 (forM_ log (warnIfRelativeStringLiteral env nodeName (name attr)
                               (join_opt text_))) ;;
               ret (Js.set (name attr) (Js.JSON_stringify (join_opt text_)) result)
           | AttributeShorthand =>
               ret (Js.set (name attr) ("(" ++ name attr ++ ")") result)
           | t => throw (Error ("UNKNOWN: " ++ type_name t))
           end
       | ValueList segments =>
           codes <- of_fallible (segments_code segments) ;;
           ret (Js.set (name attr) ("(" ++ Js.join "+" codes ++ ")") result)
       end)).
  { destruct (attr_value attr) as [| | |l] eqn:Ev; try apply respects_ret.
    destruct l as [|val [|v2 l]]; [apply respects_ret| |repeat respects_step].
    assert (Hval : respects R (compileExpression_of env compileHtml_child (expression val))).
    { apply respects_compileExpression_of with (n := node_size val).
      - intros c Hc. apply H.
        assert (node_size val < node_size attr)%nat
          by (eapply node_size_value; [exact Ev | now left]).
        lia.
      - intros x Hx. now apply node_size_expression. }
    destruct (type val); repeat respects_step; try exact Hval. }
  destruct (type attr); try exact Hrest.
  apply respects_bind; [exact Hspread|]. intros code. repeat respects_step.
Qed.

Lemma respects_getAttributes_loop (nodeName : string) (isPage : bool)
    (attrs : list TemplateNode) :
  (forall a c, In a attrs -> (node_size c < node_size a)%nat ->
               respects R (compileHtml_child c)) ->
  forall result,
    respects R (getAttributes_loop env compileHtml_child nodeName isPage result attrs).
Proof.
  induction attrs as [|a attrs IH]; intros H result; simpl.
  - apply respects_ret.
  - apply respects_bind.
    + apply respects_getAttributes_step. intros c Hc. apply (H a c); [now left | exact Hc].
    + intros r. apply IH. intros a' c Ha Hc. apply (H a' c); [now right | exact Hc].
Qed.

Lemma respects_getAttributes (node : TemplateNode) :
  (forall c, (node_size c < node_size node)%nat -> respects R (compileHtml_child c)) ->
  respects R (getAttributes env compileHtml_child (name node) (attributes node)).
Proof.
  intros H. unfold getAttributes. apply respects_bind; [apply respects_gets|].
  intros st. apply respects_getAttributes_loop.
  intros a c Ha Hc. apply H. apply node_size_attribute in Ha. lia.
Qed.

End RespectsChild.

(** *** The walk *)

Lemma rw_ret {A : Type} (a : A) : respects_walk R (ret a).
Proof. intros w. apply R_refl. Qed.

Lemma rw_throw {A : Type} (e : JsError) : respects_walk R (@throw Walk A e).
Proof. intros w. apply R_refl. Qed.

Lemma rw_gets {A : Type} (f : Walk -> A) : respects_walk R (gets f).
Proof. intros w. apply R_refl. Qed.

Lemma rw_bind {A B : Type} (m : M Walk A) (k : A -> M Walk B) :
  respects_walk R m -> (forall a, respects_walk R (k a)) -> respects_walk R (bind m k).
Proof.
  intros Hm Hk w. unfold bind. specialize (Hm w).
  destruct (m w) as [[a | e |] w1]; simpl in *; try exact Hm.
  eapply R_trans; [exact Hm | apply Hk].
Qed.

Lemma rw_try_catch {A : Type} (m : M Walk A) (h : JsError -> M Walk A) :
  respects_walk R m -> (forall e, respects_walk R (h e)) ->
  respects_walk R (try_catch m h).
Proof.
  intros Hm Hh w. unfold try_catch. specialize (Hm w).
  destruct (m w) as [[a | e |] w1]; simpl in *; try exact Hm.
  eapply R_trans; [exact Hm | apply Hh].
Qed.

Lemma rw_when (b : bool) (m : M Walk unit) :
  respects_walk R m -> respects_walk R (when b m).
Proof. intros H. destruct b; [exact H | apply rw_ret]. Qed.

Lemma rw_of_fallible {A : Type} (r : fallible A) : respects_walk R (of_fallible r).
Proof. destruct r; [apply rw_ret | apply rw_throw]. Qed.

Lemma rw_modify (f : Walk -> Walk) :
  (forall w, world (f w) = world w) -> respects_walk R (modify f).
Proof. intros H w. unfold modify. simpl. rewrite H. apply R_refl. Qed.

Lemma rw_lift_world {A : Type} (m : M World A) :
  respects R m -> respects_walk R (lift_world m).
Proof.
  intros H w. unfold lift_world. specialize (H (world w)).
  destruct (m (world w)) as [r g]. exact H.
Qed.

Lemma rw_forM_ {A : Type} (f : A -> M Walk unit) (l : list A) :
  (forall x, In x l -> respects_walk R (f x)) -> respects_walk R (forM_ f l).
Proof.
  induction l as [|x l IH]; intros H; simpl.
  - apply rw_ret.
  - apply rw_bind; [apply H; now left|]. intros _.
    apply IH. intros; apply H; now right.
Qed.

Lemma rw_emit (s : string) : respects_walk R (emit s).
Proof. apply rw_modify. intros w. destruct (curr w); reflexivity. Qed.

Lemma rw_emit_out (s : string) : respects_walk R (emit_out s).
Proof. apply rw_modify. reflexivity. Qed.

Ltac rw_step :=
  match goal with
  | |- respects_walk _ (bind _ _) => apply rw_bind; [|intro]
  | |- respects_walk _ (ret _) => apply rw_ret
  | |- respects_walk _ (throw _) => apply rw_throw
  | |- respects_walk _ (gets _) => apply rw_gets
  | |- respects_walk _ (when _ _) => apply rw_when
  | |- respects_walk _ (of_fallible _) => apply rw_of_fallible
  | |- respects_walk _ (emit _) => apply rw_emit
  | |- respects_walk _ (emit_out _) => apply rw_emit_out
  | |- respects_walk _ paren_incr => apply rw_modify; reflexivity
  | |- respects_walk _ paren_decr => apply rw_modify; reflexivity
  | |- respects_walk _ promote_to_markdown => apply rw_modify; reflexivity
  | |- respects_walk _ (modify _) => apply rw_modify; intro; reflexivity
  | |- respects_walk _ (lift_world _) => apply rw_lift_world
  | |- respects_walk _ (match ?x with _ => _ end) => destruct x
  | |- respects_walk _ (if ?x then _ else _) => destruct x
  | |- respects _ _ => respects_step
  end.

Section RespectsHooks.

Variable compileHtml_flush : TemplateNode -> M World string.
Hypothesis flush_respects : forall n, respects R (compileHtml_flush n).

Lemma rw_pushMarkdownToBuffer :
  respects_walk R (pushMarkdownToBuffer env compileHtml_flush).
Proof.
  unfold pushMarkdownToBuffer.
  repeat first [ apply rw_lift_world; apply respects_with_fresh_markers;
                 apply flush_respects
               | rw_step ].
Qed.

Lemma rw_flush_if_markdown :
  respects_walk R (flush_if_markdown env compileHtml_flush).
Proof.
  unfold flush_if_markdown. repeat first [apply rw_pushMarkdownToBuffer | rw_step].
Qed.

Lemma rw_open_slot_content (attributes_ : Js.Object) :
  respects_walk R (open_slot_content attributes_).
Proof. unfold open_slot_content. repeat rw_step. Qed.

Lemma rw_open_static (tag : string) (attributes_ : Js.Object) :
  respects_walk R (open_static env compileHtml_flush tag attributes_).
Proof.
  unfold open_static.
  repeat first [apply rw_flush_if_markdown | apply rw_open_slot_content | rw_step].
Qed.

Lemma rw_close_parens (node : TemplateNode) : respects_walk R (close_parens node).
Proof. unfold close_parens. repeat rw_step. Qed.

Lemma rw_leave (node : TemplateNode) :
  respects_walk R (leave env compileHtml_flush node).
Proof.
  unfold leave.
  repeat first [ apply rw_flush_if_markdown | apply rw_close_parens
               | apply rw_pushMarkdownToBuffer
               | apply rw_lift_world; apply respects_leave_markdown_marker
               | rw_step ].
Qed.

Section RespectsEnter.

Variable compileHtml_child : TemplateNode -> M World string.
Variable node : TemplateNode.
Hypothesis child_respects :
  forall c, (node_size c < node_size node)%nat -> respects R (compileHtml_child c).

Lemma rw_enter_element_try :
  respects_walk R (enter_element_try env compileHtml_child compileHtml_flush node).
Proof.
  unfold enter_element_try.
  apply rw_bind.
  { apply rw_lift_world. now apply respects_getAttributes. }
  intros attributes_.
  repeat first [ apply rw_flush_if_markdown | apply rw_open_slot_content
               | apply rw_open_static
               | apply rw_lift_world; apply respects_enter_marker
               | apply rw_lift_world; apply respects_getComponentWrapper
               | rw_step ].
Qed.

Lemma rw_enter_element :
  respects_walk R (enter_element env compileHtml_child compileHtml_flush node).
Proof.
  unfold enter_element.
  repeat first [ apply rw_try_catch; [apply rw_enter_element_try | intro]
               | rw_step ].
Qed.

Lemma rw_enter (parent : option TemplateNode) :
  respects_walk R (enter env compileHtml_child compileHtml_flush node parent).
Proof.
  unfold enter.
  assert (Hexpr : respects R (compileExpression env compileHtml_child node)).
  { apply respects_compileExpression. intros c Hc.
    apply child_respects. now apply node_size_child. }
  destruct (type node);
    repeat first [ apply rw_enter_element
                 | apply rw_lift_world; exact Hexpr
                 | apply rw_lift_world; apply respects_inject_prism
                 | rw_step ].
Qed.

End RespectsEnter.

Lemma respects_compileHtml_of_walk (walk : M Walk unit) :
  respects_walk R walk -> respects R (compileHtml_of_walk walk).
Proof.
  intros H g. unfold compileHtml_of_walk. specialize (H (fresh_walk g)).
  destruct (walk (fresh_walk g)) as [[a | e |] w]; exact H.
Qed.

Lemma visit_unfold (node : TemplateNode) (parent : option TemplateNode) :
  visit env compileHtml_flush node parent =
    (ctl <- enter env
              (fun child => compileHtml_of_walk (visit env compileHtml_flush child None))
              compileHtml_flush node parent ;;
     match ctl with
     | SkipNode => ret tt
     | Descend =>
         forM_ (fun c => visit env compileHtml_flush c (Some node)) (attributes node) ;;
         match expression node with
         | Some e => visit env compileHtml_flush e (Some node)
         | None => ret tt
         end ;;
         forM_ (fun c => visit env compileHtml_flush c (Some node)) (children node) ;;
         leave env compileHtml_flush node
     end).
Proof. destruct node; reflexivity. Qed.

Lemma rw_visit_bounded (n : nat) :
  forall node parent,
    (node_size node <= n)%nat ->
    respects_walk R (visit env compileHtml_flush node parent).
Proof.
  induction n as [|n IH]; intros node parent Hn.
  - rewrite node_size_unfold in Hn. lia.
  - rewrite visit_unfold. apply rw_bind.
    + apply rw_enter. intros c Hc. apply respects_compileHtml_of_walk.
      apply IH. lia.
    + intros [|]; [|apply rw_ret].
      apply rw_bind.
      { apply rw_forM_. intros c Hc. apply IH.
        apply node_size_attribute in Hc. lia. }
      intros _. apply rw_bind.
      { destruct (expression node) as [e|] eqn:He; [|apply rw_ret].
        apply IH. apply node_size_expression in He. lia. }
      intros _. apply rw_bind.
      { apply rw_forM_. intros c Hc. apply IH.
        apply node_size_child in Hc. lia. }
      intros _. apply rw_leave.
Qed.

Lemma rw_visit (node : TemplateNode) (parent : option TemplateNode) :
  respects_walk R (visit env compileHtml_flush node parent).
Proof. now apply rw_visit_bounded with (n := node_size node). Qed.

End RespectsHooks.

(** [compileHtml], at any depth of re-entry. *)
Lemma respects_compileHtml (fuel : nat) (enterNode : TemplateNode) :
  respects R (compileHtml env fuel enterNode).
Proof.
  revert enterNode. induction fuel as [|fuel IH]; intros enterNode; simpl.
  - intros g. apply R_refl.
  - apply respects_compileHtml_of_walk. apply rw_visit. exact IH.
Qed.

End Respects.

(* ================================================================= *)
(** ** Parentheses (C1) *)

(** *** The rewrites of the source leave the parentheses alone *)

Lemma count_String (c a : ascii) (s : string) :
  Js.count c (String a s) = ((if Ascii.eqb a c then 1 else 0) + Js.count c s)%Z.
Proof. reflexivity. Qed.

Lemma count_strip_leading_comma (c : ascii) (s : string) :
  Ascii.eqb c "," = false ->
  Js.count c (strip_leading_comma s) = Js.count c s.
Proof.
  intros Hc. destruct s as [|a r]; simpl strip_leading_comma; [reflexivity|].
  unfold is_comma. destruct (Ascii.eqb a ",") eqn:E; [|reflexivity].
  apply Ascii.eqb_eq in E. subst a. now rewrite count_String, Ascii.eqb_sym, Hc.
Qed.

Lemma count_replace_comma_paren (c : ascii) (s : string) :
  Ascii.eqb c "," = false ->
  Js.count c (replace_comma_paren s) = Js.count c s.
Proof.
  intros Hc.
  enough (H : forall n s, (String.length s <= n)%nat ->
                          Js.count c (replace_comma_paren s) = Js.count c s)
    by (apply (H (String.length s)); lia).
  clear s. induction n as [|n IH]; intros s Hn.
  - destruct s; [reflexivity | simpl in Hn; lia].
  - destruct s as [|a [|b r]]; try reflexivity.
    change (replace_comma_paren (String a (String b r)))
      with (if is_comma a && is_rparen b then String b (replace_comma_paren r)
            else String a (replace_comma_paren (String b r))).
    simpl in Hn.
    destruct (is_comma a && is_rparen b) eqn:E.
    + apply andb_true_iff in E. destruct E as [Ea _].
      unfold is_comma in Ea. apply Ascii.eqb_eq in Ea. subst a.
      rewrite !count_String, (Ascii.eqb_sym "," c), Hc, IH by lia. lia.
    + change (Js.count c (String a (replace_comma_paren (String b r))))
        with ((if Ascii.eqb a c then 1 else 0) + Js.count c (replace_comma_paren (String b r)))%Z.
      rewrite IH by (simpl; lia). reflexivity.
Qed.

Lemma count_collapse_commas_from (c : ascii) (s : string) (prev : bool) :
  Ascii.eqb c "," = false ->
  Js.count c (collapse_commas_from prev s) = Js.count c s.
Proof.
  intros Hc. revert prev.
  induction s as [|a r IH]; intros prev; simpl collapse_commas_from; [reflexivity|].
  unfold is_comma. destruct (Ascii.eqb a ",") eqn:E.
  - apply Ascii.eqb_eq in E. subst a.
    destruct prev; rewrite ?count_String, ?(Ascii.eqb_sym "," c), ?Hc, IH; reflexivity.
  - rewrite !count_String. now rewrite IH.
Qed.

Lemma count_separate_paren_h (c : ascii) (s : string) :
  Ascii.eqb c "," = false ->
  Js.count c (separate_paren_h s) = Js.count c s.
Proof.
  intros Hc.
  enough (H : forall n s, (String.length s <= n)%nat ->
                          Js.count c (separate_paren_h s) = Js.count c s)
    by (apply (H (String.length s)); lia).
  clear s. induction n as [|n IH]; intros s Hn.
  - destruct s; [reflexivity | simpl in Hn; lia].
  - destruct s as [|a [|b r]]; try reflexivity.
    change (separate_paren_h (String a (String b r)))
      with (if is_rparen a && Ascii.eqb b "h"
            then String a (String "," (String b (separate_paren_h r)))
            else String a (separate_paren_h (String b r))).
    simpl in Hn.
    destruct (is_rparen a && Ascii.eqb b "h").
    + rewrite !count_String, (Ascii.eqb_sym "," c), Hc, IH by lia. lia.
    + change (Js.count c (String a (separate_paren_h (String b r))))
        with ((if Ascii.eqb a c then 1 else 0) + Js.count c (separate_paren_h (String b r)))%Z.
      rewrite IH by (simpl; lia). reflexivity.
Qed.

Lemma count_cleanup (c : ascii) (s : string) :
  Ascii.eqb c "," = false -> Js.count c (cleanup s) = Js.count c s.
Proof.
  intros Hc. unfold cleanup, collapse_commas.
  now rewrite count_separate_paren_h, count_collapse_commas_from,
    count_replace_comma_paren, count_strip_leading_comma.
Qed.

Lemma delta_cleanup (s : string) : delta (cleanup s) = delta s.
Proof. unfold delta. now rewrite !count_cleanup. Qed.

Lemma count_json_char (c a : ascii) :
  Ascii.eqb c "(" || Ascii.eqb c ")" = true ->
  Js.count c (Js.json_char a) = Js.count c (String a "").
Proof.
  intros Hc. apply orb_true_iff in Hc.
  destruct Hc as [Hc | Hc]; apply Ascii.eqb_eq in Hc; subst c;
    destruct a as [[] [] [] [] [] [] [] []]; reflexivity.
Qed.

Lemma count_json_body (c : ascii) (s : string) :
  Ascii.eqb c "(" || Ascii.eqb c ")" = true ->
  Js.count c (Js.json_body s) = Js.count c s.
Proof.
  intros Hc. induction s as [|a r IH]; simpl; [reflexivity|].
  rewrite count_append, IH, (count_json_char c a Hc), !count_String. simpl. lia.
Qed.

Lemma delta_JSON_stringify (s : string) : delta (Js.JSON_stringify s) = delta s.
Proof.
  unfold delta, Js.JSON_stringify, Js.quoted, Js.dq.
  rewrite !count_append, !count_json_body by reflexivity. simpl. lia.
Qed.

Lemma count_trim_start (c : ascii) (s : string) :
  Js.is_space c = false -> Js.count c (Js.trim_start s) = Js.count c s.
Proof.
  intros Hc. induction s as [|a r IH]; simpl; [reflexivity|].
  destruct (Js.is_space a) eqn:E; [|reflexivity].
  rewrite IH. destruct (Ascii.eqb a c) eqn:Eac; [|lia].
  apply Ascii.eqb_eq in Eac. subst a. congruence.
Qed.

Lemma count_all_space (c : ascii) (s : string) :
  Js.is_space c = false -> Js.all_space s = true -> Js.count c s = 0%Z.
Proof.
  intros Hc. induction s as [|a r IH]; simpl; [reflexivity|].
  intros H. apply andb_true_iff in H. destruct H as [Ha Hr].
  rewrite (IH Hr). destruct (Ascii.eqb a c) eqn:Eac; [|lia].
  apply Ascii.eqb_eq in Eac. subst a. congruence.
Qed.

Lemma count_trim_end (c : ascii) (s : string) :
  Js.is_space c = false -> Js.count c (Js.trim_end s) = Js.count c s.
Proof.
  intros Hc. induction s as [|a r IH]; [reflexivity|].
  change (Js.trim_end (String a r))
    with (if Js.all_space (String a r) then "" else String a (Js.trim_end r)).
  destruct (Js.all_space (String a r)) eqn:E.
  - now rewrite (count_all_space c _ Hc E).
  - simpl. now rewrite IH.
Qed.

Lemma delta_trim (s : string) : delta (Js.trim s) = delta s.
Proof.
  unfold delta, Js.trim.
  now rewrite !count_trim_end, !count_trim_start by reflexivity.
Qed.

Lemma count_strip_final_semicolon (c : ascii) (s : string) :
  Ascii.eqb c ";" = false -> Js.count c (strip_final_semicolon s) = Js.count c s.
Proof.
  intros Hc. induction s as [|a r IH]; [reflexivity|].
  destruct r as [|b r'].
  - simpl strip_final_semicolon. destruct (Ascii.eqb a ";") eqn:E; [|reflexivity].
    apply Ascii.eqb_eq in E. subst a.
    now rewrite count_String, (Ascii.eqb_sym ";" c), Hc.
  - change (strip_final_semicolon (String a (String b r')))
      with (String a (strip_final_semicolon (String b r'))).
    change (Js.count c (String a (strip_final_semicolon (String b r'))))
      with ((if Ascii.eqb a c then 1 else 0) + Js.count c (strip_final_semicolon (String b r')))%Z.
    rewrite IH. reflexivity.
Qed.

Lemma delta_strip_final_semicolon (s : string) :
  delta (strip_final_semicolon s) = delta s.
Proof. unfold delta. now rewrite !count_strip_final_semicolon by reflexivity. Qed.

(** *** Props objects *)

Lemma get_update_same (k v : string) (o : Js.Object) :
  Js.has k o = true -> Js.get k (Js.update k v o) = Some v.
Proof.
  unfold Js.has. induction o as [|[k' v'] r IH]; simpl; [discriminate|].
  destruct (String.eqb k' k) eqn:E; simpl; rewrite E; [reflexivity | exact IH].
Qed.

Lemma get_update_other (k k0 v : string) (o : Js.Object) :
  k0 <> k -> Js.get k0 (Js.update k v o) = Js.get k0 o.
Proof.
  intros Hk. induction o as [|[k' v'] r IH]; simpl; [reflexivity|].
  destruct (String.eqb k' k) eqn:E; simpl.
  - apply String.eqb_eq in E. subst k'.
    destruct (String.eqb k k0) eqn:E0; [|reflexivity].
    apply String.eqb_eq in E0. congruence.
  - now rewrite IH.
Qed.

Lemma get_insert_index_same (n : N) (k v : string) (o : Js.Object) :
  Js.has k o = false -> Js.get k (Js.insert_index n k v o) = Some v.
Proof.
  unfold Js.has. induction o as [|[k' v'] r IH]; simpl.
  - intros _. now rewrite String.eqb_refl.
  - destruct (String.eqb k' k) eqn:E'; [discriminate|]. intros Hh.
    destruct (Js.array_index k') as [m|]; [destruct (N.ltb m n)|]; simpl;
      rewrite ?E', ?String.eqb_refl; auto.
Qed.

Lemma get_insert_index_other (n : N) (k k0 v : string) (o : Js.Object) :
  String.eqb k k0 = false -> Js.get k0 (Js.insert_index n k v o) = Js.get k0 o.
Proof.
  intros E. induction o as [|[k' v'] r IH]; simpl.
  - now rewrite E.
  - destruct (Js.array_index k') as [m|]; [destruct (N.ltb m n)|]; simpl;
      rewrite ?E, ?IH; reflexivity.
Qed.

Lemma get_app_last (k k0 v : string) (o : Js.Object) :
  Js.get k0 (o ++ [(k, v)])%list =
    match Js.get k0 o with
    | Some x => Some x
    | None => if String.eqb k k0 then Some v else None
    end.
Proof.
  induction o as [|[k' v'] r IH]; simpl; [reflexivity|].
  destruct (String.eqb k' k0); [reflexivity | exact IH].
Qed.

Lemma get_set_same (k v : string) (o : Js.Object) :
  Js.get k (Js.set k v o) = Some v.
Proof.
  unfold Js.set. destruct (Js.has k o) eqn:Hh.
  - now apply get_update_same.
  - destruct (Js.array_index k) as [n|].
    + now apply get_insert_index_same.
    + rewrite get_app_last. unfold Js.has in Hh.
      destruct (Js.get k o); [discriminate|]. now rewrite String.eqb_refl.
Qed.

Lemma get_set_other (k k0 v : string) (o : Js.Object) :
  k0 <> k -> Js.get k0 (Js.set k v o) = Js.get k0 o.
Proof.
  intros Hk. unfold Js.set.
  assert (E : String.eqb k k0 = false) by (apply String.eqb_neq; congruence).
  destruct (Js.has k o).
  - now apply get_update_other.
  - destruct (Js.array_index k) as [n|].
    + now apply get_insert_index_other.
    + rewrite get_app_last, E. now destruct (Js.get k0 o).
Qed.

Lemma Forall_update (P : string * string -> Prop) (k v : string) (o : Js.Object) :
  Forall P o -> (forall k', k' = k -> P (k', v)) -> Forall P (Js.update k v o).
Proof.
  intros Ho Hk. induction Ho as [|[k' v'] r Hx Hr IH]; simpl; [constructor|].
  destruct (String.eqb k' k) eqn:E.
  - constructor; [|exact Hr]. apply Hk. now apply String.eqb_eq.
  - constructor; assumption.
Qed.

Lemma Forall_insert_index (P : string * string -> Prop) (n : N) (k v : string)
    (o : Js.Object) :
  Forall P o -> P (k, v) -> Forall P (Js.insert_index n k v o).
Proof.
  intros Ho Hk. induction Ho as [|[k' v'] r Hx Hr IH]; simpl.
  - constructor; [exact Hk | constructor].
  - destruct (Js.array_index k') as [m|]; [destruct (N.ltb m n)|];
      repeat (constructor; try assumption).
Qed.

Lemma Forall_set (P : string * string -> Prop) (k v : string) (o : Js.Object) :
  Forall P o -> P (k, v) -> Forall P (Js.set k v o).
Proof.
  intros Ho Hk. unfold Js.set. destruct (Js.has k o).
  - apply Forall_update; [exact Ho|]. now intros k' ->.
  - destruct (Js.array_index k).
    + now apply Forall_insert_index.
    + apply Forall_app. split; [exact Ho | now constructor].
Qed.

Lemma plain_object_set (k v : string) (o : Js.Object) :
  plain_object o -> delta k = 0%Z -> delta v = 0%Z ->
  hydrationDirectives_has k = false ->
  plain_object (Js.set k v o).
Proof. intros Ho Hk Hv Hh. apply Forall_set; [exact Ho | now repeat split]. Qed.

Lemma findHydrationAttributes_plain (o : Js.Object) :
  plain_object o -> findHydrationAttributes o = {| method := None; value := None |}.
Proof.
  intros Ho. rewrite findHydrationAttributes_find_rev.
  assert (E : find is_directive_entry (rev o) = None).
  { apply Forall_rev in Ho. induction Ho as [|kv r [_ [_ Hx]] Hr IH]; simpl; [reflexivity|].
    unfold is_directive_entry at 1. now rewrite Hx. }
  now rewrite E.
Qed.

Lemma delta_concat_all (l : list string) :
  Forall (fun s => delta s = 0%Z) l -> delta (concat_all l) = 0%Z.
Proof.
  induction 1 as [|s r Hs Hr IH]; simpl; [reflexivity|].
  rewrite delta_append. lia.
Qed.

Lemma delta_props_entry (kv : string * string) :
  delta (fst kv) = 0%Z -> delta (snd kv) = 0%Z -> delta (props_entry kv) = 0%Z.
Proof.
  intros Hk Hv. unfold props_entry. destruct (Js.startsWith (fst kv) "...").
  - rewrite delta_append, Hk. reflexivity.
  - rewrite !delta_append, delta_JSON_stringify, Hk, Hv. reflexivity.
Qed.

Lemma delta_generateAttributes (o : Js.Object) :
  plain_object o -> delta (generateAttributes o) = 0%Z.
Proof.
  intros Ho.
  rewrite (generateAttributes_kept o).
  change (String.append "{") with (fun s => String "{" s). cbv beta.
  assert (E : delta (concat_all
                (map props_entry (filter (fun kv => negb (is_directive_entry kv)) o))) = 0%Z).
  { apply delta_concat_all. apply Forall_map.
    apply Forall_forall. intros kv Hin. apply filter_In in Hin. destruct Hin as [Hin _].
    unfold plain_object in Ho. rewrite Forall_forall in Ho.
    destruct (Ho kv Hin) as [Hk [Hv _]]. now apply delta_props_entry. }
  change (delta ("{" ++ (concat_all
            (map props_entry (filter (fun kv => negb (is_directive_entry kv)) o))
            ++ astroContextEntry ++ "}")) = 0%Z).
  rewrite !delta_append, E. reflexivity.
Qed.

(** *** Attributes of literal markup *)

Ltac solve_delta :=
  unfold delta, Js.JSON_stringify, Js.quoted, Js.dq in *;
  repeat (progress (cbn [String.append Js.count Ascii.eqb Bool.eqb];
                    rewrite ?count_append;
                    rewrite ?count_json_body by reflexivity));
  lia.

Lemma forM_log (l : list LogEntry) (g : World) :
  forM_ log l g = (Ok tt, mkWorld (state g) (logged g ++ l)).
Proof.
  revert g. induction l as [|e l IH]; intros g; simpl.
  - rewrite app_nil_r. now destruct g.
  - unfold bind, log, modify. simpl. rewrite IH. simpl.
    now rewrite <- app_assoc.
Qed.

Lemma delta_join_plus (codes : list string) :
  Forall (fun s => delta s = 0%Z) codes -> delta (Js.join "+" codes) = 0%Z.
Proof.
  induction 1 as [|s r Hs Hr IH]; [reflexivity|].
  destruct r as [|s' r']; [exact Hs|].
  change (Js.join "+" (s :: s' :: r')) with (s ++ "+" ++ Js.join "+" (s' :: r')).
  rewrite !delta_append, Hs, IH. reflexivity.
Qed.

Lemma zero_delta_true (s : string) : zero_delta s = true -> delta s = 0%Z.
Proof. unfold zero_delta. apply Z.eqb_eq. Qed.

Lemma segment_code_plain (v : TemplateNode) (code : string) :
  plain_segment v = true -> segment_code v = Returns code -> delta code = 0%Z.
Proof.
  unfold plain_segment, segment_code.
  destruct (Js.truthy (content v)) eqn:Et.
  - intros Hp H. inversion H; subst. destruct (content v); simpl in *.
    + now apply zero_delta_true.
    + reflexivity.
  - unfold getTextFromAttribute, text_of.
    destruct (type v); try (intros _ H; discriminate H).
    + destruct (raw v) as [r|]; [|destruct (data v) as [d|]];
        simpl; intros Hp H; inversion H; subst;
        rewrite delta_JSON_stringify; now apply zero_delta_true.
    + destruct (expression v) as [e|]; [|intros _ H; discriminate H].
      destruct (hd_error (codeChunks e)) as [c|]; simpl; intros Hp H;
        inversion H; subst; [|reflexivity].
      rewrite delta_JSON_stringify. now apply zero_delta_true.
Qed.

Lemma segments_code_plain (l : list TemplateNode) (codes : list string) :
  forallb plain_segment l = true -> segments_code l = Returns codes ->
  Forall (fun s => delta s = 0%Z) codes.
Proof.
  revert codes. induction l as [|v l IH]; intros codes Hp H; simpl in *.
  - inversion H. constructor.
  - apply andb_true_iff in Hp. destruct Hp as [Hv Hl].
    destruct (segment_code v) as [c|] eqn:Ec; [|discriminate].
    destruct (segments_code l) as [cs|] eqn:Ecs; [|discriminate].
    inversion H; subst. constructor.
    + now apply (segment_code_plain v).
    + now apply IH.
Qed.

Lemma truthy_get_set (k v : string) (o : Js.Object) :
  v <> "" ->
  Js.truthy (Js.get "slot" (Js.set k v o)) =
    Js.truthy (Js.get "slot" o) || String.eqb k "slot".
Proof.
  intros Hv. destruct (String.eqb k "slot") eqn:E.
  - apply String.eqb_eq in E. subst k. rewrite get_set_same. simpl.
    rewrite orb_true_r. apply negb_true_iff. now apply String.eqb_neq.
  - rewrite get_set_other, orb_false_r; [reflexivity|].
    apply String.eqb_neq in E. congruence.
Qed.

Section PlainAttributes.

Variable env : Env.
Variable compileHtml_child : TemplateNode -> M World string.

Lemma getAttributes_step_plain (nodeName : string) (isPage : bool)
    (result result' : Js.Object) (attr : TemplateNode) (g g' : World) :
  plain_attribute attr = true ->
  getAttributes_step env compileHtml_child nodeName isPage result attr g = (Ok result', g') ->
  plain_object result ->
  plain_object result'
  /\ state g' = state g
  /\ Js.truthy (Js.get "slot" result') =
       Js.truthy (Js.get "slot" result) || String.eqb (name attr) "slot".
Proof.
  unfold plain_attribute, getAttributes_step. intros Hp H Ho.
  repeat (apply andb_true_iff in Hp; destruct Hp as [Hp ?]).
  destruct (type attr); try discriminate Hp. clear Hp.
  assert (Hk : delta (name attr) = 0%Z) by now apply zero_delta_true.
  assert (Hh : hydrationDirectives_has (name attr) = false)
    by now apply negb_true_iff.
  destruct (attr_value attr) as [| | |l].
  - inversion H; subst. repeat split.
    + now apply plain_object_set.
    + now apply truthy_get_set.
  - inversion H; subst. repeat split; [exact Ho|].
    match goal with Hs : negb _ = true |- _ => apply negb_true_iff in Hs; rewrite Hs end.
    now rewrite orb_false_r.
  - inversion H; subst. repeat split; [exact Ho|].
    match goal with Hs : negb _ = true |- _ => apply negb_true_iff in Hs; rewrite Hs end.
    now rewrite orb_false_r.
  - destruct l as [|val [|v2 l]].
    + inversion H; subst. repeat split.
      * now apply plain_object_set.
      * now apply truthy_get_set.
    + destruct (type val) eqn:Et; try discriminate;
        try (unfold throw in H; discriminate H).
      * (* Text *)
        unfold bind, of_fallible in H.
        unfold getTextFromAttribute in H. rewrite Et in H.
        assert (Hret : forall t, text_of val = Some t ->
                  (when (negb isPage)
                     (forM_ log (warnIfRelativeStringLiteral env nodeName (name attr) t)) ;;
                   ret (Js.set (name attr) (Js.JSON_stringify t) result))%js g
                  = (Ok result', g') ->
                  plain_object result' /\ state g' = state g /\
                  Js.truthy (Js.get "slot" result') =
                    Js.truthy (Js.get "slot" result) || String.eqb (name attr) "slot").
        { intros t Ht Hrun. unfold bind, when in Hrun.
          match goal with Hz : opt_zero_delta _ = true |- _ => rewrite Ht in Hz; simpl in Hz;
            apply zero_delta_true in Hz; rename Hz into Hz' end.
          destruct (negb isPage); [rewrite forM_log in Hrun|];
            unfold ret in Hrun; simpl in Hrun; inversion Hrun; subst;
            (repeat split;
             [ apply plain_object_set; auto; now rewrite delta_JSON_stringify
             | apply truthy_get_set; unfold Js.JSON_stringify, Js.quoted, Js.dq;
               simpl; discriminate ]). }
        unfold text_of in Hret.
        destruct (raw val) as [r|]; [|destruct (data val) as [d|]]; simpl in H.
        -- apply (Hret r eq_refl). exact H.
        -- apply (Hret d eq_refl). exact H.
        -- unfold throw in H. discriminate H.
      * (* AttributeShorthand *)
        inversion H; subst. repeat split.
        -- apply plain_object_set; auto. solve_delta.
        -- apply truthy_get_set. simpl. discriminate.
    + unfold bind, of_fallible in H.
      destruct (segments_code (val :: v2 :: l)) as [codes|] eqn:Ec;
        [|unfold throw in H; discriminate H].
      unfold ret in H. inversion H; subst. repeat split.
      * apply plain_object_set; auto.
        assert (Hj : delta (Js.join "+" codes) = 0%Z).
        { apply delta_join_plus. eapply segments_code_plain; eauto. }
        solve_delta.
      * apply truthy_get_set. simpl. discriminate.
Qed.

End PlainAttributes.

(** *** The escaped curly bracket *)

Lemma startsWith_String (a b : ascii) (s p : string) :
  Js.startsWith (String a s) (String b p) = true ->
  a = b /\ Js.startsWith s p = true.
Proof.
  simpl. intros H. apply andb_true_iff in H. destruct H as [Hab Hs].
  apply Ascii.eqb_eq in Hab. split; [now subst | exact Hs].
Qed.

Lemma count_take_startsWith (c : ascii) (p s : string) :
  Js.startsWith s p = true ->
  Js.count c (Js.take (String.length p) s) = Js.count c p.
Proof.
  revert s. induction p as [|b p IH]; intros s H; [reflexivity|].
  destruct s as [|a s]; [discriminate H|].
  apply startsWith_String in H. destruct H as [-> Hs].
  simpl String.length. simpl Js.take. rewrite !count_String, (IH s Hs). reflexivity.
Qed.

Lemma count_replace_all_from (c b : ascii) (pat' by_ : string) :
  Js.count c (String b pat') = 0%Z -> Js.count c by_ = 0%Z ->
  forall s skip,
    Js.count c (Js.take skip s) = 0%Z ->
    Js.count c (replace_all_from (String b pat') by_ skip s) = Js.count c s.
Proof.
  intros Hpat Hby. induction s as [|a r IH]; intros skip Hs; [reflexivity|].
  destruct skip as [|k].
  - change (replace_all_from (String b pat') by_ 0 (String a r))
      with (if Js.startsWith (String a r) (String b pat')
            then by_ ++ replace_all_from (String b pat') by_
                          (String.length (String b pat') - 1) r
            else String a (replace_all_from (String b pat') by_ 0 r)).
    destruct (Js.startsWith (String a r) (String b pat')) eqn:E.
    + apply startsWith_String in E. destruct E as [-> E].
      rewrite count_String in Hpat.
      assert (Hb : (if Ascii.eqb b c then 1 else 0)%Z = 0%Z /\ Js.count c pat' = 0%Z).
      { assert (0 <= Js.count c pat')%Z.
        { clear. induction pat' as [|x p IHp]; simpl; [lia|].
          destruct (Ascii.eqb x c); lia. }
        destruct (Ascii.eqb b c); lia. }
      destruct Hb as [Hb Hp'].
      rewrite count_append, Hby, count_String, Hb.
      replace (String.length (String b pat') - 1)%nat with (String.length pat')
        by (simpl; lia).
      rewrite IH; [lia|]. now rewrite (count_take_startsWith c pat' r E).
    + rewrite !count_String, IH by reflexivity. reflexivity.
  - change (replace_all_from (String b pat') by_ (S k) (String a r))
      with (replace_all_from (String b pat') by_ k r).
    simpl Js.take in Hs. rewrite count_String in Hs.
    assert (Hk : (if Ascii.eqb a c then 1 else 0)%Z = 0%Z /\ Js.count c (Js.take k r) = 0%Z).
    { assert (0 <= Js.count c (Js.take k r))%Z.
      { clear. generalize (Js.take k r). intros s.
        induction s as [|x p IHp]; simpl; [lia|]. destruct (Ascii.eqb x c); lia. }
      destruct (Ascii.eqb a c); lia. }
    destruct Hk as [Ha Hk].
    rewrite count_String, Ha, IH by exact Hk. reflexivity.
Qed.

Lemma delta_unescape_curly (s : string) : delta (unescape_curly s) = delta s.
Proof.
  unfold delta, unescape_curly, Js.nul. cbn [String.append].
  rewrite !count_replace_all_from; reflexivity.
Qed.

(* ================================================================= *)
(** ** The sink only grows, the marker stays well formed (C8) *)

Lemma log_extends_refl (g : World) : log_extends g g.
Proof. exists []. now rewrite app_nil_r. Qed.

Lemma log_extends_trans (g1 g2 g3 : World) :
  log_extends g1 g2 -> log_extends g2 g3 -> log_extends g1 g3.
Proof.
  intros [l1 H1] [l2 H2]. exists (l1 ++ l2)%list. now rewrite H2, H1, app_assoc.
Qed.

Ltac log_extends_side :=
  first [ exact log_extends_refl
        | exact log_extends_trans
        | (intros ? ?; eexists [_]; reflexivity)
        | (intros; exists []; simpl; rewrite app_nil_r; reflexivity)
        | (let l := fresh "l" in let H := fresh "H" in
           intros ? ? [l H]; exists l; exact H) ].

Lemma log_extends_compileHtml (env : Env) (fuel : nat) (node : TemplateNode) :
  respects log_extends (compileHtml env fuel node).
Proof. apply respects_compileHtml; log_extends_side. Qed.

Lemma log_extends_visit (env : Env) (flush : TemplateNode -> M World string)
    (node : TemplateNode) (parent : option TemplateNode) :
  (forall n, respects log_extends (flush n)) ->
  respects_walk log_extends (visit env flush node parent).
Proof. intros Hf. apply rw_visit; try exact Hf; log_extends_side. Qed.

Lemma log_extends_leave (env : Env) (flush : TemplateNode -> M World string)
    (node : TemplateNode) :
  (forall n, respects log_extends (flush n)) ->
  respects_walk log_extends (leave env flush node).
Proof. intros Hf. apply rw_leave; try exact Hf; log_extends_side. Qed.

Lemma no_errors_before (g g' : World) :
  log_extends g g' -> no_errors (logged g') -> no_errors (logged g).
Proof.
  intros [l H] Hn. unfold no_errors in *. rewrite H in Hn.
  now apply Forall_app in Hn.
Qed.

Lemma keeps_marker_ok_enter (g : World) (scope_ : option string) :
  keeps_marker_ok g
    (mkWorld
       (set_insideMarkdown
          (match insideMarkdown (state g) with
           | Some m => Some (mkMarker scope_ (count m + 1))
           | None => Some (mkMarker scope_ 1)
           end) (state g))
       (logged g)).
Proof.
  unfold keeps_marker_ok, marker_ok. simpl.
  destruct (insideMarkdown (state g)); simpl; lia.
Qed.

Lemma keeps_marker_ok_leave (g : World) (m : MarkdownMarker) :
  insideMarkdown (state g) = Some m ->
  keeps_marker_ok g
    (mkWorld
       (set_insideMarkdown
          (if (count m - 1 <=? 0)%Z then None
           else Some (mkMarker (scope m) (count m - 1))) (state g))
       (logged g)).
Proof.
  intros E. unfold keeps_marker_ok, marker_ok. simpl. rewrite E. intros H.
  destruct (count m - 1 <=? 0)%Z eqn:Ec; simpl; [exact I|].
  apply Z.leb_gt in Ec. lia.
Qed.

(** The first half of C8, for every document: the hooks of the walk, the
    walk of a node and [compileHtml] take a marker that is [false] or has
    a count of at least 1 to such a marker, whatever their outcome. *)
Theorem insideMarkdown_stays_well_formed (env : Env) (fuel : nat) :
  (forall node, respects keeps_marker_ok (compileHtml env fuel node))
  /\ (forall node parent,
        respects_walk keeps_marker_ok
          (enter env
             (fun child => compileHtml_of_walk (visit env (compileHtml env fuel) child None))
             (compileHtml env fuel) node parent))
  /\ (forall node,
        respects_walk keeps_marker_ok (leave env (compileHtml env fuel) node))
  /\ (forall node parent,
        respects_walk keeps_marker_ok (visit env (compileHtml env fuel) node parent)).
Proof.
  assert (Hrefl : forall g, keeps_marker_ok g g) by (intros g H; exact H).
  assert (Htrans : forall g1 g2 g3,
            keeps_marker_ok g1 g2 -> keeps_marker_ok g2 g3 -> keeps_marker_ok g1 g3)
    by (intros g1 g2 g3 H1 H2 H; auto).
  assert (Hlog : forall g e, keeps_marker_ok g (mkWorld (state g) (logged g ++ [e])))
    by (intros g e H; exact H).
  assert (Hstate : forall g st, insideMarkdown st = insideMarkdown (state g) ->
                                keeps_marker_ok g (mkWorld st (logged g))).
  { intros g st E. unfold keeps_marker_ok, marker_ok. simpl. now rewrite E. }
  assert (Hfresh : forall g g',
            keeps_marker_ok (mkWorld (set_insideMarkdown None (state g)) (logged g)) g' ->
            keeps_marker_ok g
              (mkWorld (set_insideMarkdown (insideMarkdown (state g)) (state g')) (logged g'))).
  { intros g g' _ H. exact H. }
  assert (Hc : forall f node, respects keeps_marker_ok (compileHtml env f node)).
  { intros f node.
    apply respects_compileHtml;
      auto using keeps_marker_ok_enter, keeps_marker_ok_leave. }
  assert (Hv : forall node parent,
            respects_walk keeps_marker_ok (visit env (compileHtml env fuel) node parent)).
  { intros node parent.
    apply rw_visit; auto using keeps_marker_ok_enter, keeps_marker_ok_leave. }
  split; [apply Hc|]. split; [|split; [|exact Hv]].
  - intros node parent.
    apply rw_enter; auto using keeps_marker_ok_enter, keeps_marker_ok_leave.
    intros c _. apply respects_compileHtml_of_walk; auto.
  - intros node.
    apply rw_leave; auto using keeps_marker_ok_enter, keeps_marker_ok_leave.
Qed.

(* ================================================================= *)
(** ** The walk over literal markup (C1) *)

Lemma bind_Ok {S A B : Type} (m : M S A) (k : A -> M S B) (s s' : S) (b : B) :
  bind m k s = (Ok b, s') ->
  exists a s1, m s = (Ok a, s1) /\ k a s1 = (Ok b, s').
Proof.
  unfold bind. destruct (m s) as [[a | e |] s1]; intros H; try discriminate H.
  now exists a, s1.
Qed.

Lemma lift_world_Ok {A : Type} (m : M World A) (w w' : Walk) (a : A) :
  lift_world m w = (Ok a, w') ->
  exists g, m (world w) = (Ok a, g) /\ w' = set_world g w.
Proof.
  unfold lift_world. destruct (m (world w)) as [r g]. intros H.
  inversion H; subst. now exists g.
Qed.

Lemma plain_object_get (o : Js.Object) (k v : string) :
  plain_object o -> Js.get k o = Some v -> delta v = 0%Z.
Proof.
  induction 1 as [|[k' v'] r [_ [Hv _]] Hr IH]; simpl; [discriminate|].
  destruct (String.eqb k' k); [|exact IH].
  intros H. now inversion H; subst.
Qed.

Lemma moved_trans (a b c d : Z) (w1 w2 w3 : Walk) :
  moved a b w1 w2 -> moved c d w2 w3 -> moved (a + c) (b + d) w1 w3.
Proof.
  intros [_ [Hp1 Hd1]] [Hok [Hp2 Hd2]]. repeat split; try apply Hok; lia.
Qed.

Lemma moved_refl (w : Walk) : walk_ok w -> moved 0 0 w w.
Proof. intros H. repeat split; try apply H; lia. Qed.

Ltac walk_unfold :=
  unfold moved, walk_ok, emit, emit_out, paren_incr, paren_decr, promote_to_markdown,
    modify, gets, ret, bind, when, throw, lift_world, importStatements_add,
    importStatements_delete, modify_state, log,
    set_out, set_paren, set_world, set_curr, set_markdown, set_importStatements,
    set_css, set_components, curr_is_markdown, is_inside in *.

Section PlainWalk.

Variable env : Env.
Variable compileHtml_flush : TemplateNode -> M World string.
Hypothesis flush_log : forall n, respects log_extends (compileHtml_flush n).
Hypothesis env_balance : transpiler_keeps_balance env.

Lemma flush_if_markdown_out (w : Walk) :
  curr w = BufferOut -> flush_if_markdown env compileHtml_flush w = (Ok tt, w).
Proof.
  intros H. unfold flush_if_markdown. walk_unfold. simpl. now rewrite H.
Qed.

Lemma open_slot_content_plain (o : Js.Object) (w : Walk) :
  walk_ok w -> plain_object o ->
  exists w',
    open_slot_content o w = (Ok tt, w')
    /\ (let k := if Js.truthy (Js.get "slot" o) then 1%Z else 0%Z in moved k k w w')
    /\ logged (world w') = logged (world w).
Proof.
  intros [Hc Hm] Ho. unfold open_slot_content.
  destruct (Js.truthy (Js.get "slot" o)) eqn:Et.
  - destruct (Js.get "slot" o) as [v|] eqn:Eg; [|discriminate].
    assert (Hv : delta v = 0%Z) by (eapply plain_object_get; eauto).
    walk_unfold. simpl. rewrite Hc. simpl. eexists. split; [reflexivity|].
    simpl. repeat split; auto. solve_delta.
  - walk_unfold. simpl. eexists. split; [reflexivity|].
    repeat split; auto; lia.
Qed.

Lemma open_static_plain (tag : string) (o : Js.Object) (w : Walk) :
  walk_ok w -> plain_object o -> delta tag = 0%Z ->
  exists w',
    open_static env compileHtml_flush tag o w = (Ok tt, w')
    /\ (let k := if Js.truthy (Js.get "slot" o) then 2%Z else 1%Z in moved k k w w')
    /\ logged (world w') = logged (world w).
Proof.
  intros Hw Ho Ht. unfold open_static.
  unfold bind at 1. rewrite flush_if_markdown_out by apply Hw.
  destruct (open_slot_content_plain o w Hw Ho) as (w1 & E1 & Hmv & Hl).
  unfold bind at 1. rewrite E1.
  destruct Hmv as [[Hc Hm] [Hp Hd]].
  pose proof (delta_generateAttributes o Ho) as Hg.
  walk_unfold. simpl. rewrite Hc. simpl. eexists. split; [reflexivity|].
  simpl. repeat split; auto.
  - destruct (Js.truthy (Js.get "slot" o)); lia.
  - destruct (Js.truthy (Js.get "slot" o)); solve_delta.
Qed.

Lemma getAttributes_loop_plain (child : TemplateNode -> M World string)
    (nodeName : string) (isPage : bool) (attrs : list TemplateNode) :
  forallb plain_attribute attrs = true ->
  forall result o g g',
    getAttributes_loop env child nodeName isPage result attrs g = (Ok o, g') ->
    plain_object result ->
    plain_object o
    /\ state g' = state g
    /\ Js.truthy (Js.get "slot" o) =
         Js.truthy (Js.get "slot" result)
         || existsb (fun attr => String.eqb (name attr) "slot") attrs.
Proof.
  induction attrs as [|a attrs IH]; intros Hp result o g g' H Ho; simpl in *.
  - inversion H; subst. repeat split; auto. now rewrite orb_false_r.
  - apply andb_true_iff in Hp. destruct Hp as [Ha Hl].
    apply bind_Ok in H. destruct H as (r1 & g1 & H1 & H2).
    destruct (getAttributes_step_plain env child nodeName isPage result r1 a g g1 Ha H1 Ho)
      as (Ho1 & Hs1 & Ht1).
    destruct (IH Hl r1 o g1 g' H2 Ho1) as (Ho2 & Hs2 & Ht2).
    repeat split; auto; [congruence|].
    rewrite Ht2, Ht1. now rewrite orb_assoc.
Qed.

Lemma getAttributes_plain (child : TemplateNode -> M World string)
    (node : TemplateNode) (o : Js.Object) (g g' : World) :
  forallb plain_attribute (attributes node) = true ->
  getAttributes env child (name node) (attributes node) g = (Ok o, g') ->
  plain_object o
  /\ state g' = state g
  /\ Js.truthy (Js.get "slot" o) = has_slot_attribute node.
Proof.
  intros Hp H. unfold getAttributes in H.
  apply bind_Ok in H. destruct H as (st & g1 & H1 & H2).
  unfold gets in H1. inversion H1; subst. clear H1.
  destruct (getAttributes_loop_plain child _ _ _ Hp [] o g1 g' H2 (Forall_nil _))
    as (Ho & Hs & Ht).
  repeat split; auto.
Qed.

Lemma includes_char_indexOf (c : ascii) (s : string) :
  Js.includes_char c s = false -> Js.indexOf_char c s = None.
Proof. unfold Js.includes_char. now destruct (Js.indexOf_char c s). Qed.

Lemma split_char_absent (c : ascii) (s : string) :
  Js.includes_char c s = false -> Js.split_char c s = [s].
Proof.
  unfold Js.includes_char. induction s as [|a r IH]; simpl; [reflexivity|].
  destruct (Ascii.eqb a c); [discriminate|].
  destruct (Js.indexOf_char c r); simpl; [discriminate|].
  intros _. now rewrite IH.
Qed.

Lemma getComponentWrapper_plain (nm : string) (info : option ComponentInfo) (g : World) :
  Js.includes_char ":" nm = false ->
  delta nm = 0%Z ->
  exists wrapper imports,
    getComponentWrapper env nm {| method := None; value := None |} info g
    = (Ok (wrapper, imports), g)
    /\ delta wrapper = 0%Z.
Proof.
  intros Hc Hd. unfold getComponentWrapper.
  rewrite (includes_char_indexOf _ _ Hc).
  unfold bind at 1. unfold ret at 1. simpl.
  destruct (isCustomElementTag env nm).
  - unfold ret. eexists _, _. split; [reflexivity|].
    unfold stringify_element_args.
    unfold Js.quoted, Js.dq. solve_delta.
  - unfold bind, ret. simpl. eexists _, _. split; [reflexivity|].
    unfold value_or_null, Js.quoted, Js.dq. simpl. solve_delta.
Qed.

Lemma forM_importStatements_add (l : list string) (g : World) :
  exists g',
    forM_ importStatements_add l g = (Ok tt, g')
    /\ insideMarkdown (state g') = insideMarkdown (state g)
    /\ logged g' = logged g.
Proof.
  revert g. induction l as [|x l IH]; intros g; simpl.
  - exists g. now repeat split.
  - unfold bind at 1. unfold importStatements_add at 1, modify_state, modify.
    destruct (IH (mkWorld (set_importStatements (set_add x (importStatements (state g))) (state g))
                          (logged g))) as (g' & E & Hm & Hl).
    exists g'. repeat split; auto.
Qed.

Lemma enter_element_try_plain (child : TemplateNode -> M World string)
    (node : TemplateNode) (w w1 : Walk) :
  element_like (type node) = true ->
  plain node = true ->
  walk_ok w ->
  enter_element_try env child compileHtml_flush node w = (Ok tt, w1) ->
  moved (opened_delta node) (opened_delta node) w w1.
Proof.
  intros Hel Hp Hw H.
  assert (Hparts :
    zero_delta (name node) = true
    /\ Js.includes_char ":" (name node) = false
    /\ String.eqb (name node) "Markdown" = false
    /\ forallb plain_attribute (attributes node) = true).
  { destruct node as [t nm attrs ch ex cc av r d c s e]. simpl in *.
    destruct t; try discriminate Hel;
      repeat (apply andb_true_iff in Hp; destruct Hp as [Hp ?]);
      repeat split; auto; now apply negb_true_iff. }
  destruct Hparts as (Hz & Hcolon & Hmd & Hattrs).
  apply zero_delta_true in Hz.
  unfold enter_element_try in H.
  apply bind_Ok in H. destruct H as (o & wa & Ha & H).
  apply lift_world_Ok in Ha. destruct Ha as (g1 & Ha & ->).
  destruct (getAttributes_plain child node o (world w) g1 Hattrs Ha) as (Ho & Hs & Hslot).
  apply bind_Ok in H. destruct H as ([] & wb & Hb & H).
  unfold modify in Hb. inversion Hb; subst wb; clear Hb.
  set (wb := set_out _ _) in H.
  assert (Hwb : moved 0 0 w wb).
  { destruct Hw as [Hc Hm]. subst wb. walk_unfold. simpl.
    repeat split; auto; try congruence; try lia.
    destruct (String.eqb (buffers_out w) ""); solve_delta. }
  assert (Hopen : opened_delta node = if Js.truthy (Js.get "slot" o) then 2%Z else 1%Z).
  { unfold opened_delta. rewrite Hslot. destruct (type node); try discriminate Hel; reflexivity. }
  assert (Hstatic : forall tag w',
            delta tag = 0%Z ->
            open_static env compileHtml_flush tag o wb = (Ok tt, w') ->
            moved (opened_delta node) (opened_delta node) w w').
  { intros tag w' Htag Hrun.
    destruct (open_static_plain tag o wb (proj1 Hwb) Ho Htag) as (w2 & E2 & Hmv & _).
    rewrite E2 in Hrun. inversion Hrun; subst w2.
    rewrite Hopen. apply (moved_trans 0 0 _ _ w wb w'); assumption. }
  assert (Hrest :
    (if negb (isComponentTag env (name node)) then
       open_static env compileHtml_flush (Js.quoted (name node)) o
     else
       let componentName := hd "" (Js.split_char ":" (name node)) in
       st <- gets (fun w => state (world w)) ;;
       let componentInfo := lookup_component componentName st in
       if (isFrontmatterDefinedComponent componentName componentInfo st
           && negb (isCustomElementTag env componentName))
          || isFragmentComponent componentName
       then
         if Js.truthy (method (findHydrationAttributes o))
         then throw (Error (unable_to_hydrate componentName))
         else open_static env compileHtml_flush componentName o
       else if (match componentInfo with None => true | Some _ => false end)
               && negb (isCustomElementTag env componentName)
       then throw (Error (unable_to_render componentName (filename st)))
       else if String.eqb componentName "Markdown" then
         let scope_ := Js.get "$scope" o in
         lift_world (modify_state (fun s =>
           set_insideMarkdown
             (match insideMarkdown s with
              | Some m => Some (mkMarker scope_ (count m + 1))
              | None => Some (mkMarker scope_ 1)
              end) s)) ;;
         let keys := filter (fun attr => negb (String.eqb attr "$scope")) (map fst o) in
         when (negb (Nat.eqb (List.length keys) 0))
           (flush_if_markdown env compileHtml_flush ;;
            emit ("," ++ componentName ++ ".__render(" ++ generateAttributes o ++ "),")) ;;
         modify (set_curr BufferMarkdown)
       else
         wrapped <- lift_world (getComponentWrapper env (name node)
                                  (findHydrationAttributes o) componentInfo) ;;
         let '(wrapper, wrapperImports) := wrapped in
         lift_world (forM_ importStatements_add wrapperImports) ;;
         when (match method (findHydrationAttributes o) with
               | Some m => String.eqb m "only"
               | None => false
               end)
           (st' <- gets (fun w => state (world w)) ;;
            let componentImports_ :=
              match map_get componentName (componentImports st') with
              | Some l => l
              | None => []
              end in
            lift_world (forM_ importStatements_delete componentImports_)) ;;
         flush_if_markdown env compileHtml_flush ;;
         open_slot_content o ;;
         paren_incr ;;
         emit ("h(" ++ wrapper ++ ", " ++ generateAttributes o))%js wb = (Ok tt, w1)).
  { destruct (type node); try discriminate Hel; exact H. }
  clear H.
  destruct (negb (isComponentTag env (name node))).
  { assert (Hq : delta (Js.quoted (name node)) = 0%Z) by solve_delta.
    apply (Hstatic _ _ Hq Hrest). }
  rewrite (split_char_absent _ _ Hcolon) in Hrest. cbn [hd] in Hrest.
  cbv zeta in Hrest.
  apply bind_Ok in Hrest. destruct Hrest as (st & wc & Hc & Hrest).
  unfold gets in Hc. inversion Hc; subst st wc; clear Hc.
  rewrite (findHydrationAttributes_plain o Ho) in Hrest. simpl method in Hrest.
  simpl Js.truthy in Hrest.
  match type of Hrest with
  | (if ?b then _ else _) _ = _ => destruct b
  end.
  { apply (Hstatic _ _ Hz Hrest). }
  match type of Hrest with
  | (if ?b then _ else _) _ = _ => destruct b
  end.
  { unfold throw in Hrest. discriminate Hrest. }
  rewrite Hmd in Hrest.
  apply bind_Ok in Hrest. destruct Hrest as ([wrapper imports] & wc & Hc & Hrest).
  apply lift_world_Ok in Hc. destruct Hc as (gc & Hc & ->).
  match type of Hc with
  | getComponentWrapper _ _ _ ?info ?g = _ =>
      destruct (getComponentWrapper_plain (name node) info g Hcolon Hz)
        as (wrapper' & imports' & Ew & Hdw)
  end.
  rewrite Ew in Hc. inversion Hc; subst wrapper' imports' gc; clear Hc.
  apply bind_Ok in Hrest. destruct Hrest as ([] & wd & Hd & Hrest).
  apply lift_world_Ok in Hd. destruct Hd as (gd & Hd & ->).
  match type of Hd with
  | forM_ _ _ ?g = _ =>
      destruct (forM_importStatements_add imports g) as (gd' & Ed & Hmd' & Hld)
  end.
  rewrite Ed in Hd. inversion Hd; subst gd'; clear Hd.
  apply bind_Ok in Hrest. destruct Hrest as ([] & we & He & Hrest).
  simpl in He. unfold ret in He. inversion He; subst we; clear He.
  set (wd := set_world gd _) in Hrest.
  assert (Hwd : moved 0 0 w wd).
  { destruct Hwb as [[Hc' Hm'] [Hp' Hd']]. subst wd. walk_unfold. simpl in *.
    repeat split; auto; try lia. congruence. }
  apply bind_Ok in Hrest. destruct Hrest as ([] & wf & Hf & Hrest).
  rewrite flush_if_markdown_out in Hf by apply Hwd. inversion Hf; subst wf; clear Hf.
  apply bind_Ok in Hrest. destruct Hrest as ([] & wg & Hg & Hrest).
  destruct (open_slot_content_plain o wd (proj1 Hwd) Ho) as (wg' & Eg & Hmv & _).
  rewrite Eg in Hg. inversion Hg; subst wg'; clear Hg.
  pose proof (delta_generateAttributes o Ho) as Hgen.
  destruct Hmv as [[Hce Hme] [Hpe Hde]]. destruct Hwd as [_ [Hpd Hdd]].
  walk_unfold. simpl in Hrest. rewrite Hce in Hrest. simpl in Hrest.
  inversion Hrest; subst w1; clear Hrest. simpl.
  rewrite Hopen.
  repeat split; auto.
  - destruct (Js.truthy (Js.get "slot" o)); lia.
  - destruct (Js.truthy (Js.get "slot" o)); solve_delta.
Qed.

Lemma no_errors_snoc_error (l : list LogEntry) (file msg : string) :
  ~ no_errors (l ++ [LogError file msg]).
Proof.
  unfold no_errors. intros H. apply Forall_app in H. destruct H as [_ H].
  inversion H; subst. discriminate.
Qed.

Lemma enter_element_plain (child : TemplateNode -> M World string)
    (node : TemplateNode) (w w1 : Walk) (ctl : Control) :
  element_like (type node) = true ->
  plain node = true ->
  walk_ok w ->
  enter_element env child compileHtml_flush node w = (Ok ctl, w1) ->
  no_errors (logged (world w1)) ->
  ctl = Descend /\ moved (opened_delta node) (opened_delta node) w w1.
Proof.
  intros Hel Hp Hw H Hn. unfold enter_element in H.
  destruct (String.eqb (name node) ""); [unfold throw in H; discriminate H|].
  apply bind_Ok in H. destruct H as ([] & w2 & H & Hr).
  unfold ret in Hr. inversion Hr; subst ctl w2; clear Hr.
  split; [reflexivity|].
  unfold try_catch in H.
  destruct (enter_element_try env child compileHtml_flush node w) as [[[] | e |] w2] eqn:E.
  - inversion H; subst w2. now apply (enter_element_try_plain child node w w1).
  - exfalso. walk_unfold. simpl in H. inversion H; subst w1. simpl in Hn.
    now apply no_errors_snoc_error in Hn.
  - discriminate H.
Qed.

Lemma enter_slot_plain (child : TemplateNode -> M World string)
    (node : TemplateNode) (w w1 : Walk) (ctl : Control) :
  type node = Slot ->
  plain node = true ->
  walk_ok w ->
  enter_element env child compileHtml_flush node w = (Ok ctl, w1) ->
  no_errors (logged (world w1)) ->
  ctl = Descend /\ moved 1 1 w w1.
Proof.
  intros Hty Hp Hw H Hn. unfold enter_element in H.
  destruct (String.eqb (name node) ""); [unfold throw in H; discriminate H|].
  apply bind_Ok in H. destruct H as ([] & w2 & H & Hr).
  unfold ret in Hr. inversion Hr; subst ctl w2; clear Hr.
  split; [reflexivity|].
  unfold try_catch in H.
  destruct (enter_element_try env child compileHtml_flush node w) as [[[] | e |] w2] eqn:E.
  - inversion H; subst w2. clear H.
    assert (Hattrs : forallb plain_attribute (attributes node) = true).
    { destruct node as [t nm attrs ch ex cc av r d c s e]. simpl in *. subst t.
      repeat (apply andb_true_iff in Hp; destruct Hp as [Hp ?]). exact Hp. }
    unfold enter_element_try in E.
    apply bind_Ok in E. destruct E as (o & wa & Ha & E).
    apply lift_world_Ok in Ha. destruct Ha as (g1 & Ha & ->).
    destruct (getAttributes_plain child node o (world w) g1 Hattrs Ha) as (Ho & Hs & _).
    apply bind_Ok in E. destruct E as ([] & wb & Hb & E).
    unfold modify in Hb. inversion Hb; subst wb; clear Hb.
    rewrite Hty in E.
    pose proof (delta_generateAttributes o Ho) as Hgen.
    destruct Hw as [Hc Hm].
    walk_unfold. simpl in E. rewrite Hc in E. simpl in E.
    inversion E; subst w1; clear E. simpl.
    repeat split; auto; try congruence; try lia.
    destruct (String.eqb (buffers_out w) ""); solve_delta.
  - exfalso. walk_unfold. simpl in H. inversion H; subst w1. simpl in Hn.
    now apply no_errors_snoc_error in Hn.
  - discriminate H.
Qed.

Lemma emit_balanced (s : string) (w w1 : Walk) (ctl : Control) :
  walk_ok w -> delta s = 0%Z ->
  (emit s ;; ret Descend)%js w = (Ok ctl, w1) ->
  ctl = Descend /\ moved 0 0 w w1.
Proof.
  intros [Hc Hm] Hs H. walk_unfold. simpl in H. rewrite Hc in H.
  inversion H; subst. simpl. repeat split; auto; try lia.
  rewrite delta_append. lia.
Qed.

Lemma plain_not_expression_parts (node : TemplateNode) :
  plain node = true ->
  type node <> Expression ->
  forallb inert_attribute (attributes node) = true
  /\ expression node = None
  /\ forallb plain (children node) = true.
Proof.
  intros Hp Hty.
  assert (Hinert : forall l, forallb plain_attribute l = true ->
                             forallb inert_attribute l = true).
  { induction l as [|a l IH]; simpl; [reflexivity|]. intros H.
    apply andb_true_iff in H. destruct H as [Ha Hl]. rewrite (IH Hl), andb_true_r.
    unfold plain_attribute in Ha. unfold inert_attribute.
    destruct (type a); simpl in Ha; try discriminate Ha; reflexivity. }
  destruct node as [t nm attrs ch ex cc av r d c s e]. simpl in *.
  destruct t; try discriminate Hp; try congruence;
    repeat (apply andb_true_iff in Hp; destruct Hp as [Hp ?]);
    repeat split; auto;
    match goal with
    | H : is_none ex = true |- ex = None => destruct ex; [discriminate H | reflexivity]
    | _ => idtac
    end.
Qed.

Lemma enter_plain (child : TemplateNode -> M World string)
    (node : TemplateNode) (parent : option TemplateNode) (w w1 : Walk) (ctl : Control) :
  plain node = true ->
  type node <> Expression ->
  walk_ok w ->
  enter env child compileHtml_flush node parent w = (Ok ctl, w1) ->
  no_errors (logged (world w1)) ->
  ctl = Descend /\ moved (opened_paren node) (opened_delta node) w w1.
Proof.
  intros Hp Hty Hw H Hn. unfold enter in H.
  assert (Hprism : forall w2 ctl2,
            (when (String.eqb (name node) "Prism") (lift_world (inject_prism env)) ;;
             enter_element env child compileHtml_flush node)%js w = (Ok ctl2, w2) ->
            exists w0, walk_ok w0 /\ paren w0 = paren w
                       /\ buffers_out w0 = buffers_out w
                       /\ enter_element env child compileHtml_flush node w0 = (Ok ctl2, w2)).
  { intros w2 ctl2 Hrun. apply bind_Ok in Hrun. destruct Hrun as ([] & w0 & H0 & Hrun).
    exists w0. destruct Hw as [Hc Hm].
    destruct (String.eqb (name node) "Prism"); simpl in H0.
    - unfold inject_prism in H0. walk_unfold. simpl in H0.
      inversion H0; subst w0; clear H0. simpl.
      repeat split; auto.
      destruct (map_has "Prism" _); simpl; exact Hm.
    - unfold ret in H0. inversion H0; subst w0. repeat split; auto. }
  assert (Hmove : forall w0 dp dd,
            walk_ok w0 -> paren w0 = paren w -> buffers_out w0 = buffers_out w ->
            moved dp dd w0 w1 -> moved dp dd w w1).
  { intros w0 dp dd _ Hp0 Hb0 [Hok [Hp1 Hd1]]. repeat split; try apply Hok; congruence. }
  destruct (type node) eqn:Et; try (unfold plain in Hp; destruct node; simpl in *;
                                    rewrite Et in Hp; discriminate Hp);
    try congruence.
  - (* Element *)
    unfold opened_paren. rewrite Et. apply (enter_element_plain child node w w1); auto.
    now rewrite Et.
  - (* InlineComponent *)
    destruct (Hprism _ _ H) as (w0 & Hw0 & Hp0 & Hb0 & Hrun).
    unfold opened_paren. rewrite Et.
    destruct (enter_element_plain child node w0 w1 ctl) as [-> Hmv]; auto.
    { now rewrite Et. }
    split; [reflexivity|]. eapply Hmove; eauto.
  - (* Fragment *)
    apply bind_Ok in H. destruct H as ([] & w2 & He & Hr).
    unfold ret in Hr. inversion Hr; subst ctl w2; clear Hr. split; [reflexivity|].
    unfold opened_paren, opened_delta. rewrite Et.
    destruct Hw as [Hc Hm]. walk_unfold. simpl in He. rewrite Hc in He.
    inversion He; subst w1. simpl. repeat split; auto; try lia. solve_delta.
  - (* Slot *)
    destruct (Hprism _ _ H) as (w0 & Hw0 & Hp0 & Hb0 & Hrun).
    unfold opened_paren, opened_delta. rewrite Et.
    destruct (enter_slot_plain child node w0 w1 ctl) as [-> Hmv]; auto.
    split; [reflexivity|]. eapply Hmove; eauto.
  - (* SlotTemplate *)
    apply bind_Ok in H. destruct H as ([] & w2 & He & H).
    apply bind_Ok in H. destruct H as ([] & w3 & Hi & Hr).
    unfold ret in Hr. inversion Hr; subst ctl w3; clear Hr. split; [reflexivity|].
    unfold opened_paren, opened_delta. rewrite Et.
    destruct Hw as [Hc Hm]. walk_unfold. simpl in He. rewrite Hc in He.
    inversion He; subst w2. simpl in Hi. inversion Hi; subst w1. simpl.
    repeat split; auto; try lia. solve_delta.
  - (* Head *)
    destruct (Hprism _ _ H) as (w0 & Hw0 & Hp0 & Hb0 & Hrun).
    unfold opened_paren. rewrite Et.
    destruct (enter_element_plain child node w0 w1 ctl) as [-> Hmv]; auto.
    { now rewrite Et. }
    split; [reflexivity|]. eapply Hmove; eauto.
  - (* Title *)
    unfold opened_paren. rewrite Et. apply (enter_element_plain child node w w1); auto.
    now rewrite Et.
  - (* Text *)
    assert (Ht : opt_zero_delta (text_of node) = true).
    { destruct node as [t nm attrs ch ex cc av r d c s e]. simpl in *. subst t.
      repeat (apply andb_true_iff in Hp; destruct Hp as [Hp ?]). exact Hp. }
    unfold opened_paren, opened_delta. rewrite Et.
    apply bind_Ok in H. destruct H as (t & w2 & Hg & H).
    unfold getTextFromAttribute in Hg. rewrite Et in Hg. unfold text_of in Ht.
    assert (Hd : delta (join_opt t) = 0%Z /\ w2 = w
                 /\ (forall r, raw node = Some r -> delta r = 0%Z)).
    { destruct (raw node) as [r|]; [|destruct (data node) as [d|]];
        simpl in Hg; unfold ret, throw in Hg; inversion Hg; subst; simpl in *;
        repeat split; auto using zero_delta_true; try discriminate.
      intros r0 Hr0. inversion Hr0; subst. now apply zero_delta_true. }
    destruct Hd as (Hd & -> & Hraw). clear Hg.
    apply bind_Ok in H. destruct H as (st & w2 & Hg & H).
    unfold gets in Hg. inversion Hg; subst st w2; clear Hg.
    destruct Hw as [Hc Hm]. unfold is_inside in H. rewrite Hm in H.
    destruct parent as [p|]; [|unfold throw in H; discriminate H].
    destruct (negb (String.eqb (name p) "Markdown") && Js.all_space (join_opt t)).
    { unfold ret in H. inversion H; subst. split; [reflexivity|].
      apply moved_refl. now split. }
    destruct (String.eqb (name p) "code").
    + destruct (raw node) as [r|] eqn:Er; [|unfold throw in H; discriminate H].
      specialize (Hraw r eq_refl).
      refine (emit_balanced _ w w1 ctl (conj Hc Hm) _ H).
      rewrite delta_append, delta_JSON_stringify, delta_unescape_curly, Hraw.
      reflexivity.
    + refine (emit_balanced _ w w1 ctl (conj Hc Hm) _ H).
      rewrite delta_append, delta_JSON_stringify, Hd. reflexivity.
  - (* CodeSpan *)
    assert (Ht : opt_zero_delta (data node) = true).
    { destruct node as [t nm attrs ch ex cc av r d c s e]. simpl in *. subst t.
      repeat (apply andb_true_iff in Hp; destruct Hp as [Hp ?]). exact Hp. }
    unfold opened_paren, opened_delta. rewrite Et.
    apply bind_Ok in H. destruct H as (st & w2 & Hg & H).
    unfold gets in Hg. inversion Hg; subst st w2; clear Hg.
    destruct Hw as [Hc Hm]. unfold is_inside in H. rewrite Hm in H.
    assert (Hd : delta (concat_opt (option_map Js.JSON_stringify (data node))) = 0%Z).
    { destruct (data node) as [d|]; simpl in *; [|reflexivity].
      rewrite delta_JSON_stringify. now apply zero_delta_true. }
    refine (emit_balanced _ w w1 ctl (conj Hc Hm) _ H).
    rewrite delta_append, Hd. reflexivity.
  - (* CodeFence *)
    assert (Ht : opt_zero_delta (data node) = true).
    { destruct node as [t nm attrs ch ex cc av r d c s e]. simpl in *. subst t.
      repeat (apply andb_true_iff in Hp; destruct Hp as [Hp ?]). exact Hp. }
    unfold opened_paren, opened_delta. rewrite Et.
    apply bind_Ok in H. destruct H as (st & w2 & Hg & H).
    unfold gets in Hg. inversion Hg; subst st w2; clear Hg.
    destruct Hw as [Hc Hm]. unfold is_inside in H. rewrite Hm in H.
    assert (Hd : delta (concat_opt (option_map Js.JSON_stringify (data node))) = 0%Z).
    { destruct (data node) as [d|]; simpl in *; [|reflexivity].
      rewrite delta_JSON_stringify. now apply zero_delta_true. }
    refine (emit_balanced _ w w1 ctl (conj Hc Hm) _ H).
    rewrite delta_append, Hd. reflexivity.
  - (* Comment *)
    unfold ret in H. inversion H; subst. split; [reflexivity|].
    unfold opened_paren, opened_delta. rewrite Et. apply moved_refl. exact Hw.
Qed.

Lemma close_parens_plain (node : TemplateNode) (w : Walk) (p k : Z) :
  walk_ok w -> (-1 <= p)%Z -> paren w = (p + k)%Z ->
  k = (if has_slot_attribute node then 2 else 1)%Z ->
  exists w', close_parens node w = (Ok tt, w') /\ moved (- k) (- k) w w'.
Proof.
  intros [Hc Hm] Hp Hw Hk. unfold close_parens.
  destruct (has_slot_attribute node); subst k; walk_unfold; simpl.
  - destruct (Z.eqb_spec (paren w - 1) (-1)); [lia|]. simpl.
    eexists. split; [reflexivity|]. simpl. repeat split; auto; try lia. solve_delta.
  - destruct (Z.eqb_spec (paren w) (-1)); [lia|]. simpl.
    eexists. split; [reflexivity|]. simpl. repeat split; auto; try lia. solve_delta.
Qed.

Lemma leave_plain (node : TemplateNode) (w w' : Walk) (p : Z) :
  plain node = true ->
  type node <> Expression ->
  walk_ok w -> (-1 <= p)%Z -> paren w = (p + opened_paren node)%Z ->
  leave env compileHtml_flush node w = (Ok tt, w') ->
  moved (- opened_paren node) (- opened_delta node) w w'.
Proof.
  intros Hpl Hty Hw Hp Hpar H. unfold leave in H.
  assert (Hclose : forall k,
            opened_paren node = k ->
            opened_delta node = k ->
            k = (if has_slot_attribute node then 2 else 1)%Z ->
            (flush_if_markdown env compileHtml_flush ;; close_parens node)%js w = (Ok tt, w') ->
            moved (- opened_paren node) (- opened_delta node) w w').
  { intros k Hk1 Hk2 Hk Hrun. apply bind_Ok in Hrun. destruct Hrun as ([] & w0 & Hf & Hrun).
    rewrite flush_if_markdown_out in Hf by apply Hw. inversion Hf; subst w0.
    rewrite Hk1 in Hpar.
    destruct (close_parens_plain node w p k Hw Hp Hpar Hk) as (w2 & E & Hmv).
    rewrite E in Hrun. inversion Hrun; subst w2. now rewrite Hk1, Hk2. }
  assert (Hnoslot : forall t, type node = t -> (t = Slot \/ t = SlotTemplate) ->
                              has_slot_attribute node = false).
  { intros t Et Ht. destruct node as [ty nm attrs ch ex cc av r d c s e]. simpl in *.
    subst ty. destruct Ht as [-> | ->];
      repeat (apply andb_true_iff in Hpl; destruct Hpl as [Hpl ?]);
      match goal with Hs : negb _ = true |- _ => now apply negb_true_iff in Hs end. }
  destruct (type node) eqn:Et; try (unfold plain in Hpl; destruct node; simpl in *;
                                    rewrite Et in Hpl; discriminate Hpl);
    try congruence;
    try (unfold ret in H; inversion H; subst;
         unfold opened_paren, opened_delta; rewrite Et; now apply moved_refl).
  - (* Element *)
    eapply Hclose; eauto; unfold opened_paren, opened_delta; rewrite Et; reflexivity.
  - (* InlineComponent *)
    assert (Hmd : String.eqb (name node) "Markdown" = false).
    { destruct node as [ty nm attrs ch ex cc av r d c s e]. simpl in *. subst ty.
      repeat (apply andb_true_iff in Hpl; destruct Hpl as [Hpl ?]).
      match goal with Hs : negb (String.eqb nm "Markdown") = true |- _ =>
        now apply negb_true_iff in Hs end. }
    rewrite Hmd in H.
    apply bind_Ok in H. destruct H as (done & w0 & Hd & H).
    unfold ret in Hd. inversion Hd; subst done w0; clear Hd.
    apply bind_Ok in H. destruct H as (w0 & w0' & Hg & H).
    unfold gets in Hg. inversion Hg; subst w0 w0'; clear Hg.
    unfold curr_is_markdown in H. destruct Hw as [Hc Hm]. rewrite Hc in H. simpl in H.
    destruct (close_parens_plain node w p (opened_paren node) (conj Hc Hm) Hp Hpar)
      as (w2 & E & Hmv).
    { unfold opened_paren, opened_delta. rewrite Et. reflexivity. }
    rewrite E in H. inversion H; subst w2.
    assert (Heq : opened_delta node = opened_paren node)
      by (unfold opened_paren; now rewrite Et).
    now rewrite Heq.
  - (* Fragment *)
    destruct Hw as [Hc Hm]. unfold opened_paren, opened_delta. rewrite Et.
    walk_unfold. simpl in H. rewrite Hc in H. inversion H; subst. simpl.
    repeat split; auto; try lia. solve_delta.
  - (* Slot *)
    eapply Hclose; eauto; unfold opened_paren, opened_delta; rewrite Et; try reflexivity.
    rewrite (Hnoslot Slot); auto.
  - (* SlotTemplate *)
    eapply Hclose; eauto; unfold opened_paren, opened_delta; rewrite Et; try reflexivity.
    rewrite (Hnoslot SlotTemplate); auto.
  - (* Head *)
    eapply Hclose; eauto; unfold opened_paren, opened_delta; rewrite Et; reflexivity.
  - (* Title *)
    eapply Hclose; eauto; unfold opened_paren, opened_delta; rewrite Et; reflexivity.
Qed.

Lemma visit_inert (a : TemplateNode) (parent : option TemplateNode) (w : Walk) :
  inert_attribute a = true ->
  visit env compileHtml_flush a parent w = (Ok tt, w).
Proof.
  intros H. rewrite visit_unfold. unfold enter, inert_attribute in *.
  destruct (type a); try discriminate H; reflexivity.
Qed.

Lemma visit_all_inert (l : list TemplateNode) (parent : option TemplateNode) (w : Walk) :
  forallb inert_attribute l = true ->
  forM_ (fun c => visit env compileHtml_flush c parent) l w = (Ok tt, w).
Proof.
  induction l as [|a l IH]; simpl; intros H; [reflexivity|].
  apply andb_true_iff in H. destruct H as [Ha Hl].
  unfold bind. rewrite (visit_inert a parent w Ha). now apply IH.
Qed.

Lemma delta_interleave (chunks cs : list string) :
  Forall (fun s => delta s = 0%Z) cs ->
  delta (interleave chunks cs) = delta (concat_all chunks).
Proof.
  revert cs. induction chunks as [|chunk chunks IH]; intros cs Hcs; [reflexivity|].
  destruct cs as [|c cs]; simpl.
  - rewrite !delta_append, IH by constructor. reflexivity.
  - inversion Hcs; subst. rewrite !delta_append, IH by assumption. lia.
Qed.

Lemma compileHtml_of_walk_Ok (walk : M Walk unit) (g g' : World) (html : string) :
  compileHtml_of_walk walk g = (Ok html, g') ->
  exists w', walk (fresh_walk g) = (Ok tt, w')
             /\ html = cleanup (buffers_out w') /\ g' = world w'.
Proof.
  unfold compileHtml_of_walk.
  destruct (walk (fresh_walk g)) as [[[] | e |] w']; intros H; inversion H; subst.
  now exists w'.
Qed.

Lemma log_extends_child (c : TemplateNode) :
  respects log_extends (compileHtml_of_walk (visit env compileHtml_flush c None)).
Proof.
  apply respects_compileHtml_of_walk. now apply log_extends_visit.
Qed.

Lemma mapM_children_plain (n : nat) (l : list TemplateNode) :
  visit_keeps_balance env compileHtml_flush n ->
  (forall c, In c l -> (node_size c <= n)%nat /\ plain c = true) ->
  forall g cs g',
    mapM (fun child => compileHtml_of_walk (visit env compileHtml_flush child None)) l g
    = (Ok cs, g') ->
    insideMarkdown (state g) = None ->
    no_errors (logged g') ->
    Forall (fun s => delta s = 0%Z) cs /\ insideMarkdown (state g') = None.
Proof.
  intros IH. induction l as [|c l IHl]; intros Hl g cs g' H Hm Hn; simpl in H.
  - unfold ret in H. inversion H; subst. split; [constructor | exact Hm].
  - apply bind_Ok in H. destruct H as (html & g1 & Hc & H).
    apply bind_Ok in H. destruct H as (cs' & g2 & Hr & H).
    unfold ret in H. inversion H; subst cs g2; clear H.
    assert (Hn1 : no_errors (logged g1)).
    { apply (no_errors_before g1 g'); [|exact Hn].
      assert (Hx : respects log_extends
                (mapM (fun child =>
                   compileHtml_of_walk (visit env compileHtml_flush child None)) l)).
      { apply respects_mapM; try log_extends_side. intros x _. apply log_extends_child. }
      specialize (Hx g1). now rewrite Hr in Hx. }
    apply compileHtml_of_walk_Ok in Hc. destruct Hc as (wc & Hv & -> & ->).
    destruct (Hl c (or_introl eq_refl)) as [Hsz Hpl].
    assert (Hmv : moved 0 0 (fresh_walk g) wc).
    { apply (IH c Hsz Hpl None (fresh_walk g) wc Hv); simpl; auto; try lia.
      now split. }
    destruct Hmv as [[Hcc Hmc] [_ Hd]]. simpl in Hd.
    destruct (IHl (fun x Hx => Hl x (or_intror Hx)) (world wc) cs' g' Hr Hmc Hn)
      as [Hcs Hm'].
    split; [|exact Hm']. constructor; [|exact Hcs].
    rewrite delta_cleanup. rewrite Hd. reflexivity.
Qed.

Lemma enter_expression_plain (n : nat) (node : TemplateNode)
    (parent : option TemplateNode) (w w1 : Walk) (ctl : Control) :
  visit_keeps_balance env compileHtml_flush n ->
  (node_size node <= S n)%nat ->
  plain node = true ->
  type node = Expression ->
  enter env (fun child => compileHtml_of_walk (visit env compileHtml_flush child None))
        compileHtml_flush node parent w = (Ok ctl, w1) ->
  walk_ok w ->
  no_errors (logged (world w1)) ->
  ctl = SkipNode /\ moved 0 0 w w1.
Proof.
  intros IH Hsz Hpl Hty H [Hc Hm] Hn.
  assert (Hparts : zero_delta (concat_all (codeChunks node)) = true
                   /\ forallb plain (children node) = true).
  { destruct node as [ty nm attrs ch ex cc av r d c s e]. simpl in *. subst ty.
    apply andb_true_iff in Hpl. exact Hpl. }
  destruct Hparts as [Hchunks Hkids]. apply zero_delta_true in Hchunks.
  unfold enter in H. rewrite Hty in H.
  apply bind_Ok in H. destruct H as (code & wa & Ha & H).
  apply lift_world_Ok in Ha. destruct Ha as (g2 & Ha & ->).
  assert (Hn2 : no_errors (logged g2)).
  { destruct (set_has code FALSY_EXPRESSIONS).
    - unfold ret in H. inversion H; subst. exact Hn.
    - apply bind_Ok in H. destruct H as ([] & wb & Hb & H).
      unfold ret in H. inversion H; subst ctl wb; clear H.
      destruct (negb (String.eqb code "")); simpl in Hb.
      + walk_unfold. simpl in Hb.
        destruct (insideMarkdown (state g2)); rewrite Hc in Hb;
          inversion Hb; subst; exact Hn.
      + unfold ret in Hb. inversion Hb; subst. exact Hn. }
  unfold compileExpression in Ha.
  apply bind_Ok in Ha. destruct Ha as (cs & g1 & Hmap & Ha).
  apply bind_Ok in Ha. destruct Ha as (code0 & g1' & Ht & Ha).
  unfold transpileExpressionSafe in Ht.
  destruct (transformSync env ("(" ++ interleave (codeChunks node) cs ++ ")"))
    as [c0 | e] eqn:Et.
  2:{ apply bind_Ok in Ht. destruct Ht as (st & gx & _ & Ht).
      destruct (positionAt env (start node) (readFileSync env (filename st))).
      apply bind_Ok in Ht. destruct Ht as (? & gy & _ & Ht).
      unfold ret in Ht. inversion Ht; subst code0.
      unfold throw in Ha. discriminate Ha. }
  unfold ret in Ht. inversion Ht; subst code0 g1'; clear Ht.
  unfold ret in Ha. inversion Ha; subst code g2; clear Ha.
  destruct (mapM_children_plain n (children node) IH) with (g := world w) (cs := cs) (g' := g1)
    as [Hcs Hm1]; auto.
  { intros c Hin. split.
    - apply node_size_child in Hin. lia.
    - rewrite forallb_forall in Hkids. now apply Hkids. }
  assert (Hcode : delta (strip_final_semicolon (Js.trim c0)) = 0%Z).
  { rewrite delta_strip_final_semicolon, delta_trim.
    apply (env_balance _ _ Et).
    pose proof (delta_interleave (codeChunks node) cs Hcs) as Hi.
    rewrite Hchunks in Hi. solve_delta. }
  set (code := strip_final_semicolon (Js.trim c0)) in *.
  destruct (set_has code FALSY_EXPRESSIONS).
  { unfold ret in H. inversion H; subst. split; [reflexivity|].
    repeat split; simpl; auto; lia. }
  apply bind_Ok in H. destruct H as ([] & wb & Hb & H).
  unfold ret in H. inversion H; subst ctl wb; clear H. split; [reflexivity|].
  destruct (negb (String.eqb code "")); simpl in Hb.
  - walk_unfold. simpl in Hb. rewrite Hm1, Hc in Hb. inversion Hb; subst. simpl.
    repeat split; auto; try lia. solve_delta.
  - unfold ret in Hb. inversion Hb; subst. repeat split; simpl; auto; lia.
Qed.

Lemma log_extends_visit_all (l : list TemplateNode) (parent : option TemplateNode) :
  respects_walk log_extends (forM_ (fun c => visit env compileHtml_flush c parent) l).
Proof.
  apply rw_forM_; try log_extends_side. intros c _. now apply log_extends_visit.
Qed.

Lemma forM_visit_plain (n : nat) (l : list TemplateNode) (parent : option TemplateNode) :
  visit_keeps_balance env compileHtml_flush n ->
  (forall c, In c l -> (node_size c <= n)%nat /\ plain c = true) ->
  forall w w',
    forM_ (fun c => visit env compileHtml_flush c parent) l w = (Ok tt, w') ->
    walk_ok w -> (-1 <= paren w)%Z ->
    no_errors (logged (world w')) ->
    moved 0 0 w w'.
Proof.
  intros IH. induction l as [|c l IHl]; intros Hl w w' H Hw Hp Hn; simpl in H.
  - unfold ret in H. inversion H; subst. now apply moved_refl.
  - apply bind_Ok in H. destruct H as ([] & w1 & Hc & H).
    assert (Hn1 : no_errors (logged (world w1))).
    { apply (no_errors_before (world w1) (world w')); [|exact Hn].
      pose proof (log_extends_visit_all l parent w1) as Hx. now rewrite H in Hx. }
    destruct (Hl c (or_introl eq_refl)) as [Hsz Hpl].
    pose proof (IH c Hsz Hpl parent w w1 Hc Hw Hp Hn1) as Hmv1.
    assert (Hmv2 : moved 0 0 w1 w').
    { apply IHl; auto.
      - intros x Hx. apply Hl. now right.
      - apply Hmv1.
      - destruct Hmv1 as [_ [Hp1 _]]. lia. }
    apply (moved_trans 0 0 0 0 w w1 w'); assumption.
Qed.

Lemma visit_keeps_balance_all (n : nat) : visit_keeps_balance env compileHtml_flush n.
Proof.
  induction n as [|n IH]; intros node Hsz Hpl parent w w' H Hw Hp Hn.
  - rewrite node_size_unfold in Hsz. lia.
  - rewrite visit_unfold in H.
    apply bind_Ok in H. destruct H as (ctl & w1 & He & H).
    assert (Hdec : type node = Expression \/ type node <> Expression)
      by (destruct (type node); (now left) || (right; discriminate)).
    destruct Hdec as [Hty | Hty].
    + assert (Hn1 : no_errors (logged (world w1))).
      { destruct ctl.
        - apply (no_errors_before (world w1) (world w')); [|exact Hn].
          assert (Hx : respects_walk log_extends
                    (forM_ (fun c => visit env compileHtml_flush c (Some node)) (attributes node) ;;
                     match expression node with
                     | Some e => visit env compileHtml_flush e (Some node)
                     | None => ret tt
                     end ;;
                     forM_ (fun c => visit env compileHtml_flush c (Some node)) (children node) ;;
                     leave env compileHtml_flush node)%js).
          { repeat (apply rw_bind; try log_extends_side; try intro);
              try apply log_extends_visit_all; try (now apply log_extends_leave).
            destruct (expression node); [now apply log_extends_visit|].
            apply rw_ret; log_extends_side. }
          specialize (Hx w1). now rewrite H in Hx.
        - unfold ret in H. inversion H; subst. exact Hn. }
      destruct (enter_expression_plain n node parent w w1 ctl IH Hsz Hpl Hty He Hw Hn1)
        as [-> Hmv].
      unfold ret in H. inversion H; subst. exact Hmv.
    + assert (Hn1 : no_errors (logged (world w1))).
      { destruct ctl.
        - apply (no_errors_before (world w1) (world w')); [|exact Hn].
          assert (Hx : respects_walk log_extends
                    (forM_ (fun c => visit env compileHtml_flush c (Some node)) (attributes node) ;;
                     match expression node with
                     | Some e => visit env compileHtml_flush e (Some node)
                     | None => ret tt
                     end ;;
                     forM_ (fun c => visit env compileHtml_flush c (Some node)) (children node) ;;
                     leave env compileHtml_flush node)%js).
          { repeat (apply rw_bind; try log_extends_side; try intro);
              try apply log_extends_visit_all; try (now apply log_extends_leave).
            destruct (expression node); [now apply log_extends_visit|].
            apply rw_ret; log_extends_side. }
          specialize (Hx w1). now rewrite H in Hx.
        - unfold ret in H. inversion H; subst. exact Hn. }
      destruct (enter_plain _ node parent w w1 ctl Hpl Hty Hw He Hn1) as [-> Hmv1].
      destruct (plain_not_expression_parts node Hpl Hty) as (Hattrs & Hex & Hkids).
      apply bind_Ok in H. destruct H as ([] & w2 & Ha & H).
      rewrite (visit_all_inert _ _ _ Hattrs) in Ha. inversion Ha; subst w2; clear Ha.
      rewrite Hex in H.
      apply bind_Ok in H. destruct H as ([] & w2 & Ha & H).
      unfold ret in Ha. inversion Ha; subst w2; clear Ha.
      apply bind_Ok in H. destruct H as ([] & w3 & Hk & Hl).
      assert (Hn3 : no_errors (logged (world w3))).
      { apply (no_errors_before (world w3) (world w')); [|exact Hn].
        pose proof (log_extends_leave env compileHtml_flush node flush_log w3) as Hx.
        now rewrite Hl in Hx. }
      destruct Hmv1 as [Hok1 [Hp1 Hd1]].
      assert (Hop : (0 <= opened_paren node)%Z).
      { unfold opened_paren, opened_delta.
        destruct (type node); try lia; destruct (has_slot_attribute node); lia. }
      assert (Hmv2 : moved 0 0 w1 w3).
      { apply (forM_visit_plain n (children node) (Some node) IH); auto; [|lia].
        intros c Hin. split.
        - apply node_size_child in Hin. lia.
        - rewrite forallb_forall in Hkids. now apply Hkids. }
      destruct Hmv2 as [Hok3 [Hp3 Hd3]].
      assert (Hmv3 : moved (- opened_paren node) (- opened_delta node) w3 w').
      { apply (leave_plain node w3 w' (paren w)); auto. lia. }
      destruct Hmv3 as [Hok' [Hp' Hd']].
      repeat split; try apply Hok'; lia.
Qed.

End PlainWalk.

(** [compileHtml] on literal markup: when it returns and nothing went to
    the sink through [error], the string has as many ['('] as [')']. *)
Lemma compileHtml_plain_balanced (env : Env) (fuel : nat) (node : TemplateNode)
    (g g' : World) (html : string) :
  transpiler_keeps_balance env ->
  plain node = true ->
  insideMarkdown (state g) = None ->
  compileHtml env fuel node g = (Ok html, g') ->
  no_errors (logged g') ->
  balanced html /\ insideMarkdown (state g') = None.
Proof.
  intros Henv Hpl Hm H Hn. destruct fuel as [|fuel]; [discriminate H|].
  simpl in H. apply compileHtml_of_walk_Ok in H. destruct H as (w' & Hv & -> & ->).
  assert (Hmv : moved 0 0 (fresh_walk g) w').
  { apply (visit_keeps_balance_all env (compileHtml env fuel)
             (log_extends_compileHtml env fuel) Henv (node_size node) node
             (le_n _) Hpl None (fresh_walk g) w' Hv); simpl; auto; try lia.
    now split. }
  destruct Hmv as [[_ Hm'] [_ Hd]]. simpl in Hd. split; [|exact Hm'].
  unfold balanced. pose proof (delta_cleanup (buffers_out w')) as Hc.
  unfold delta in *. lia.
Qed.

Lemma same_marker_before_template (env : Env) (ast : Ast) (g g1 g2 : World)
    (compiled : string * option string) :
  compileModule env (meta_features ast) (ast_module ast) g = (Ok compiled, g1) ->
  forM_ (fun style =>
           styles <- of_fallible (compileCss style) ;;
           modify_state (fun s => set_css (css s ++ styles)%list s))
        (ast_css ast) g1 = (Ok tt, g2) ->
  insideMarkdown (state g2) = insideMarkdown (state g).
Proof.
  intros H1 H2.
  assert (Hrefl : forall x, same_marker x x) by reflexivity.
  assert (Htrans : forall x y z, same_marker x y -> same_marker y z -> same_marker x z)
    by (unfold same_marker; intros; congruence).
  assert (Hlog : forall x e, same_marker x (mkWorld (state x) (logged x ++ [e])))
    by reflexivity.
  assert (Hstate : forall x st, insideMarkdown st = insideMarkdown (state x) ->
                                same_marker x (mkWorld st (logged x)))
    by (intros x st E; exact E).
  pose proof (respects_compileModule same_marker Hrefl Htrans Hlog Hstate env
                (meta_features ast) (ast_module ast) g) as Ha.
  pose proof (respects_styles same_marker Hrefl Htrans Hstate (ast_css ast) g1) as Hb.
  rewrite H1 in Ha. rewrite H2 in Hb. unfold same_marker in *. simpl in *. congruence.
Qed.


Lemma sample_transpiler_keeps_balance (program : list BabelNode) :
  transpiler_keeps_balance (sample_env_parsing program).
Proof.
  intros raw_ code H Hd. simpl in H. unfold sample_transformSync in H.
  destruct (Js.includes_char "@" raw_); [discriminate H|].
  inversion H; subst. unfold Js.nl. solve_delta.
Qed.


(** ** A single static element (C3) *)




(** ** Errors in the walk (C2, C6) *)

Lemma bind_Throw {S A B : Type} (m : M S A) (k : A -> M S B) (s s' : S) (e : JsError) :
  m s = (Throw e, s') -> bind m k s = (Throw e, s').
Proof. intros H. unfold bind. now rewrite H. Qed.

Lemma error_toString_unable_to_render (componentName filename_ : string) :
  error_toString (Error (unable_to_render componentName filename_))
  = "Error: " ++ unable_to_render componentName filename_.
Proof. reflexivity. Qed.



Lemma compileExpression_fails (env : Env) (child : TemplateNode -> M World string)
    (node : TemplateNode) (g g1 : World) (cs : list string) (e : EsbuildMessage) :
  mapM child (children node) g = (Ok cs, g1) ->
  transformSync env ("(" ++ interleave (codeChunks node) cs ++ ")") = inr e ->
  exists line column frame,
    compileExpression env child node g
    = (Throw (Error "Unable to compile expression"),
       mkWorld (state g1)
         (logged g1 ++ [LogParseError (filename (state g1)) line column frame (text e)])).
Proof.
  intros Hmap Ht. unfold compileExpression.
  unfold bind at 1. rewrite Hmap.
  unfold bind at 1. unfold transpileExpressionSafe. rewrite Ht.
  unfold bind at 1. unfold gets at 1.
  destruct (positionAt env (start node) (readFileSync env (filename (state g1))))
    as [line0 character0].
  eexists _, _, _. reflexivity.
Qed.



(* ================================================================= *)
(** ** The frontmatter (C7, C10) *)

Lemma traverse_list_fix (f : string) (l : list BabelNode) :
  (fix all (l : list BabelNode) : fallible (list BabelNode) :=
     match l with
     | [] => Returns []
     | n :: r =>
         fallible_bind (traverse_fetchContent f n) (fun n' =>
         fallible_bind (all r) (fun r' => Returns (n' :: r')))
     end) l = traverse_program f l.
Proof.
  induction l as [|n l IH]; [reflexivity|].
  simpl. now rewrite IH.
Qed.

Lemma traverse_fetchContent_unfold (f : string) (node : BabelNode) :
  traverse_fetchContent f node =
    match node with
    | Identifier _ | StringLiteral _ | ImportDeclaration _ _ _ _ => Returns node
    | MemberExpression object property computed =>
        fallible_bind (traverse_fetchContent f object) (fun object' =>
        fallible_bind (traverse_fetchContent f property) (fun property' =>
        Returns (MemberExpression object' property' computed)))
    | CallExpression callee arguments =>
        if is_fetchContent_callee callee then
          fallible_bind (wrap_arguments f arguments) (fun _ =>
          fallible_bind (traverse_fetchContent f callee) (fun callee' =>
          fallible_bind (traverse_program f arguments) (fun arguments' =>
          Returns (CallExpression callee' [CallExpression globEager_callee arguments']))))
        else
          fallible_bind (traverse_fetchContent f callee) (fun callee' =>
          fallible_bind (traverse_program f arguments) (fun arguments' =>
          Returns (CallExpression callee' arguments')))
    | MetaProperty meta property =>
        fallible_bind (traverse_fetchContent f meta) (fun meta' =>
        fallible_bind (traverse_fetchContent f property) (fun property' =>
        Returns (MetaProperty meta' property')))
    | VariableDeclarator id init =>
        fallible_bind (traverse_fetchContent f id) (fun id' =>
        fallible_bind (fallible_option (traverse_fetchContent f) init) (fun init' =>
        Returns (VariableDeclarator id' init')))
    | VariableDeclaration kind declarations_ =>
        fallible_bind (traverse_program f declarations_)
          (fun d' => Returns (VariableDeclaration kind d'))
    | FunctionDeclaration id rest =>
        fallible_bind (fallible_option (traverse_fetchContent f) id) (fun id' =>
        fallible_bind (traverse_program f rest)
          (fun rest' => Returns (FunctionDeclaration id' rest')))
    | ExportNamedDeclaration declaration specifiers start_ end__ =>
        fallible_bind (fallible_option (traverse_fetchContent f) declaration)
          (fun declaration' =>
        fallible_bind (traverse_program f specifiers) (fun specifiers' =>
        Returns (ExportNamedDeclaration declaration' specifiers' start_ end__)))
    | OtherNode type_ name_ children_ =>
        fallible_bind (traverse_program f children_)
          (fun c' => Returns (OtherNode type_ name_ c'))
    end.
Proof.
  destruct node; simpl; rewrite ?traverse_list_fix; reflexivity.
Qed.

Lemma fallible_bind_Returns {A B : Type} (r : fallible A) (k : A -> fallible B) (b : B) :
  fallible_bind r k = Returns b -> exists a, r = Returns a /\ k a = Returns b.
Proof. destruct r as [a|e]; simpl; intros H; [now exists a | discriminate H]. Qed.

Lemma fallible_option_Returns (f : BabelNode -> fallible BabelNode)
    (o o' : option BabelNode) (c : BabelNode) :
  fallible_option f o = Returns o' -> In c (option_list o) ->
  exists c', f c = Returns c' /\ In c' (option_list o').
Proof.
  destruct o as [a|]; simpl; [|tauto].
  intros H [<- | []]. apply fallible_bind_Returns in H. destruct H as (a' & Ha & H).
  inversion H; subst. exists a'. split; [exact Ha | now left].
Qed.

Lemma traverse_program_In (f : string) (l l' : list BabelNode) (c : BabelNode) :
  traverse_program f l = Returns l' -> In c l ->
  exists c', traverse_fetchContent f c = Returns c' /\ In c' l'.
Proof.
  revert l'. induction l as [|n l IH]; intros l' H Hin; [destruct Hin|].
  simpl in H. apply fallible_bind_Returns in H. destruct H as (n' & Hn & H).
  apply fallible_bind_Returns in H. destruct H as (r' & Hr & H).
  inversion H; subst. destruct Hin as [<- | Hin].
  - exists n'. split; [exact Hn | now left].
  - destruct (IH r' Hr Hin) as (c' & Hc & Hin'). exists c'. split; [exact Hc | now right].
Qed.

Lemma traverse_program_head (f : string) (l l' : list BabelNode) (s : string)
    (rest : list BabelNode) :
  traverse_program f l = Returns l' -> l = StringLiteral s :: rest ->
  exists rest', l' = StringLiteral s :: rest'.
Proof.
  intros H ->. simpl in H. apply fallible_bind_Returns in H. destruct H as (r' & Hr & H).
  inversion H; subst. now exists r'.
Qed.

Lemma traverse_node_name (f : string) (n n' : BabelNode) :
  traverse_fetchContent f n = Returns n' -> node_name n' = node_name n.
Proof.
  rewrite traverse_fetchContent_unfold. destruct n; intros H;
    try (inversion H; subst; reflexivity);
    repeat (apply fallible_bind_Returns in H; destruct H as (? & ? & H));
    try (inversion H; subst; reflexivity).
  destruct (is_fetchContent_callee n);
    repeat (apply fallible_bind_Returns in H; destruct H as (? & ? & H));
    inversion H; subst; reflexivity.
Qed.

Lemma traverse_callee (f : string) (callee callee' : BabelNode) :
  traverse_fetchContent f callee = Returns callee' ->
  is_fetchContent_callee callee' = is_fetchContent_callee callee.
Proof.
  rewrite traverse_fetchContent_unfold. destruct callee; intros H;
    try (inversion H; subst; reflexivity);
    try (repeat (apply fallible_bind_Returns in H; destruct H as (? & ? & H));
         inversion H; subst; reflexivity).
  - apply fallible_bind_Returns in H. destruct H as (o' & Ho & H).
    apply fallible_bind_Returns in H. destruct H as (p' & Hp & H).
    inversion H; subst. simpl.
    now rewrite (traverse_node_name f _ _ Ho), (traverse_node_name f _ _ Hp).
  - destruct (is_fetchContent_callee callee);
      repeat (apply fallible_bind_Returns in H; destruct H as (? & ? & H));
      inversion H; subst; reflexivity.
Qed.

Lemma occurs_trans (a b c : BabelNode) : occurs a b -> occurs b c -> occurs a c.
Proof.
  intros Hab Hbc. induction Hbc as [|x root Hin Hbx IH]; [exact Hab|].
  eapply occurs_below; eauto.
Qed.

Lemma occurs_child (c root : BabelNode) : In c (babel_children root) -> occurs c root.
Proof. intros H. eapply occurs_below; [exact H | constructor]. Qed.

Lemma traverse_children (f : string) (root root' c : BabelNode) :
  traverse_fetchContent f root = Returns root' ->
  In c (babel_children root) ->
  exists c', traverse_fetchContent f c = Returns c' /\ occurs c' root'.
Proof.
  rewrite traverse_fetchContent_unfold. destruct root; simpl; intros H Hin;
    try (destruct Hin; fail).
  - (* MemberExpression *)
    apply fallible_bind_Returns in H. destruct H as (o' & Ho & H).
    apply fallible_bind_Returns in H. destruct H as (p' & Hp & H).
    inversion H; subst.
    destruct Hin as [<- | [<- | []]]; eexists; (split; [eassumption|]);
      apply occurs_child; simpl; auto.
  - (* CallExpression *)
    destruct (is_fetchContent_callee root).
    + apply fallible_bind_Returns in H. destruct H as (? & _ & H).
      apply fallible_bind_Returns in H. destruct H as (callee' & Hc & H).
      apply fallible_bind_Returns in H. destruct H as (args' & Ha & H).
      inversion H; subst. destruct Hin as [<- | Hin].
      * exists callee'. split; [exact Hc|]. apply occurs_child. now left.
      * destruct (traverse_program_In f _ _ c Ha Hin) as (c' & Hc' & Hin').
        exists c'. split; [exact Hc'|].
        eapply occurs_below; [right; left; reflexivity|].
        apply occurs_child. now right.
    + apply fallible_bind_Returns in H. destruct H as (callee' & Hc & H).
      apply fallible_bind_Returns in H. destruct H as (args' & Ha & H).
      inversion H; subst. destruct Hin as [<- | Hin].
      * exists callee'. split; [exact Hc|]. apply occurs_child. now left.
      * destruct (traverse_program_In f _ _ c Ha Hin) as (c' & Hc' & Hin').
        exists c'. split; [exact Hc'|]. apply occurs_child. now right.
  - (* MetaProperty *)
    apply fallible_bind_Returns in H. destruct H as (o' & Ho & H).
    apply fallible_bind_Returns in H. destruct H as (p' & Hp & H).
    inversion H; subst.
    destruct Hin as [<- | [<- | []]]; eexists; (split; [eassumption|]);
      apply occurs_child; simpl; auto.
  - (* VariableDeclarator *)
    apply fallible_bind_Returns in H. destruct H as (id' & Hi & H).
    apply fallible_bind_Returns in H. destruct H as (init' & Hn & H).
    inversion H; subst. destruct Hin as [<- | Hin].
    + exists id'. split; [exact Hi|]. apply occurs_child. now left.
    + destruct (fallible_option_Returns _ _ _ c Hn Hin) as (c' & Hc' & Hin').
      exists c'. split; [exact Hc'|]. apply occurs_child. now right.
  - (* VariableDeclaration *)
    apply fallible_bind_Returns in H. destruct H as (d' & Hd & H).
    inversion H; subst.
    destruct (traverse_program_In f _ _ c Hd Hin) as (c' & Hc' & Hin').
    exists c'. split; [exact Hc'|]. now apply occurs_child.
  - (* FunctionDeclaration *)
    apply fallible_bind_Returns in H. destruct H as (id' & Hi & H).
    apply fallible_bind_Returns in H. destruct H as (rest' & Hr & H).
    inversion H; subst. apply in_app_or in Hin. destruct Hin as [Hin | Hin].
    + destruct (fallible_option_Returns _ _ _ c Hi Hin) as (c' & Hc' & Hin').
      exists c'. split; [exact Hc'|]. apply occurs_child. simpl. apply in_or_app. now left.
    + destruct (traverse_program_In f _ _ c Hr Hin) as (c' & Hc' & Hin').
      exists c'. split; [exact Hc'|]. apply occurs_child. simpl. apply in_or_app. now right.
  - (* ExportNamedDeclaration *)
    apply fallible_bind_Returns in H. destruct H as (d' & Hd & H).
    apply fallible_bind_Returns in H. destruct H as (s' & Hs & H).
    inversion H; subst. apply in_app_or in Hin. destruct Hin as [Hin | Hin].
    + destruct (fallible_option_Returns _ _ _ c Hd Hin) as (c' & Hc' & Hin').
      exists c'. split; [exact Hc'|]. apply occurs_child. simpl. apply in_or_app. now left.
    + destruct (traverse_program_In f _ _ c Hs Hin) as (c' & Hc' & Hin').
      exists c'. split; [exact Hc'|]. apply occurs_child. simpl. apply in_or_app. now right.
  - (* OtherNode *)
    apply fallible_bind_Returns in H. destruct H as (c0 & Hc0 & H).
    inversion H; subst.
    destruct (traverse_program_In f _ _ c Hc0 Hin) as (c' & Hc' & Hin').
    exists c'. split; [exact Hc'|]. now apply occurs_child.
Qed.

(** The traversal wraps the arguments of every [Astro.fetchContent] call
    whose first argument is a string literal, wherever the call is. *)
Lemma traverse_wraps (f : string) (call root : BabelNode) :
  occurs call root ->
  forall callee s rest root',
    call = CallExpression callee (StringLiteral s :: rest) ->
    is_fetchContent_callee callee = true ->
    traverse_fetchContent f root = Returns root' ->
    exists callee' rest',
      occurs (CallExpression callee'
                [CallExpression globEager_callee (StringLiteral s :: rest')]) root'
      /\ is_fetchContent_callee callee' = true.
Proof.
  induction 1 as [|c root Hin Hocc IH]; intros callee s rest root' -> Hcallee Ht.
  - rewrite traverse_fetchContent_unfold in Ht. rewrite Hcallee in Ht.
    apply fallible_bind_Returns in Ht. destruct Ht as (? & _ & Ht).
    apply fallible_bind_Returns in Ht. destruct Ht as (callee' & Hc & Ht).
    apply fallible_bind_Returns in Ht. destruct Ht as (args' & Ha & Ht).
    inversion Ht; subst.
    destruct (traverse_program_head f _ _ s rest Ha eq_refl) as (rest' & ->).
    exists callee', rest'. split; [constructor|].
    now rewrite (traverse_callee f _ _ Hc).
  - destruct (traverse_children f root root' c Ht Hin) as (c' & Hc' & Hocc').
    destruct (IH callee s rest c' eq_refl Hcallee Hc') as (callee' & rest' & Ho & Hf).
    exists callee', rest'. split; [|exact Hf]. eapply occurs_trans; eauto.
Qed.

(** The traversal throws when it meets an [Astro.fetchContent] call whose
    first argument is not a string literal. *)
Lemma traverse_throws (f : string) (call root : BabelNode) :
  occurs call root ->
  is_fetchContent_call call = true ->
  first_argument_is_literal call = false ->
  exists e, traverse_fetchContent f root = Throws e.
Proof.
  induction 1 as [|c root Hin Hocc IH]; intros Hcall Hlit.
  - destruct call; try discriminate Hcall. simpl in Hcall.
    rewrite traverse_fetchContent_unfold. rewrite Hcall.
    unfold first_argument_is_literal in Hlit. simpl in Hlit.
    destruct arguments as [|a args]; simpl; [eexists; reflexivity|].
    destruct a; try discriminate Hlit; simpl; eexists; reflexivity.
  - destruct (IH Hcall Hlit) as (e & He).
    destruct (traverse_fetchContent f root) as [root'|e'] eqn:Hr; [|now exists e'].
    destruct (traverse_children f root root' c Hr Hin) as (c' & Hc' & _).
    rewrite He in Hc'. discriminate Hc'.
Qed.

(** *** The import statements only grow in [compileModule] *)

Lemma imports_grow_refl (g : World) : imports_grow g g.
Proof. apply incl_refl. Qed.

Lemma imports_grow_trans (g1 g2 g3 : World) :
  imports_grow g1 g2 -> imports_grow g2 g3 -> imports_grow g1 g3.
Proof. apply incl_tran. Qed.

Lemma imports_grow_log (g : World) (e : LogEntry) :
  imports_grow g (mkWorld (state g) (logged g ++ [e])).
Proof. apply incl_refl. Qed.

Lemma imports_grow_modify (f : CodegenState -> CodegenState) :
  (forall s, incl (importStatements s) (importStatements (f s))) ->
  respects imports_grow (modify_state f).
Proof. intros H g. apply H. Qed.

Lemma set_add_incl (x : string) (l : list string) : incl l (set_add x l).
Proof.
  unfold set_add. destruct (set_has x l); [apply incl_refl | apply incl_appl, incl_refl].
Qed.

Lemma set_add_In (x : string) (l : list string) : In x (set_add x l).
Proof.
  unfold set_add. destruct (set_has x l) eqn:H.
  - unfold set_has in H. apply existsb_exists in H. destruct H as (y & Hy & Heq).
    apply String.eqb_eq in Heq. now subst.
  - apply in_or_app. right. now left.
Qed.

Lemma imports_grow_add (x : string) : respects imports_grow (importStatements_add x).
Proof. apply imports_grow_modify. intros [] ; simpl. apply set_add_incl. Qed.

Lemma imports_grow_record_specifier (importUrl text_ : string) (sp : Specifier) :
  respects imports_grow (record_specifier importUrl text_ sp).
Proof.
  unfold record_specifier.
  repeat (apply (respects_bind _ imports_grow_trans); [|intros ?]);
    apply imports_grow_modify; intros s; simpl.
  - destruct s; apply incl_refl.
  - destruct (map_has _ _); destruct s; apply incl_refl.
  - destruct (map_get _ _); destruct s; apply incl_refl.
Qed.

Lemma imports_grow_record_import (env : Env) (features : N) (content_ : string)
    (i : BabelNode) :
  respects imports_grow (record_import env features content_ i).
Proof.
  unfold record_import. destruct i; try (intros g; apply imports_grow_refl).
  destruct (set_has source (nodeBuiltinsSet env)); [intros g; apply imports_grow_refl|].
  apply (respects_bind _ imports_grow_trans).
  - apply (respects_forM_ _ imports_grow_refl imports_grow_trans).
    intros x _. apply imports_grow_record_specifier.
  - intros _. destruct (_ && _); [|apply imports_grow_add].
    apply (respects_bind _ imports_grow_trans); [intros g; apply imports_grow_refl|].
    intros st. apply (respects_bind _ imports_grow_trans); [apply imports_grow_add|].
    intros _. apply imports_grow_modify. intros s. destruct s; apply incl_refl.
Qed.

Lemma imports_grow_record_export (content_ : string) (e : BabelNode) :
  respects imports_grow (record_export content_ e).
Proof.
  unfold record_export. destruct e; try (intros g; apply imports_grow_refl).
  apply imports_grow_modify. intros s. destruct s; apply incl_refl.
Qed.

Lemma respects_Ok {A : Type} (R : World -> World -> Prop) (m : M World A)
    (g g' : World) (r : outcome A) :
  respects R m -> m g = (r, g') -> R g g'.
Proof. intros H E. specialize (H g). now rewrite E in H. Qed.

(** *** What [prepare_program] and [compileModule] return *)

Lemma of_fallible_Ok {A : Type} (r : fallible A) (g g' : World) (a : A) :
  of_fallible r g = (Ok a, g') -> r = Returns a /\ g' = g.
Proof.
  destruct r as [x|e]; unfold of_fallible, ret, throw; intros H; inversion H; auto.
Qed.

Lemma prepare_program_Ok (env : Env) (content_ : string) (w wp : World)
    (locals : ModuleLocals) :
  prepare_program env content_ w = (Ok locals, wp) ->
  exists program,
    program_of env (filename (state w)) content_ = Returns program
    /\ classify_body env program = Returns locals
    /\ imports_grow w wp
    /\ (test_fetchContent content_ = true ->
        In import_fetchContent (importStatements (state wp))).
Proof.
  unfold prepare_program, program_of. intros H.
  apply bind_Ok in H. destruct H as (parsed & w1 & Hp & H).
  apply of_fallible_Ok in Hp. destruct Hp as [Hp ->]. rewrite Hp. simpl.
  apply bind_Ok in H. destruct H as (st & w1 & Hst & H).
  unfold gets in Hst. injection Hst as <- <-.
  apply bind_Ok in H. destruct H as (program & w2 & Hprog & H).
  apply bind_Ok in H. destruct H as (locals' & w3 & Hc & H).
  apply of_fallible_Ok in Hc. destruct Hc as [Hc ->].
  apply bind_Ok in H. destruct H as ([] & w4 & Hm & H).
  unfold ret in H. injection H as -> ->.
  unfold modify_state, modify in Hm. injection Hm as <-.
  exists program. destruct (test_fetchContent content_).
  - apply bind_Ok in Hprog. destruct Hprog as ([] & w1 & Ha & Hprog).
    apply of_fallible_Ok in Hprog. destruct Hprog as [Hprog ->].
    unfold importStatements_add, modify_state, modify in Ha. injection Ha as <-.
    split; [exact Hprog|]. split; [exact Hc|]. split.
    + unfold imports_grow. simpl. destruct (state w); simpl. apply set_add_incl.
    + intros _. simpl. destruct (state w); simpl. apply set_add_In.
  - unfold ret in Hprog. injection Hprog as <- <-. split; [reflexivity|].
    split; [exact Hc|]. split; [|discriminate].
    unfold imports_grow. simpl. destruct (state w); simpl. apply incl_refl.
Qed.

Lemma prepare_program_Throws (env : Env) (content_ : string) (w : World) (e : JsError) :
  program_of env (filename (state w)) content_ = Throws e ->
  exists wp, prepare_program env content_ w = (Throw e, wp).
Proof.
  unfold prepare_program, program_of. intros H.
  destruct (babelParser_parse env content_) as [parsed|e'] eqn:Hp; simpl in H.
  - unfold bind at 1. simpl. unfold bind at 1. simpl.
    destruct (test_fetchContent content_); [|discriminate H].
    eexists. apply bind_Throw. unfold bind. simpl. rewrite H. simpl. reflexivity.
  - inversion H; subst. eexists. apply bind_Throw. reflexivity.
Qed.

Lemma compileModule_Ok (env : Env) (features : N) (m : Script) (w w' : World)
    (r : string * option string) :
  compileModule env features (Some m) w = (Ok r, w') ->
  exists locals wp,
    prepare_program env (script_content m) w = (Ok locals, wp)
    /\ transformSync env (babelGenerator env (body_kept locals)) = inl (fst r)
    /\ imports_grow wp w'.
Proof.
  unfold compileModule. intros H.
  apply bind_Ok in H. destruct H as (locals & wp & Hp & H).
  exists locals, wp. split; [exact Hp|].
  apply bind_Ok in H. destruct H as ([] & w1 & H1 & H).
  apply bind_Ok in H. destruct H as ([] & w2 & H2 & H).
  apply bind_Ok in H. destruct H as ([] & w3 & H3 & H).
  apply bind_Ok in H. destruct H as (t & w4 & H4 & H).
  assert (G1 : imports_grow wp w1).
  { refine (respects_Ok _ _ _ _ _ _ H1).
    apply (respects_forM_ _ imports_grow_refl imports_grow_trans).
    intros x _. apply imports_grow_record_import. }
  assert (G2 : imports_grow w1 w2).
  { refine (respects_Ok _ _ _ _ _ _ H2).
    apply (respects_forM_ _ imports_grow_refl imports_grow_trans).
    intros x _. apply imports_grow_record_export. }
  assert (G3 : imports_grow w2 w3).
  { refine (respects_Ok _ _ _ _ _ _ H3).
    apply (respects_when _ imports_grow_refl).
    apply (respects_bind _ imports_grow_trans); [intros g; apply imports_grow_refl|].
    intros st. apply (respects_log _ imports_grow_log). }
  assert (G4 : imports_grow w3 w4).
  { refine (respects_Ok _ _ _ _ _ _ H4).
    apply (respects_transpileExpressionSafe _ imports_grow_refl imports_grow_trans
             imports_grow_log). }
  destruct t as [script|]; [|discriminate H].
  unfold ret in H. inversion H; subst r w4. clear H. simpl. split.
  - unfold transpileExpressionSafe in H4. simpl in H4.
    destruct (transformSync env (babelGenerator env (body_kept locals))) as [code|msg].
    + unfold ret in H4. inversion H4; subst. reflexivity.
    + exfalso. revert H4. unfold bind, gets, log, modify, ret. simpl.
      destruct (positionAt env _ _). simpl. discriminate.
  - eapply imports_grow_trans; [exact G1|]. eapply imports_grow_trans; [exact G2|].
    eapply imports_grow_trans; [exact G3 | exact G4].
Qed.

(** *** The loop over the body *)

Lemma classify_statement_kept (env : Env) (node : BabelNode) (acc locals : ModuleLocals) :
  classify_statement env node acc = Returns locals ->
  body_kept locals
  = if stays_in_script node then node :: body_kept acc else body_kept acc.
Proof.
  unfold classify_statement, stays_in_script. intros H.
  destruct node; try (injection H as <-; reflexivity).
  - destruct id as [i|]; [|injection H as <-; reflexivity].
    destruct (Js.truthy (node_name i)); injection H as <-; reflexivity.
  - destruct declaration as [d|]; [|injection H as <-; reflexivity].
    destruct d; try (injection H as <-; reflexivity).
    + destruct (first_declarator_name declarations_); [|discriminate H].
      destruct (classify_export o); injection H as <-; reflexivity.
    + destruct (option_is _ _); injection H as <-; reflexivity.
Qed.

Lemma classify_statement_grows (env : Env) (node : BabelNode) (acc locals : ModuleLocals) :
  classify_statement env node acc = Returns locals ->
  incl (exports_found acc) (exports_found locals)
  /\ incl (props_found acc) (props_found locals).
Proof.
  unfold classify_statement. intros H.
  destruct node; try (injection H as <-; split; apply incl_refl).
  - destruct id as [i|]; [|injection H as <-; split; apply incl_refl].
    destruct (Js.truthy (node_name i)); injection H as <-; split; apply incl_refl.
  - destruct declaration as [d|]; [|injection H as <-; split; apply incl_refl].
    destruct d; try (injection H as <-; split; apply incl_refl).
    + destruct (first_declarator_name declarations_); [|discriminate H].
      destruct (classify_export o); injection H as <-; simpl; split;
        try apply incl_refl; apply incl_appl, incl_refl.
    + destruct (option_is _ _); injection H as <-; split; apply incl_refl.
Qed.

Lemma classify_body_kept (env : Env) (program : list BabelNode) (locals : ModuleLocals) :
  classify_body env program = Returns locals ->
  body_kept locals = filter stays_in_script program.
Proof.
  revert locals. induction program as [|node rest IH]; intros locals H.
  - injection H as <-. reflexivity.
  - simpl in H. apply fallible_bind_Returns in H. destruct H as (acc & Hacc & H).
    rewrite (classify_statement_kept env node acc locals H), (IH acc Hacc). simpl.
    destruct (stays_in_script node); reflexivity.
Qed.

(** One turn of the loop on a named export of a variable declaration:
    the class is that of the first declarator, the statement is not kept,
    and a prop export records its first declarator only. *)
Lemma classify_statement_export (env : Env) (acc : ModuleLocals) (kind : string)
    (id : BabelNode) (init : option BabelNode) (later specifiers : list BabelNode)
    (start_ end__ : nat) :
  classify_statement env
    (variable_export kind (VariableDeclarator id init :: later) specifiers start_ end__) acc
  = Returns
      (match classify_export (node_name id) with
       | SpecialExport =>
           mkLocals (body_kept acc) (imports_found acc) (props_found acc)
             (exports_found acc
              ++ [variable_export kind (VariableDeclarator id init :: later)
                    specifiers start_ end__])
             (getStaticPaths_found acc) (declarations_found acc)
       | PropExport =>
           mkLocals (body_kept acc) (imports_found acc)
             (props_found acc ++ [VariableDeclarator id init])
             (exports_found acc) (getStaticPaths_found acc) (declarations_found acc)
       end).
Proof.
  unfold variable_export, classify_statement. simpl.
  destruct (classify_export (node_name id)); reflexivity.
Qed.

Lemma classify_body_export (env : Env) (program : list BabelNode) (locals : ModuleLocals)
    (kind : string) (id : BabelNode) (init : option BabelNode)
    (later specifiers : list BabelNode) (start_ end__ : nat) :
  classify_body env program = Returns locals ->
  In (variable_export kind (VariableDeclarator id init :: later) specifiers start_ end__)
     program ->
  match classify_export (node_name id) with
  | SpecialExport =>
      In (variable_export kind (VariableDeclarator id init :: later) specifiers start_ end__)
         (exports_found locals)
  | PropExport => In (VariableDeclarator id init) (props_found locals)
  end.
Proof.
  revert locals. induction program as [|node rest IH]; intros locals H Hin; [destruct Hin|].
  simpl in H. apply fallible_bind_Returns in H. destruct H as (acc & Hacc & H).
  destruct Hin as [-> | Hin].
  - rewrite classify_statement_export in H. injection H as <-.
    destruct (classify_export (node_name id)); simpl; apply in_or_app; right; now left.
  - specialize (IH acc Hacc Hin).
    destruct (classify_statement_grows env node acc locals H) as [He Hp].
    destruct (classify_export (node_name id)); [now apply He | now apply Hp].
Qed.

Lemma traverse_program_Throws (f : string) (l : list BabelNode) (c : BabelNode)
    (e : JsError) :
  In c l -> traverse_fetchContent f c = Throws e ->
  exists e', traverse_program f l = Throws e'.
Proof.
  intros Hin Hc. destruct (traverse_program f l) as [l'|e'] eqn:Hl; [|now exists e'].
  destruct (traverse_program_In f l l' c Hl Hin) as (c' & Hc' & _).
  rewrite Hc in Hc'. discriminate Hc'.
Qed.

Lemma codegen_Throws (env : Env) (fuel : nat) (ast : Ast) (filename_ fileID_ : string)
    (e : JsError) (w' : World) :
  compileModule env (meta_features ast) (ast_module ast)
    (mkWorld (initial_state filename_ fileID_) []) = (Throw e, w') ->
  codegen env fuel ast filename_ fileID_ = (Throw e, logged w').
Proof.
  intros H. unfold codegen, codegen_steps.
  rewrite (bind_Throw _ _ _ _ _ H). reflexivity.
Qed.

(** C7, as amended.  Take a frontmatter whose text matches
    [/Astro\s*\.\s*fetchContent/] and a call [Astro.fetchContent(arguments)] anywhere in one of its
    statements.  If the first argument is a string literal and the module
    compiles, the fetchContent import is among the import statements, and
    the script is the transpiled generation of the rewritten program
    without its imports and variable exports, in which the rewrite of that
    statement holds the call with all its arguments inside one
    [import.meta.globEager(...)].  If the first argument is not a string
    literal (or is missing), [codegen] throws for the document. *)
Theorem fetchContent_call_is_wrapped_or_fatal
    (env : Env) (m : Script) (program : list BabelNode)
    (stmt callee : BabelNode) (arguments : list BabelNode) :
  test_fetchContent (script_content m) = true ->
  babelParser_parse env (script_content m) = Returns program ->
  In stmt program ->
  occurs (CallExpression callee arguments) stmt ->
  is_fetchContent_callee callee = true ->
  (forall s rest features w r w',
     arguments = StringLiteral s :: rest ->
     compileModule env features (Some m) w = (Ok r, w') ->
     In import_fetchContent (importStatements (state w'))
     /\ exists program' stmt' callee' rest',
          traverse_program (filename (state w)) program = Returns program'
          /\ transformSync env (babelGenerator env (filter stays_in_script program'))
             = inl (fst r)
          /\ traverse_fetchContent (filename (state w)) stmt = Returns stmt'
          /\ In stmt' program'
          /\ occurs (CallExpression callee'
                       [CallExpression globEager_callee (StringLiteral s :: rest')]) stmt'
          /\ is_fetchContent_callee callee' = true)
  /\ (first_argument_is_literal (CallExpression callee arguments) = false ->
      forall fuel ast filename_ fileID_,
        ast_module ast = Some m ->
        exists e lg, codegen env fuel ast filename_ fileID_ = (Throw e, lg)).
Proof.
  intros Htest Hparse Hin Hocc Hcallee. split.
  - intros s rest features w r w' -> H.
    destruct (compileModule_Ok env features m w w' r H) as (locals & wp & Hp & Ht & Hg).
    destruct (prepare_program_Ok env _ w wp locals Hp) as (program' & Hprog & Hc & _ & Himp).
    unfold program_of in Hprog. rewrite Hparse, Htest in Hprog. simpl in Hprog.
    split; [apply Hg, Himp, Htest|].
    destruct (traverse_program_In _ _ _ stmt Hprog Hin) as (stmt' & Hs & Hin').
    destruct (traverse_wraps _ _ _ Hocc callee s rest stmt' eq_refl Hcallee Hs)
      as (callee' & rest' & Ho & Hf).
    exists program', stmt', callee', rest'.
    rewrite <- (classify_body_kept env program' locals Hc). auto 10.
  - intros Hlit fuel ast filename_ fileID_ Hm.
    destruct (traverse_throws filename_ _ _ Hocc Hcallee Hlit) as (e & He).
    destruct (traverse_program_Throws filename_ program stmt e Hin He) as (e' & He').
    assert (Hprog : program_of env filename_ (script_content m) = Throws e').
    { unfold program_of. rewrite Hparse, Htest. exact He'. }
    destruct (prepare_program_Throws env (script_content m)
                (mkWorld (initial_state filename_ fileID_) []) e' Hprog) as (wp & Hp).
    exists e', (logged wp). apply codegen_Throws. rewrite Hm.
    unfold compileModule. apply bind_Throw. exact Hp.
Qed.

Lemma fetchContent_call_is_wrapped_or_fatal_witness :
  (In import_fetchContent
      (importStatements
         (state (snd (compileModule
                        (sample_env_parsing [fetchContent_statement [StringLiteral "./*.md"]])
                        0 (Some (mkScript fetchContent_source 0 0)) empty_world)))))
  /\ (exists e lg,
        codegen (sample_env_parsing [fetchContent_statement [Identifier "glob"]]) 1
          (mkAst (Some (mkScript fetchContent_glob_source 0 0)) [] h1_element 0)
          sample_filename sample_filename = (Throw e, lg)).
Proof.
  assert (Hocc : forall args,
            occurs (fetchContent_call args) (fetchContent_statement args)).
  { intros args. eapply occurs_below; [left; reflexivity|].
    eapply occurs_below; [right; left; reflexivity | constructor]. }
  split.
  - destruct (fetchContent_call_is_wrapped_or_fatal
                (sample_env_parsing [fetchContent_statement [StringLiteral "./*.md"]])
                (mkScript fetchContent_source 0 0)
                [fetchContent_statement [StringLiteral "./*.md"]]
                (fetchContent_statement [StringLiteral "./*.md"])
                (MemberExpression (Identifier "Astro") (Identifier "fetchContent") false)
                [StringLiteral "./*.md"]
                eq_refl eq_refl (or_introl eq_refl) (Hocc _) eq_refl) as [H _].
    assert (E : exists r w',
              compileModule
                (sample_env_parsing [fetchContent_statement [StringLiteral "./*.md"]])
                0 (Some (mkScript fetchContent_source 0 0)) empty_world = (Ok r, w')).
    { eexists. eexists. vm_compute. reflexivity. }
    destruct E as (r & w' & E). rewrite E.
    exact (proj1 (H "./*.md" [] 0%N empty_world r w' eq_refl E)).
  - destruct (fetchContent_call_is_wrapped_or_fatal
                (sample_env_parsing [fetchContent_statement [Identifier "glob"]])
                (mkScript fetchContent_glob_source 0 0)
                [fetchContent_statement [Identifier "glob"]]
                (fetchContent_statement [Identifier "glob"])
                (MemberExpression (Identifier "Astro") (Identifier "fetchContent") false)
                [Identifier "glob"]
                eq_refl eq_refl (or_introl eq_refl) (Hocc _) eq_refl) as [_ H].
    exact (H eq_refl 1%nat
             (mkAst (Some (mkScript fetchContent_glob_source 0 0)) [] h1_element 0)
             sample_filename sample_filename eq_refl).
Defined.

(** C7, as stated, fails: the traversal only runs when the text of the
    frontmatter matches [/Astro\s*\.\s*fetchContent/].  With a comment
    between [Astro] and the dot,
    [const posts = Astro/**/.fetchContent(glob);], nothing is rewritten
    and the document compiles, its call with a non-literal argument
    included. *)
Lemma fetchContent_call_behind_comment_compiles :
  ~ (forall env m program stmt callee arguments,
       babelParser_parse env (script_content m) = Returns program ->
       In stmt program ->
       occurs (CallExpression callee arguments) stmt ->
       is_fetchContent_callee callee = true ->
       first_argument_is_literal (CallExpression callee arguments) = false ->
       forall fuel ast filename_ fileID_,
         ast_module ast = Some m ->
         exists e lg, codegen env fuel ast filename_ fileID_ = (Throw e, lg)).
Proof.
  intros H.
  destruct (H (sample_env_parsing [fetchContent_statement [Identifier "glob"]])
              (mkScript commented_fetchContent_source 0 0)
              [fetchContent_statement [Identifier "glob"]]
              (fetchContent_statement [Identifier "glob"])
              (MemberExpression (Identifier "Astro") (Identifier "fetchContent") false)
              [Identifier "glob"] eq_refl (or_introl eq_refl))
    with (fuel := 1%nat)
         (ast := mkAst (Some (mkScript commented_fetchContent_source 0 0)) [] h1_element 0)
         (filename_ := sample_filename) (fileID_ := sample_filename)
    as (e & lg & E); try reflexivity.
  - eapply occurs_below; [left; reflexivity|].
    eapply occurs_below; [right; left; reflexivity | constructor].
  - vm_compute in E. discriminate E.
Qed.

(** C10.  When the module compiles, the script is the transpiled
    generation of the statements that the loop kept, and a named export of
    a variable declaration is not among them: the loop classifies it by
    the name of its first declarator alone, whatever the later declarators
    are, records the whole statement as an export for [__layout] and
    [__content] and the first declarator as a prop otherwise, and drops the
    statement in both cases. *)
Theorem variable_export_follows_first_declarator
    (env : Env) (features : N) (m : Script) (w w' : World) (r : string * option string) :
  compileModule env features (Some m) w = (Ok r, w') ->
  exists program locals,
    program_of env (filename (state w)) (script_content m) = Returns program
    /\ classify_body env program = Returns locals
    /\ transformSync env (babelGenerator env (body_kept locals)) = inl (fst r)
    /\ forall kind id init later specifiers start_ end__,
         (forall acc,
            classify_statement env
              (variable_export kind (VariableDeclarator id init :: later)
                 specifiers start_ end__) acc
            = Returns
                (match classify_export (node_name id) with
                 | SpecialExport =>
                     mkLocals (body_kept acc) (imports_found acc) (props_found acc)
                       (exports_found acc
                        ++ [variable_export kind (VariableDeclarator id init :: later)
                              specifiers start_ end__])
                       (getStaticPaths_found acc) (declarations_found acc)
                 | PropExport =>
                     mkLocals (body_kept acc) (imports_found acc)
                       (props_found acc ++ [VariableDeclarator id init])
                       (exports_found acc) (getStaticPaths_found acc)
                       (declarations_found acc)
                 end))
         /\ (In (variable_export kind (VariableDeclarator id init :: later)
                   specifiers start_ end__) program ->
             ~ In (variable_export kind (VariableDeclarator id init :: later)
                     specifiers start_ end__) (body_kept locals)
             /\ match classify_export (node_name id) with
                | SpecialExport =>
                    In (variable_export kind (VariableDeclarator id init :: later)
                          specifiers start_ end__) (exports_found locals)
                | PropExport => In (VariableDeclarator id init) (props_found locals)
                end).
Proof.
  intros H.
  destruct (compileModule_Ok env features m w w' r H) as (locals & wp & Hp & Ht & _).
  destruct (prepare_program_Ok env _ w wp locals Hp) as (program & Hprog & Hc & _).
  exists program, locals. repeat (split; [assumption|]).
  intros kind id init later specifiers start_ end__. split.
  - intros acc. apply classify_statement_export.
  - intros Hin. split.
    + rewrite (classify_body_kept env program locals Hc). rewrite filter_In.
      intros [_ Hs]. discriminate Hs.
    + exact (classify_body_export env program locals kind id init later specifiers
               start_ end__ Hc Hin).
Qed.

Lemma variable_export_follows_first_declarator_witness :
  exists program locals,
    program = [export_let "__layout" "title"; export_let "title" "__layout"]
    /\ body_kept locals = []
    /\ exports_found locals = [export_let "__layout" "title"]
    /\ props_found locals = [VariableDeclarator (Identifier "title") (Some (Identifier "a"))].
Proof.
  assert (E : exists r w',
            compileModule
              (sample_env_parsing
                 [export_let "__layout" "title"; export_let "title" "__layout"])
              0 (Some (mkScript "export let __layout = a, title = b;" 0 0)) empty_world
            = (Ok r, w')).
  { eexists. eexists. vm_compute. reflexivity. }
  destruct E as (r & w' & E).
  destruct (variable_export_follows_first_declarator _ _ _ _ _ _ E)
    as (program & locals & Hprog & Hc & _).
  exists program, locals.
  injection Hprog as <-. injection Hc as <-.
  repeat split; reflexivity.
Defined.

(* ================================================================= *)
(** * Properties of the single functions *)

(** ** The rewrites at the end of [compileHtml] *)

Lemma without_comma_strip (s : string) :
  without is_comma (strip_leading_comma s) = without is_comma s.
Proof.
  destruct s as [|a r]; [reflexivity|]. simpl.
  destruct (is_comma a) eqn:E; simpl; [reflexivity | now rewrite E].
Qed.

Lemma is_rparen_not_comma (b : ascii) : is_rparen b = true -> is_comma b = false.
Proof.
  unfold is_rparen, is_comma. intros H. apply Ascii.eqb_eq in H. now subst.
Qed.

Lemma string_pair_ind (P : string -> Prop) :
  P EmptyString ->
  (forall a, P (String a EmptyString)) ->
  (forall a b r, P r -> P (String b r) -> P (String a (String b r))) ->
  forall s, P s.
Proof.
  intros H0 H1 H2.
  assert (H : forall s, P s /\ forall a, P (String a s)).
  { induction s as [|b r [IH1 IH2]].
    - split; [exact H0 | exact H1].
    - split; [apply IH2|]. intros a. apply H2; [exact IH1 | apply IH2]. }
  intros s. apply H.
Qed.

Lemma without_comma_replace (s : string) :
  without is_comma (replace_comma_paren s) = without is_comma s.
Proof.
  induction s as [|a|a b r IH1 IH2] using string_pair_ind; try reflexivity.
  change (replace_comma_paren (String a (String b r)))
    with (if is_comma a && is_rparen b then String b (replace_comma_paren r)
          else String a (replace_comma_paren (String b r))).
  assert (Hstep : without is_comma (String a (replace_comma_paren (String b r)))
                  = without is_comma (String a (String b r))).
  { change (without is_comma (String a (replace_comma_paren (String b r))))
      with (if is_comma a then without is_comma (replace_comma_paren (String b r))
            else String a (without is_comma (replace_comma_paren (String b r)))).
    rewrite IH2. reflexivity. }
  destruct (is_comma a && is_rparen b) eqn:E; [|exact Hstep].
  apply andb_true_iff in E. destruct E as [Ea Eb].
  cbn [without]. rewrite Ea, (is_rparen_not_comma b Eb), IH1. reflexivity.
Qed.

Lemma without_comma_collapse (prev : bool) (s : string) :
  without is_comma (collapse_commas_from prev s) = without is_comma s.
Proof.
  revert prev. induction s as [|a r IH]; intros prev; [reflexivity|]. simpl.
  destruct (is_comma a) eqn:Ea.
  - destruct prev; simpl; rewrite ?Ea; apply IH.
  - simpl. rewrite Ea. now rewrite IH.
Qed.

Lemma without_comma_separate (s : string) :
  without is_comma (separate_paren_h s) = without is_comma s.
Proof.
  induction s as [|a|a b r IH1 IH2] using string_pair_ind; try reflexivity.
  change (separate_paren_h (String a (String b r)))
    with (if is_rparen a && Ascii.eqb b "h"
          then String a (String "," (String b (separate_paren_h r)))
          else String a (separate_paren_h (String b r))).
  destruct (is_rparen a && Ascii.eqb b "h") eqn:E.
  - simpl. rewrite IH1. reflexivity.
  - change (without is_comma (String a (separate_paren_h (String b r))))
      with (if is_comma a then without is_comma (separate_paren_h (String b r))
            else String a (without is_comma (separate_paren_h (String b r)))).
    rewrite IH2. reflexivity.
Qed.

(** The head of a string survives [separate_paren_h]. *)
Lemma separate_paren_h_head (a : ascii) (r : string) :
  exists t, separate_paren_h (String a r) = String a t.
Proof.
  destruct r as [|b r']; [now exists EmptyString|]. simpl.
  destruct (is_rparen a && Ascii.eqb b "h"); eexists; reflexivity.
Qed.

Lemma has_pair_cons (a b x y : ascii) (r : string) :
  has_pair a b (String x (String y r))
  = (Ascii.eqb x a && Ascii.eqb y b) || has_pair a b (String y r).
Proof. reflexivity. Qed.

Lemma collapse_no_double_comma (prev : bool) (s : string) :
  has_pair "," "," (collapse_commas_from prev s) = false
  /\ (prev = true -> forall c t, collapse_commas_from prev s = String c t ->
                                 is_comma c = false).
Proof.
  revert prev. induction s as [|a r IH]; intros prev.
  - split; [reflexivity | discriminate].
  - simpl. destruct (is_comma a) eqn:Ea.
    + destruct prev.
      * destruct (IH true) as [H1 H2]. split; [exact H1|]. intros _. now apply H2.
      * destruct (IH true) as [H1 H2]. split; [|discriminate].
        destruct (collapse_commas_from true r) as [|c t] eqn:Ec; [reflexivity|].
        rewrite has_pair_cons, H1, orb_false_r.
        specialize (H2 eq_refl c t eq_refl). unfold is_comma in H2.
        rewrite H2. apply andb_false_r.
    + destruct (IH false) as [H1 _]. split.
      * destruct (collapse_commas_from false r) as [|c t] eqn:Ec; [reflexivity|].
        rewrite has_pair_cons, H1, orb_false_r. unfold is_comma in Ea.
        rewrite Ea. reflexivity.
      * intros _ c t E. injection E as <- _. exact Ea.
Qed.

Lemma separate_keeps_no_double_comma (s : string) :
  has_pair "," "," s = false -> has_pair "," "," (separate_paren_h s) = false.
Proof.
  induction s as [|a|a b r IH1 IH2] using string_pair_ind; try reflexivity.
  intros H. rewrite has_pair_cons in H. apply orb_false_iff in H. destruct H as [Hab H].
  change (separate_paren_h (String a (String b r)))
    with (if is_rparen a && Ascii.eqb b "h"
          then String a (String "," (String b (separate_paren_h r)))
          else String a (separate_paren_h (String b r))).
  destruct (is_rparen a && Ascii.eqb b "h") eqn:E.
  - apply andb_true_iff in E. destruct E as [Ea Eb].
    apply Ascii.eqb_eq in Ea, Eb. subst a b.
    rewrite !has_pair_cons. cbn [Ascii.eqb Bool.eqb andb orb].
    destruct r as [|c r']; [reflexivity|].
    destruct (separate_paren_h_head c r') as (t & Et). rewrite Et.
    rewrite has_pair_cons. cbn [Ascii.eqb Bool.eqb andb orb].
    rewrite <- Et. apply IH1.
    rewrite has_pair_cons in H. cbn [Ascii.eqb Bool.eqb andb orb] in H. exact H.
  - destruct (separate_paren_h_head b r) as (t & Et). rewrite Et.
    rewrite has_pair_cons, Hab. cbn [orb]. rewrite <- Et. apply IH2, H.
Qed.

Lemma separate_no_paren_h (s : string) :
  has_pair ")" "h" (separate_paren_h s) = false.
Proof.
  induction s as [|a|a b r IH1 IH2] using string_pair_ind; try reflexivity.
  change (separate_paren_h (String a (String b r)))
    with (if is_rparen a && Ascii.eqb b "h"
          then String a (String "," (String b (separate_paren_h r)))
          else String a (separate_paren_h (String b r))).
  destruct (is_rparen a && Ascii.eqb b "h") eqn:E.
  - apply andb_true_iff in E. destruct E as [Ea Eb].
    apply Ascii.eqb_eq in Ea, Eb. subst a b.
    rewrite !has_pair_cons. cbn [Ascii.eqb Bool.eqb andb orb].
    destruct r as [|c r']; [reflexivity|].
    destruct (separate_paren_h_head c r') as (t & Et). rewrite Et.
    rewrite has_pair_cons. cbn [Ascii.eqb Bool.eqb andb orb].
    rewrite <- Et. exact IH1.
  - destruct (separate_paren_h_head b r) as (t & Et). rewrite Et.
    rewrite has_pair_cons. rewrite <- Et, IH2, orb_false_r. exact E.
Qed.

Lemma cleanup_moves_commas (out : string) :
  without is_comma (cleanup out) = without is_comma out
  /\ has_pair "," "," (cleanup out) = false
  /\ has_pair ")" "h" (cleanup out) = false.
Proof.
  unfold cleanup, collapse_commas. split; [|split].
  - now rewrite without_comma_separate, without_comma_collapse, without_comma_replace,
      without_comma_strip.
  - apply separate_keeps_no_double_comma. apply collapse_no_double_comma.
  - apply separate_no_paren_h.
Qed.

(** X1.  The [html] that [compileHtml] resolves is the [out] buffer of its
    walk in which commas were deleted and inserted and nothing else was
    touched: without their commas the two texts are the same.  The [html]
    has no two commas in a row and no [)] directly before an [h], inside
    string literals too. *)
Theorem html_only_moves_commas (env : Env) (fuel : nat) (node : TemplateNode)
    (g g' : World) (html : string) :
  compileHtml env fuel node g = (Ok html, g') ->
  (exists fuel' w',
     fuel = S fuel'
     /\ visit env (compileHtml env fuel') node None (fresh_walk g) = (Ok tt, w')
     /\ g' = world w'
     /\ without is_comma html = without is_comma (buffers_out w'))
  /\ has_pair "," "," html = false
  /\ has_pair ")" "h" html = false.
Proof.
  destruct fuel as [|fuel']; [discriminate|]. cbn [compileHtml]. intros H.
  apply compileHtml_of_walk_Ok in H. destruct H as (w' & Hw & -> & ->).
  destruct (cleanup_moves_commas (buffers_out w')) as (H1 & H2 & H3).
  split; [|split; assumption]. exists fuel', w'. auto.
Qed.

Lemma html_only_moves_commas_witness :
  exists html g',
    compileHtml sample_env 1 h1_element empty_world = (Ok html, g')
    /\ has_pair "," "," html = false
    /\ has_pair ")" "h" html = false.
Proof.
  assert (E : exists html g',
            compileHtml sample_env 1 h1_element empty_world = (Ok html, g')).
  { eexists. eexists. vm_compute. reflexivity. }
  destruct E as (html & g' & E). exists html, g'. split; [exact E|].
  exact (proj2 (html_only_moves_commas _ _ _ _ _ _ E)).
Defined.

(** ** [dedent] *)

Lemma strip_indent_blanks (first : nat) (s : string) :
  forall budget,
    without is_blank (strip_indent first budget s) = without is_blank s
    /\ (String.length (strip_indent first budget s) <= String.length s)%nat.
Proof.
  induction s as [|a r IH]; intros budget; [split; [reflexivity | apply le_n]|].
  assert (Hkeep : forall next,
            without is_blank (String a (strip_indent first next r))
            = without is_blank (String a r)
            /\ (String.length (String a (strip_indent first next r))
                <= String.length (String a r))%nat).
  { intros next. destruct (IH next) as [H1 H2]. split.
    - cbn [without]. now rewrite H1.
    - simpl. lia. }
  cbn [strip_indent]. destruct budget as [[|k]|]; try apply Hkeep.
  destruct (is_blank a) eqn:Ea; [|apply Hkeep].
  destruct (IH (Some k)) as [H1 H2]. split.
  - cbn [without]. now rewrite Ea.
  - simpl. lia.
Qed.

(** X2.  [dedent] deletes spaces and tabs only, so the text without its
    blanks, line ends included, is what it was, and it never makes the text
    longer. *)
Theorem dedent_only_removes_blanks (str : string) :
  without is_blank (dedent str) = without is_blank str
  /\ (String.length (dedent str) <= String.length str)%nat.
Proof.
  unfold dedent. destruct (first_indent (Some O) str) as [first|].
  - apply strip_indent_blanks.
  - split; [reflexivity | apply le_n].
Qed.

(** ** The code of an expression *)


(** ** [getComponentUrl] *)

Lemma startsWith_append (p s : string) : Js.startsWith (p ++ s) p = true.
Proof.
  induction p as [|a p IH]; [now destruct s|]. simpl.
  now rewrite Ascii.eqb_refl, IH.
Qed.

Lemma slice_from_append (p s : string) : Js.slice_from (String.length p) (p ++ s) = s.
Proof. induction p as [|a p IH]; [reflexivity | exact IH]. Qed.

Lemma replace_first_prefix (p s : string) : Js.replace_first p "" (p ++ s) = s.
Proof.
  assert (H : forall t, Js.startsWith t p = true ->
                        Js.replace_first p "" t = Js.slice_from (String.length p) t).
  { intros t Ht. destruct t; cbn [Js.replace_first]; rewrite Ht; reflexivity. }
  rewrite H by apply startsWith_append. apply slice_from_append.
Qed.

Lemma includes_char_append_r (c : ascii) (x y : string) :
  Js.includes_char c y = true -> Js.includes_char c (x ++ y) = true.
Proof.
  unfold Js.includes_char. induction x as [|a x IH]; intros H; [exact H|].
  simpl. destruct (Ascii.eqb a c); [reflexivity|].
  specialize (IH H). destruct (Js.indexOf_char c (x ++ y)); [reflexivity | discriminate IH].
Qed.

Lemma replace_extension_last (ext base e : string) :
  e <> "" -> Js.includes_char "." e = false ->
  replace_extension ext (base ++ "." ++ e) = base ++ ext.
Proof.
  intros He Hdot. change ("." ++ e) with (String "." e).
  induction base as [|a base IH].
  - simpl. rewrite Hdot. simpl. destruct e; [contradiction|reflexivity].
  - cbn [append replace_extension].
    assert (Hin : Js.includes_char "." (base ++ String "." e) = true).
    { apply includes_char_append_r. reflexivity. }
    rewrite Hin. cbn [negb andb]. rewrite andb_false_r.
    now rewrite IH.
Qed.

Lemma replace_extension_no_dot (ext s : string) :
  Js.includes_char "." s = false -> replace_extension ext s = s.
Proof.
  unfold Js.includes_char. induction s as [|a r IH]; [reflexivity|].
  simpl. destruct (Ascii.eqb a ".") eqn:Ea; [discriminate|].
  destruct (Js.indexOf_char "." r); [discriminate|]. intros _.
  simpl. now rewrite IH.
Qed.



(** ** [findHydrationAttributes] and [getComponentWrapper] *)

Lemma directive_method (key : string) :
  hydrationDirectives_has key = true -> In (Js.slice_from 7 key) hydration_methods.
Proof.
  unfold hydrationDirectives_has, hydrationDirectives. intros H.
  apply existsb_exists in H. destruct H as (d & Hd & E).
  apply String.eqb_eq in E. subst d.
  repeat (destruct Hd as [<- | Hd]; [simpl; tauto|]). destruct Hd.
Qed.

(** X5.  Whatever the attribute map is, the method that
    [findHydrationAttributes] returns is [undefined] or one of [load],
    [idle], [visible], [media] and [only], its value is never the string
    ["true"], and there is no value without a method. *)
Theorem findHydrationAttributes_range (attrs : Js.Object) :
  match method (findHydrationAttributes attrs) with
  | Some m => In m hydration_methods
  | None => value (findHydrationAttributes attrs) = None
  end
  /\ value (findHydrationAttributes attrs) <> Some "true".
Proof.
  rewrite findHydrationAttributes_find_rev.
  destruct (find is_directive_entry (rev attrs)) as [[key val]|] eqn:Hf.
  - apply find_some in Hf. destruct Hf as [_ Hd]. unfold is_directive_entry in Hd.
    simpl in Hd. unfold hydration_of_entry. simpl. split.
    + now apply directive_method.
    + destruct (String.eqb val "true") eqn:E; [discriminate|].
      intros H. injection H as ->. discriminate E.
  - simpl. split; [reflexivity | discriminate].
Qed.

Lemma startsWith_empty (s : string) : Js.startsWith s "" = true.
Proof. now destruct s. Qed.

(** X6.  [getComponentWrapper] never changes the state.  It writes to the
    sink only for a name in the legacy syntax, with a colon after its first
    character: one deprecation warning.  It throws only when a component
    that is not a custom element has a hydration method and no component
    info.  Otherwise the wrapper is a call of [__astro_component], whose
    import is among the wrapper imports. *)
Theorem getComponentWrapper_effects (env : Env) (_name : string)
    (hydration : HydrationAttributes) (info : option ComponentInfo) (g : World) :
  let r := getComponentWrapper env _name hydration info g in
  state (snd r) = state g
  /\ (exists l, logged (snd r) = (logged g ++ l)%list
                /\ (List.length l <= 1)%nat
                /\ (l = [] <-> match Js.indexOf_char ":" _name with
                               | Some (S _) => False
                               | _ => True
                               end))
  /\ match fst r with
     | Ok (wrapper, wrapperImports) =>
         Js.startsWith wrapper "__astro_component(" = true
         /\ In import_astro_component wrapperImports
     | Throw _ => isCustomElementTag env _name = false /\ info = None
     | OutOfFuel => False
     end.
Proof.
  unfold getComponentWrapper.
  destruct (Js.indexOf_char ":" _name) as [[|k]|];
    unfold bind, ret, gets, log, modify, throw; simpl;
    destruct (isCustomElementTag env _name); simpl;
    try (destruct (Js.truthy _); simpl);
    try (destruct info as [i|]; simpl);
    (split; [reflexivity|]); split;
    try (split; [reflexivity | simpl; tauto]);
    try (split; [reflexivity | now right; left]);
    try (split; [reflexivity | now left]);
    try (split; [apply startsWith_empty | now left]);
    try (exists []; rewrite app_nil_r; simpl; repeat split; auto; fail);
    try (eexists [_]; simpl; split; [reflexivity|]; split; [lia|];
         split; [discriminate | tauto]).
Qed.

(* ================================================================= *)
(** * More on the frontmatter *)

(** ** The loop over the body *)

Lemma classify_statement_step (env : Env) (node : BabelNode) (acc locals : ModuleLocals) :
  classify_statement env node acc = Returns locals ->
  imports_found locals = (imports_found acc ++ filter is_import [node])%list
  /\ exports_found locals = (exports_found acc ++ special_export_of node)%list
  /\ props_found locals = (props_found acc ++ prop_of node)%list
  /\ declarations_found locals = (declarations_found acc ++ declared_names node)%list
  /\ getStaticPaths_found locals
     = if is_getStaticPaths_export node then babelGenerator_node env node
       else getStaticPaths_found acc.
Proof.
  unfold classify_statement. intros H.
  destruct node; try (injection H as <-; simpl; rewrite ?app_nil_r; auto 10; fail).
  - destruct id as [i|]; [|injection H as <-; simpl; rewrite ?app_nil_r; auto 10].
    simpl. destruct (Js.truthy (node_name i)); injection H as <-; simpl;
      rewrite ?app_nil_r; auto 10.
  - destruct declaration as [d|];
      [|injection H as <-; simpl; rewrite ?app_nil_r; auto 10].
    destruct d; try (injection H as <-; simpl; rewrite ?app_nil_r; auto 10; fail).
    + simpl. destruct (first_declarator_name declarations_); [|discriminate H].
      destruct (classify_export o); injection H as <-; simpl;
        rewrite ?app_nil_r; auto 10.
    + simpl. destruct (option_is _ _); injection H as <-; simpl;
        rewrite ?app_nil_r; auto 10.
Qed.

Lemma classify_body_imports_backwards (env : Env) (program : list BabelNode)
    (locals : ModuleLocals) :
  classify_body env program = Returns locals ->
  imports_found locals = filter is_import (rev program).
Proof.
  revert locals. induction program as [|node rest IH]; intros locals H.
  - injection H as <-. reflexivity.
  - simpl in H. apply fallible_bind_Returns in H. destruct H as (acc & Hacc & H).
    destruct (classify_statement_step env node acc locals H) as (Si & _).
    cbn [rev]. rewrite filter_app, Si, (IH acc Hacc). reflexivity.
Qed.

Lemma classify_body_names_backwards (env : Env) (program : list BabelNode)
    (locals : ModuleLocals) :
  classify_body env program = Returns locals ->
  declarations_found locals = flat_map declared_names (rev program).
Proof.
  revert locals. induction program as [|node rest IH]; intros locals H.
  - injection H as <-. reflexivity.
  - simpl in H. apply fallible_bind_Returns in H. destruct H as (acc & Hacc & H).
    destruct (classify_statement_step env node acc locals H) as (_ & _ & _ & Sd & _).
    cbn [rev]. rewrite flat_map_app, Sd, (IH acc Hacc). cbn [flat_map].
    now rewrite app_nil_r.
Qed.

Lemma classify_body_props_backwards (env : Env) (program : list BabelNode)
    (locals : ModuleLocals) :
  classify_body env program = Returns locals ->
  props_found locals = flat_map prop_of (rev program).
Proof.
  revert locals. induction program as [|node rest IH]; intros locals H.
  - injection H as <-. reflexivity.
  - simpl in H. apply fallible_bind_Returns in H. destruct H as (acc & Hacc & H).
    destruct (classify_statement_step env node acc locals H) as (_ & _ & Sp & _).
    cbn [rev]. rewrite flat_map_app, Sp, (IH acc Hacc). cbn [flat_map].
    now rewrite app_nil_r.
Qed.

(** X7.  The loop of [compileModule] walks the body from its last
    statement: the statements it keeps stay in source order, while the
    imports, the special exports, the props and the declared names are
    collected from the last statement to the first. *)
Theorem classify_body_collects_backwards (env : Env) (program : list BabelNode)
    (locals : ModuleLocals) :
  classify_body env program = Returns locals ->
  body_kept locals = filter stays_in_script program
  /\ imports_found locals = filter is_import (rev program)
  /\ exports_found locals = flat_map special_export_of (rev program)
  /\ props_found locals = flat_map prop_of (rev program)
  /\ declarations_found locals = flat_map declared_names (rev program).
Proof.
  intros H. split; [exact (classify_body_kept env program locals H)|].
  revert locals H. induction program as [|node rest IH]; intros locals H.
  - injection H as <-. auto.
  - simpl in H. apply fallible_bind_Returns in H. destruct H as (acc & Hacc & H).
    destruct (IH acc Hacc) as (Hi & He & Hp & Hd).
    destruct (classify_statement_step env node acc locals H) as (Si & Se & Sp & Sd & _).
    cbn [rev]. rewrite filter_app, !flat_map_app. cbn [flat_map]. rewrite !app_nil_r.
    rewrite Si, Se, Sp, Sd, Hi, He, Hp, Hd. auto.
Qed.

Lemma classify_body_collects_backwards_witness :
  exists locals,
    classify_body sample_env
      (namespace_import ++ default_import
       ++ [export_let "title" "x"; export_let "lang" "y"])%list = Returns locals
    /\ imports_found locals = (default_import ++ namespace_import)%list
    /\ prop_names (props_found locals) = ["lang"; "title"].
Proof.
  eexists. split; [reflexivity|].
  destruct (classify_body_collects_backwards sample_env
              (namespace_import ++ default_import
               ++ [export_let "title" "x"; export_let "lang" "y"])%list _ eq_refl)
    as (_ & Hi & _ & Hp & _).
  rewrite Hi, Hp. split; reflexivity.
Defined.

Lemma classify_body_getStaticPaths (env : Env) (program : list BabelNode)
    (locals : ModuleLocals) :
  classify_body env program = Returns locals ->
  getStaticPaths_found locals
  = match find is_getStaticPaths_export program with
    | Some n => babelGenerator_node env n
    | None => ""
    end.
Proof.
  revert locals. induction program as [|node rest IH]; intros locals H.
  - injection H as <-. reflexivity.
  - simpl in H. apply fallible_bind_Returns in H. destruct H as (acc & Hacc & H).
    destruct (classify_statement_step env node acc locals H) as (_ & _ & _ & _ & Sg).
    rewrite Sg. cbn [find]. destruct (is_getStaticPaths_export node); [reflexivity|].
    apply IH, Hacc.
Qed.

(** What [compileModule] returns next to the script. *)
Lemma compileModule_Ok_paths (env : Env) (features : N) (m : Script) (w w' : World)
    (r : string * option string) :
  compileModule env features (Some m) w = (Ok r, w') ->
  exists locals wp,
    prepare_program env (script_content m) w = (Ok locals, wp)
    /\ snd r = if String.eqb (getStaticPaths_found locals) "" then None
               else Some (getStaticPaths_found locals).
Proof.
  unfold compileModule. intros H.
  apply bind_Ok in H. destruct H as (locals & wp & Hp & H).
  exists locals, wp. split; [exact Hp|].
  apply bind_Ok in H. destruct H as ([] & w1 & _ & H).
  apply bind_Ok in H. destruct H as ([] & w2 & _ & H).
  apply bind_Ok in H. destruct H as ([] & w3 & _ & H).
  apply bind_Ok in H. destruct H as (t & w4 & _ & H).
  destruct t as [script|]; [|discriminate H].
  unfold ret in H. injection H as <- _. reflexivity.
Qed.

(** X8.  When the module compiles, [getStaticPaths] is the generated text
    of the first [export function getStaticPaths] of the program, in source
    order, or [undefined] when there is none or when that text is empty;
    every such export is left out of the script, while an exported function
    of another name stays in it. *)
Theorem getStaticPaths_is_first_export (env : Env) (features : N) (m : Script)
    (w w' : World) (r : string * option string) :
  compileModule env features (Some m) w = (Ok r, w') ->
  exists program locals,
    program_of env (filename (state w)) (script_content m) = Returns program
    /\ classify_body env program = Returns locals
    /\ snd r = match find is_getStaticPaths_export program with
               | Some n => if String.eqb (babelGenerator_node env n) "" then None
                           else Some (babelGenerator_node env n)
               | None => None
               end
    /\ transformSync env (babelGenerator env (body_kept locals)) = inl (fst r)
    /\ forall n, In n program ->
         (is_getStaticPaths_export n = true -> ~ In n (body_kept locals))
         /\ (forall id rest specifiers start_ end__,
               n = ExportNamedDeclaration (Some (FunctionDeclaration id rest))
                     specifiers start_ end__ ->
               is_getStaticPaths_export n = false -> In n (body_kept locals)).
Proof.
  intros H.
  destruct (compileModule_Ok env features m w w' r H) as (locals & wp & Hp & Ht & _).
  destruct (compileModule_Ok_paths env features m w w' r H) as (locals' & wp' & Hp' & Hs).
  rewrite Hp in Hp'. injection Hp' as <- <-.
  destruct (prepare_program_Ok env _ w wp locals Hp) as (program & Hprog & Hc & _).
  exists program, locals. repeat (split; [assumption|]). split; [|split; [exact Ht|]].
  - rewrite Hs, (classify_body_getStaticPaths env program locals Hc).
    destruct (find is_getStaticPaths_export program); reflexivity.
  - intros n Hin. rewrite (classify_body_kept env program locals Hc). split.
    + intros Hg Hk. apply filter_In in Hk. destruct Hk as [_ Hk].
      destruct n; try discriminate Hg. destruct declaration as [[]|]; try discriminate Hg.
      simpl in Hg, Hk. rewrite Hg in Hk. discriminate Hk.
    + intros id rest specifiers start_ end__ -> Hg. apply filter_In. split; [exact Hin|].
      simpl in *. now rewrite Hg.
Qed.

Lemma getStaticPaths_is_first_export_witness :
  exists program locals,
    program_of (sample_env_parsing declaring_program) sample_filename "" = Returns program
    /\ classify_body (sample_env_parsing declaring_program) program = Returns locals
    /\ List.length (body_kept locals) = 2%nat.
Proof.
  assert (E : exists r w',
            compileModule (sample_env_parsing declaring_program) 0
              (Some (mkScript "" 0 0)) empty_world = (Ok r, w')).
  { eexists. eexists. vm_compute. reflexivity. }
  destruct E as (r & w' & E).
  destruct (getStaticPaths_is_first_export _ _ _ _ _ _ E)
    as (program & locals & Hprog & Hc & _).
  exists program, locals. split; [exact Hprog|]. split; [exact Hc|].
  injection Hprog as <-. injection Hc as <-. reflexivity.
Defined.

(** ** The imports *)

Lemma forM_always_Ok {S A : Type} (f : A -> M S unit) :
  (forall x g, exists g', f x g = (Ok tt, g')) ->
  forall l g, exists g', forM_ f l g = (Ok tt, g').
Proof.
  intros Hf. induction l as [|x l IH]; intros g; [now exists g|].
  destruct (Hf x g) as (g1 & H1). destruct (IH g1) as (g2 & H2).
  exists g2. simpl. unfold bind. now rewrite H1.
Qed.

Lemma record_specifier_Ok (importUrl text_ : string) (sp : Specifier) (g : World) :
  exists g', record_specifier importUrl text_ sp g = (Ok tt, g').
Proof. eexists. reflexivity. Qed.

(** An import either is the import of a Node builtin, and throws, or is
    recorded. *)
Lemma record_import_cases (env : Env) (features : N) (content_ : string)
    (i : BabelNode) (g : World) :
  (exists url_, import_source i = Some url_
                /\ set_has url_ (nodeBuiltinsSet env) = true
                /\ record_import env features content_ i g
                   = (Throw (Error (builtin_message url_)), g))
  \/ (exists g', record_import env features content_ i g = (Ok tt, g')
                 /\ forall url_, import_source i = Some url_ ->
                                 set_has url_ (nodeBuiltinsSet env) = false).
Proof.
  destruct i; try (right; exists g; split; [reflexivity | discriminate]).
  simpl. destruct (set_has source (nodeBuiltinsSet env)) eqn:Hb.
  - left. exists source. auto.
  - right.
    destruct (forM_always_Ok (record_specifier source (slice_range start_ end__ content_))
                (record_specifier_Ok _ _) specifiers g) as (g1 & H1).
    unfold bind at 1. rewrite H1.
    destruct (_ && _); eexists; (split; [reflexivity|]);
      intros url_ E; injection E as <-; exact Hb.
Qed.

Lemma forM_record_import_builtin (env : Env) (features : N) (content_ : string)
    (l : list BabelNode) (i : BabelNode) (url_ : string) :
  In i l -> import_source i = Some url_ ->
  set_has url_ (nodeBuiltinsSet env) = true ->
  forall g, exists url' g',
    In (Some url') (map import_source l)
    /\ set_has url' (nodeBuiltinsSet env) = true
    /\ forM_ (record_import env features content_) l g
       = (Throw (Error (builtin_message url')), g').
Proof.
  intros Hin Hs Hb. induction l as [|x l IH]; intros g; [destruct Hin|].
  simpl forM_. unfold bind.
  destruct (record_import_cases env features content_ x g)
    as [(u & Hu & Hbu & ->) | (g1 & -> & Hno)].
  - exists u, g. split; [left; exact Hu | auto].
  - destruct Hin as [-> | Hin].
    + rewrite (Hno url_ Hs) in Hb. discriminate Hb.
    + destruct (IH Hin g1) as (u & g' & Hu & Hbu & H).
      exists u, g'. split; [right; exact Hu | auto].
Qed.

Lemma prepare_program_Returns (env : Env) (content_ : string) (w : World)
    (program : list BabelNode) (locals : ModuleLocals) :
  program_of env (filename (state w)) content_ = Returns program ->
  classify_body env program = Returns locals ->
  exists wp, prepare_program env content_ w = (Ok locals, wp).
Proof.
  unfold program_of, prepare_program. intros Hp Hc.
  destruct (babelParser_parse env content_) as [parsed|e]; [|discriminate Hp].
  simpl in Hp. unfold bind at 1. simpl. unfold bind at 1. simpl.
  destruct (test_fetchContent content_).
  - unfold bind. simpl. rewrite Hp. simpl. rewrite Hc. simpl. eexists. reflexivity.
  - injection Hp as ->. unfold bind. simpl. rewrite Hc. simpl. eexists. reflexivity.
Qed.

Lemma In_filter_rev {A : Type} (f : A -> bool) (l : list A) (x : A) :
  In x l -> f x = true -> In x (filter f (rev l)).
Proof. intros Hin Hf. apply filter_In. split; [now apply in_rev in Hin | exact Hf]. Qed.

(** X9.  An import of a Node builtin without the [node:] prefix is fatal
    for the document: when the frontmatter parses and its loop completes,
    [codegen] throws the error that names such an import. *)
Theorem builtin_import_is_fatal (env : Env) (fuel : nat) (ast : Ast) (m : Script)
    (filename_ fileID_ : string) (program : list BabelNode) (locals : ModuleLocals)
    (i : BabelNode) (url_ : string) :
  ast_module ast = Some m ->
  program_of env filename_ (script_content m) = Returns program ->
  classify_body env program = Returns locals ->
  In i program -> import_source i = Some url_ ->
  set_has url_ (nodeBuiltinsSet env) = true ->
  exists url' lg,
    In (Some url') (map import_source program)
    /\ set_has url' (nodeBuiltinsSet env) = true
    /\ codegen env fuel ast filename_ fileID_
       = (Throw (Error (builtin_message url')), lg).
Proof.
  intros Hm Hprog Hc Hin Hs Hb.
  destruct (prepare_program_Returns env (script_content m)
              (mkWorld (initial_state filename_ fileID_) []) program locals Hprog Hc)
    as (wp & Hp).
  pose proof (classify_body_imports_backwards env program locals Hc) as Hi.
  assert (Hin' : In i (imports_found locals)).
  { rewrite Hi. apply In_filter_rev; [exact Hin|]. destruct i; try discriminate Hs.
    reflexivity. }
  destruct (forM_record_import_builtin env (meta_features ast) (script_content m)
              (imports_found locals) i url_ Hin' Hs Hb wp) as (u & g' & Hu & Hbu & H).
  exists u, (logged g'). split; [|split; [exact Hbu|]].
  - rewrite Hi in Hu. apply in_map_iff in Hu. destruct Hu as (x & Hx & Hxin).
    apply filter_In in Hxin. destruct Hxin as [Hxin _]. apply in_rev in Hxin.
    apply in_map_iff. now exists x.
  - apply codegen_Throws. rewrite Hm. unfold compileModule.
    unfold bind at 1. rewrite Hp. apply bind_Throw. exact H.
Qed.

Lemma builtin_import_is_fatal_witness :
  exists lg,
    codegen (sample_env_parsing [builtin_import]) 1
      (mkAst (Some (mkScript "import fs from 'fs';" 0 0)) [] h1_element 0)
      sample_filename sample_filename
    = (Throw (Error (builtin_message "fs")), lg).
Proof.
  destruct (builtin_import_is_fatal (sample_env_parsing [builtin_import]) 1
              (mkAst (Some (mkScript "import fs from 'fs';" 0 0)) [] h1_element 0)
              (mkScript "import fs from 'fs';" 0 0) sample_filename sample_filename
              [builtin_import] _ builtin_import "fs"
              eq_refl eq_refl eq_refl (or_introl eq_refl) eq_refl eq_refl)
    as (u & lg & Hu & _ & H).
  destruct Hu as [Hu | []]. injection Hu as <-. exists lg. exact H.
Defined.

(** ** What the module leaves in the state *)

Lemma map_has_update {V : Type} (k k' : string) (v : V) (m : list (string * V)) :
  map_has k (map_update k' v m) = map_has k m.
Proof.
  unfold map_has. induction m as [|[x y] m IH]; [reflexivity|]. simpl.
  destruct (String.eqb x k') eqn:E; simpl.
  - destruct (String.eqb x k); reflexivity.
  - destruct (String.eqb x k); [reflexivity | exact IH].
Qed.

Lemma map_get_app {V : Type} (k : string) (m m' : list (string * V)) :
  map_get k (m ++ m')%list
  = match map_get k m with Some v => Some v | None => map_get k m' end.
Proof.
  induction m as [|[x y] m IH]; [reflexivity|]. simpl.
  destruct (String.eqb x k); [reflexivity | exact IH].
Qed.

Lemma map_has_set_mono {V : Type} (k k' : string) (v : V) (m : list (string * V)) :
  map_has k m = true -> map_has k (map_set k' v m) = true.
Proof.
  intros H. unfold map_set. destruct (map_has k' m); [now rewrite map_has_update|].
  unfold map_has in *. rewrite map_get_app. now destruct (map_get k m).
Qed.

Lemma map_has_set_same {V : Type} (k : string) (v : V) (m : list (string * V)) :
  map_has k (map_set k v m) = true.
Proof.
  unfold map_set. destruct (map_has k m) eqn:E; [now rewrite map_has_update|].
  unfold map_has in *. rewrite map_get_app. destruct (map_get k m); [reflexivity|].
  simpl. now rewrite String.eqb_refl.
Qed.

Lemma records_grow_refl (g : World) : records_grow g g.
Proof. unfold records_grow. auto. Qed.

Lemma records_grow_trans (g1 g2 g3 : World) :
  records_grow g1 g2 -> records_grow g2 g3 -> records_grow g1 g3.
Proof.
  intros (D1 & C1 & I1) (D2 & C2 & I2). unfold records_grow.
  split; [congruence|]. split; auto.
Qed.

Lemma records_grow_log (g : World) (e : LogEntry) :
  records_grow g (mkWorld (state g) (logged g ++ [e])).
Proof. unfold records_grow. simpl. auto. Qed.

Lemma records_grow_modify (f : CodegenState -> CodegenState) :
  (forall s, declarations (f s) = declarations s
             /\ (forall k, map_has k (components s) = true ->
                           map_has k (components (f s)) = true)
             /\ (forall k, map_has k (componentImports s) = true ->
                           map_has k (componentImports (f s)) = true)) ->
  respects records_grow (modify_state f).
Proof. intros H g. apply H. Qed.

Lemma records_grow_add (x : string) : respects records_grow (importStatements_add x).
Proof. apply records_grow_modify. intros s. destruct s; simpl. auto. Qed.

Lemma records_grow_record_specifier (importUrl text_ : string) (sp : Specifier) :
  respects records_grow (record_specifier importUrl text_ sp).
Proof.
  unfold record_specifier.
  repeat (apply (respects_bind _ records_grow_trans); [|intros ?]);
    apply records_grow_modify; intros s.
  - destruct s; simpl. split; [reflexivity|]. split; [|auto].
    intros k. apply map_has_set_mono.
  - destruct (map_has _ _); [auto|]. destruct s; simpl. split; [reflexivity|].
    split; [auto|]. intros k. apply map_has_set_mono.
  - destruct (map_get _ _); [|auto]. destruct s; simpl. split; [reflexivity|].
    split; [auto|]. intros k. apply map_has_set_mono.
Qed.

Lemma records_grow_record_import (env : Env) (features : N) (content_ : string)
    (i : BabelNode) :
  respects records_grow (record_import env features content_ i).
Proof.
  unfold record_import. destruct i; try (intros g; apply records_grow_refl).
  destruct (set_has source (nodeBuiltinsSet env)); [intros g; apply records_grow_refl|].
  apply (respects_bind _ records_grow_trans).
  - apply (respects_forM_ _ records_grow_refl records_grow_trans).
    intros x _. apply records_grow_record_specifier.
  - intros _. destruct (_ && _); [|apply records_grow_add].
    apply (respects_bind _ records_grow_trans); [intros g; apply records_grow_refl|].
    intros st. apply (respects_bind _ records_grow_trans); [apply records_grow_add|].
    intros _. apply records_grow_modify. intros s. destruct s; simpl. auto.
Qed.

Lemma records_grow_record_export (content_ : string) (e : BabelNode) :
  respects records_grow (record_export content_ e).
Proof.
  unfold record_export. destruct e; try (intros g; apply records_grow_refl).
  apply records_grow_modify. intros s. destruct s; simpl. auto.
Qed.

(** The run of one element inside a [forM_] that completes. *)
Lemma forM_In_Ok {A : Type} (R : World -> World -> Prop) (f : A -> M World unit)
    (l : list A) (x : A) (g g' : World) :
  (forall a b c, R a b -> R b c -> R a c) -> (forall a, R a a) ->
  (forall y, respects R (f y)) ->
  forM_ f l g = (Ok tt, g') -> In x l ->
  exists g1 g2, R g g1 /\ f x g1 = (Ok tt, g2) /\ R g2 g'.
Proof.
  intros Htrans Hrefl Hf. revert g. induction l as [|y l IH]; intros g H Hin;
    [destruct Hin|].
  simpl in H. apply bind_Ok in H. destruct H as ([] & g1 & Hy & H).
  destruct Hin as [-> | Hin].
  - exists g, g1. split; [apply Hrefl|]. split; [exact Hy|].
    refine (respects_Ok R _ _ _ _ _ H).
    apply (respects_forM_ R Hrefl Htrans). intros z _. apply Hf.
  - destruct (IH g1 H Hin) as (a & b & Ha & Hx & Hb). exists a, b.
    split; [|auto]. eapply Htrans; [|exact Ha]. exact (respects_Ok R _ _ _ _ (Hf y) Hy).
Qed.

Lemma record_specifier_records (importUrl text_ : string) (sp : Specifier)
    (g g' : World) :
  record_specifier importUrl text_ sp g = (Ok tt, g') ->
  map_has (local sp) (components (state g')) = true
  /\ map_has (local sp) (componentImports (state g')) = true.
Proof.
  unfold record_specifier, bind, modify_state, modify. simpl. intros H.
  injection H as <-. simpl.
  set (c1 := map_set (local sp) _ (components (state g))).
  assert (Hc : map_has (local sp) c1 = true) by apply map_has_set_same.
  destruct (state g) as [cs ? ? ? ? ? ? ? ci ?]; simpl in *.
  split.
  - destruct (map_has (local sp) ci); simpl;
      destruct (map_get (local sp) _); simpl; exact Hc.
  - destruct (map_has (local sp) ci) eqn:E; simpl.
    + unfold map_has in E. destruct (map_get (local sp) ci) eqn:G; [|discriminate E].
      simpl. apply map_has_set_same.
    + assert (G : map_has (local sp) (map_set (local sp) [] ci) = true)
        by apply map_has_set_same.
      unfold map_has in G.
      destruct (map_get (local sp) (map_set (local sp) [] ci)); [|discriminate G].
      simpl. apply map_has_set_same.
Qed.

Lemma record_import_records (env : Env) (features : N) (content_ : string)
    (specifiers : list Specifier) (source : string) (start_ end__ : nat)
    (sp : Specifier) (g g' : World) :
  record_import env features content_
    (ImportDeclaration specifiers source start_ end__) g = (Ok tt, g') ->
  In sp specifiers ->
  set_has source (nodeBuiltinsSet env) = false
  /\ map_has (local sp) (components (state g')) = true
  /\ map_has (local sp) (componentImports (state g')) = true.
Proof.
  simpl. intros H Hin.
  destruct (set_has source (nodeBuiltinsSet env)); [discriminate H|].
  split; [reflexivity|].
  apply bind_Ok in H. destruct H as ([] & g1 & H1 & H).
  destruct (forM_In_Ok records_grow _ _ sp _ _ records_grow_trans records_grow_refl
              (records_grow_record_specifier _ _) H1 Hin)
    as (a & b & _ & Hsp & Hb).
  destruct (record_specifier_records _ _ _ _ _ Hsp) as [Hc Hi].
  assert (Hrest : records_grow g1 g').
  { refine (respects_Ok records_grow _ _ _ _ _ H).
    destruct (_ && _); [|apply records_grow_add].
    apply (respects_bind _ records_grow_trans); [intros x; apply records_grow_refl|].
    intros st. apply (respects_bind _ records_grow_trans); [apply records_grow_add|].
    intros _. apply records_grow_modify. intros s. destruct s; simpl. auto. }
  destruct (records_grow_trans _ _ _ Hb Hrest) as (_ & Gc & Gi). auto.
Qed.

(** The runs inside a [compileModule] that completes. *)
Lemma compileModule_Ok_imports (env : Env) (features : N) (m : Script) (w w' : World)
    (r : string * option string) :
  compileModule env features (Some m) w = (Ok r, w') ->
  exists locals wp w1,
    prepare_program env (script_content m) w = (Ok locals, wp)
    /\ forM_ (record_import env features (script_content m)) (imports_found locals) wp
       = (Ok tt, w1)
    /\ records_grow wp w1
    /\ records_grow w1 w'.
Proof.
  unfold compileModule. intros H.
  apply bind_Ok in H. destruct H as (locals & wp & Hp & H).
  apply bind_Ok in H. destruct H as ([] & w1 & H1 & H).
  exists locals, wp, w1. split; [exact Hp|]. split; [exact H1|].
  apply bind_Ok in H. destruct H as ([] & w2 & H2 & H).
  apply bind_Ok in H. destruct H as ([] & w3 & H3 & H).
  apply bind_Ok in H. destruct H as (t & w4 & H4 & H).
  destruct t as [script|]; [|discriminate H].
  unfold ret in H. injection H as _ <-. split.
  - refine (respects_Ok _ _ _ _ _ _ H1).
    apply (respects_forM_ _ records_grow_refl records_grow_trans).
    intros x _. apply records_grow_record_import.
  - eapply records_grow_trans; [|eapply records_grow_trans].
    + refine (respects_Ok _ _ _ _ _ _ H2).
      apply (respects_forM_ _ records_grow_refl records_grow_trans).
      intros x _. apply records_grow_record_export.
    + refine (respects_Ok _ _ _ _ _ _ H3).
      apply (respects_when _ records_grow_refl).
      apply (respects_bind _ records_grow_trans); [intros g; apply records_grow_refl|].
      intros st. apply (respects_log _ records_grow_log).
    + refine (respects_Ok _ _ _ _ _ _ H4).
      apply (respects_transpileExpressionSafe _ records_grow_refl records_grow_trans
               records_grow_log).
Qed.

(** X10.  When the module compiles, every local name of every import
    declaration of the program is a key of the components map and of the
    map of component imports, and no import is the import of a Node
    builtin. *)
Theorem imported_names_are_components (env : Env) (features : N) (m : Script)
    (w w' : World) (r : string * option string) :
  compileModule env features (Some m) w = (Ok r, w') ->
  exists program,
    program_of env (filename (state w)) (script_content m) = Returns program
    /\ forall specifiers source start_ end__ sp,
         In (ImportDeclaration specifiers source start_ end__) program ->
         In sp specifiers ->
         set_has source (nodeBuiltinsSet env) = false
         /\ map_has (local sp) (components (state w')) = true
         /\ map_has (local sp) (componentImports (state w')) = true.
Proof.
  intros H.
  destruct (compileModule_Ok_imports env features m w w' r H)
    as (locals & wp & w1 & Hp & Hrun & _ & Hrest).
  destruct (prepare_program_Ok env _ w wp locals Hp) as (program & Hprog & Hc & _).
  exists program. split; [exact Hprog|].
  intros specifiers source start_ end__ sp Hin Hsp.
  assert (Hin' : In (ImportDeclaration specifiers source start_ end__)
                    (imports_found locals)).
  { rewrite (classify_body_imports_backwards env program locals Hc).
    now apply In_filter_rev. }
  destruct (forM_In_Ok records_grow _ _ _ _ _ records_grow_trans records_grow_refl
              (records_grow_record_import env features _) Hrun Hin')
    as (a & b & _ & Hi & Hb).
  destruct (record_import_records env features _ _ _ _ _ sp a b Hi Hsp)
    as (Hn & Hc' & Hi').
  destruct (records_grow_trans _ _ _ Hb Hrest) as (_ & Gc & Gi). auto.
Qed.

Lemma imported_names_are_components_witness :
  map_has "Ns"
    (components
       (state (snd (compileModule (sample_env_parsing namespace_import) 0
                      (Some (mkScript "import * as Ns from './c.jsx';" 0 0))
                      empty_world)))) = true.
Proof.
  assert (E : exists r w',
            compileModule (sample_env_parsing namespace_import) 0
              (Some (mkScript "import * as Ns from './c.jsx';" 0 0)) empty_world
            = (Ok r, w')).
  { eexists. eexists. vm_compute. reflexivity. }
  destruct E as (r & w' & E). rewrite E.
  destruct (imported_names_are_components _ _ _ _ _ _ E) as (program & Hprog & H).
  injection Hprog as <-.
  exact (proj1 (proj2 (H _ _ _ _ (mkSpecifier ImportNamespaceSpecifier "Ns" "")
                         (or_introl eq_refl) (or_introl eq_refl)))).
Defined.

Lemma prepare_program_declarations (env : Env) (content_ : string) (w wp : World)
    (locals : ModuleLocals) :
  prepare_program env content_ w = (Ok locals, wp) ->
  declarations (state wp)
  = fold_left (fun d x => set_add x d) (declarations_found locals)
              (declarations (state w)).
Proof.
  unfold prepare_program. intros H.
  apply bind_Ok in H. destruct H as (parsed & w1 & Hp & H).
  apply of_fallible_Ok in Hp. destruct Hp as [_ ->].
  apply bind_Ok in H. destruct H as (st & w1 & Hst & H).
  unfold gets in Hst. injection Hst as <- <-.
  apply bind_Ok in H. destruct H as (program & w2 & Hprog & H).
  apply bind_Ok in H. destruct H as (locals' & w3 & Hc & H).
  apply of_fallible_Ok in Hc. destruct Hc as [_ ->].
  apply bind_Ok in H. destruct H as ([] & w4 & Hm & H).
  unfold ret in H. injection H as -> ->.
  unfold modify_state, modify in Hm. injection Hm as <-. simpl.
  assert (Hd : declarations (state w2) = declarations (state w)).
  { destruct (test_fetchContent content_).
    - apply bind_Ok in Hprog. destruct Hprog as ([] & w1 & Ha & Hprog).
      apply of_fallible_Ok in Hprog. destruct Hprog as [_ ->].
      unfold importStatements_add, modify_state, modify in Ha. injection Ha as <-.
      simpl. now destruct (state w).
    - unfold ret in Hprog. now injection Hprog as _ <-. }
  rewrite <- Hd. now destruct (state w2).
Qed.

Lemma set_has_add_mono (x y : string) (l : list string) :
  set_has x l = true -> set_has x (set_add y l) = true.
Proof.
  unfold set_add. destruct (set_has y l); [auto|]. unfold set_has.
  rewrite existsb_app. intros ->. reflexivity.
Qed.

Lemma set_has_add_same (x : string) (l : list string) : set_has x (set_add x l) = true.
Proof.
  unfold set_add. destruct (set_has x l) eqn:E; [exact E|]. unfold set_has.
  rewrite existsb_app. simpl. rewrite String.eqb_refl. apply orb_true_r.
Qed.

Lemma set_has_fold_add (x : string) (l d : list string) :
  In x l \/ set_has x d = true ->
  set_has x (fold_left (fun d y => set_add y d) l d) = true.
Proof.
  revert d. induction l as [|y l IH]; intros d [Hin | Hd]; simpl.
  - destruct Hin.
  - exact Hd.
  - destruct Hin as [-> | Hin]; apply IH; [right; apply set_has_add_same | now left].
  - apply IH. right. now apply set_has_add_mono.
Qed.

(** X11.  When the module compiles, the declared names in the state are
    the ones it had, followed by the names of the top-level functions and
    of the identifiers of the top-level variable declarations of the
    program, read from the last statement to the first.  So each such name
    is declared, and is a component defined in the frontmatter when nothing
    imports it. *)
Theorem top_level_names_are_declared (env : Env) (features : N) (m : Script)
    (w w' : World) (r : string * option string) :
  compileModule env features (Some m) w = (Ok r, w') ->
  exists program,
    program_of env (filename (state w)) (script_content m) = Returns program
    /\ declarations (state w')
       = fold_left (fun d x => set_add x d) (flat_map declared_names (rev program))
                   (declarations (state w))
    /\ forall n nm,
         In n program -> In nm (declared_names n) ->
         set_has nm (declarations (state w')) = true
         /\ isFrontmatterDefinedComponent nm None (state w') = true.
Proof.
  intros H.
  destruct (compileModule_Ok_imports env features m w w' r H)
    as (locals & wp & w1 & Hp & _ & (D1 & _) & (D2 & _)).
  destruct (prepare_program_Ok env _ w wp locals Hp) as (program & Hprog & Hc & _).
  pose proof (classify_body_names_backwards env program locals Hc) as Hd.
  assert (E : declarations (state w')
              = fold_left (fun d x => set_add x d)
                  (flat_map declared_names (rev program)) (declarations (state w))).
  { rewrite D2, D1, (prepare_program_declarations env _ w wp locals Hp), Hd.
    reflexivity. }
  exists program. split; [exact Hprog|]. split; [exact E|].
  intros n nm Hn Hnm.
  assert (Hs : set_has nm (declarations (state w')) = true).
  { rewrite E. apply set_has_fold_add. left. apply in_flat_map. exists n.
    split; [now apply in_rev in Hn | exact Hnm]. }
  split; [exact Hs|]. unfold isFrontmatterDefinedComponent. now rewrite Hs.
Qed.

Lemma top_level_names_are_declared_witness :
  declarations
    (state (snd (compileModule (sample_env_parsing declaring_program) 0
                   (Some (mkScript "" 0 0)) empty_world)))
  = ["Box"; "Title"].
Proof.
  assert (E : exists r w',
            compileModule (sample_env_parsing declaring_program) 0
              (Some (mkScript "" 0 0)) empty_world = (Ok r, w')).
  { eexists. eexists. vm_compute. reflexivity. }
  destruct E as (r & w' & E). rewrite E.
  destruct (top_level_names_are_declared _ _ _ _ _ _ E) as (program & Hprog & Hd & _).
  injection Hprog as <-. exact Hd.
Defined.

(* ================================================================= *)
(** * More on the walk *)

(** X12.  [markers.insideMarkdown] is [false] or has a count of at least 1
    when [codegen] is over, whatever its outcome; [compileHtml] and the
    walk of any node keep it so from any state in which it holds. *)
Theorem marker_well_formed_through_codegen (env : Env) (fuel : nat) :
  (forall ast filename_ fileID_,
     marker_ok (snd (codegen_steps env fuel ast
                       (mkWorld (initial_state filename_ fileID_) []))))
  /\ (forall node g, marker_ok g -> marker_ok (snd (compileHtml env fuel node g)))
  /\ (forall node parent w,
        marker_ok (world w) ->
        marker_ok (world (snd (visit env (compileHtml env fuel) node parent w)))).
Proof.
  destruct (insideMarkdown_stays_well_formed env fuel) as (Hc & _ & _ & Hv).
  assert (Hrefl : forall g, keeps_marker_ok g g) by (intros g H; exact H).
  assert (Htrans : forall g1 g2 g3,
            keeps_marker_ok g1 g2 -> keeps_marker_ok g2 g3 -> keeps_marker_ok g1 g3)
    by (intros g1 g2 g3 H1 H2 H; auto).
  assert (Hlog : forall g e, keeps_marker_ok g (mkWorld (state g) (logged g ++ [e])))
    by (intros g e H; exact H).
  assert (Hstate : forall g st, insideMarkdown st = insideMarkdown (state g) ->
                                keeps_marker_ok g (mkWorld st (logged g))).
  { intros g st E. unfold keeps_marker_ok, marker_ok. simpl. now rewrite E. }
  split; [|split].
  - intros ast filename_ fileID_.
    assert (Hsteps : respects keeps_marker_ok (codegen_steps env fuel ast)).
    { unfold codegen_steps. apply (respects_bind _ Htrans).
      - apply respects_compileModule; assumption.
      - intros [script getStaticPaths]. apply (respects_bind _ Htrans).
        + apply respects_styles; assumption.
        + intros _. apply (respects_bind _ Htrans); [apply Hc|].
          intros html. apply (respects_bind _ Htrans);
            [intros g; apply Hrefl | intros st g; apply Hrefl]. }
    apply Hsteps. exact I.
  - intros node g. apply Hc.
  - intros node parent w. apply Hv.
Qed.

Lemma marker_well_formed_through_codegen_witness :
  marker_ok (snd (compileHtml (sample_env_parsing markdown_import) 2
                    (mkElement InlineComponent "Markdown:load" [] [mkText "# Hi"])
                    (mkWorld (initial_state sample_filename sample_filename) []))).
Proof.
  apply (proj1 (proj2 (marker_well_formed_through_codegen
                         (sample_env_parsing markdown_import) 2))).
  exact I.
Defined.



(** X14.  An [Expression] node whose code compiles emits nothing when the
    code is [false], [null], [undefined], [void 0] or empty; otherwise it
    appends [,(code)] to the current buffer, or [{code}] inside a Markdown
    region.  [paren] and the other buffer stay as they are, and the walk
    does not go into the node. *)
Theorem expression_emission (env : Env) (flush : TemplateNode -> M World string)
    (node : TemplateNode) (parent : option TemplateNode) (w : Walk)
    (code : string) (g1 : World) :
  type node = Expression ->
  compileExpression env
    (fun child => compileHtml_of_walk (visit env flush child None)) node (world w)
  = (Ok code, g1) ->
  let text_ :=
    if set_has code FALSY_EXPRESSIONS || String.eqb code "" then ""
    else if is_inside (state g1) then "{" ++ code ++ "}"
    else ",(" ++ code ++ ")" in
  exists w1,
    visit env flush node parent w = (Ok tt, w1)
    /\ world w1 = g1
    /\ paren w1 = paren w
    /\ curr w1 = curr w
    /\ match curr w with
       | BufferOut =>
           buffers_out w1 = buffers_out w ++ text_
           /\ buffers_markdown w1 = buffers_markdown w
       | BufferMarkdown =>
           buffers_markdown w1 = buffers_markdown w ++ text_
           /\ buffers_out w1 = buffers_out w
       end.
Proof.
  intros Ht Hc text_. subst text_. rewrite visit_unfold. unfold enter. rewrite Ht.
  unfold bind at 1. unfold bind at 1. unfold lift_world at 1. rewrite Hc.
  destruct (set_has code FALSY_EXPRESSIONS) eqn:Ef; cbn [orb].
  - unfold ret. eexists. split; [reflexivity|]. cbn.
    rewrite !append_nil_r. destruct (curr w); auto.
  - destruct (String.eqb code "") eqn:Ee; cbn [negb when].
    + unfold bind, ret. eexists. split; [reflexivity|]. cbn.
      rewrite !append_nil_r. destruct (curr w); auto.
    + unfold bind, ret, gets, emit, modify. cbn [world set_world state].
      destruct (is_inside (state g1)); destruct (curr w) eqn:Ec;
        eexists; (split; [reflexivity|]); cbn; rewrite ?Ec; auto.
Qed.

Lemma expression_emission_witness :
  exists w1,
    visit sample_env (compileHtml sample_env 0) (mkExpression ["x"] []) None
          (fresh_walk empty_world) = (Ok tt, w1)
    /\ buffers_out w1 = ",((x))".
Proof.
  destruct (expression_emission sample_env (compileHtml sample_env 0)
              (mkExpression ["x"] []) None (fresh_walk empty_world)
              "(x)" empty_world eq_refl eq_refl) as (w1 & H & _ & _ & _ & Hb & _).
  exists w1. split; [exact H | exact Hb].
Defined.

(** X15.  Entering a [Prism] component makes sure that its import is
    among the import statements and that [Prism] is a component.  A
    component that was already recorded under that name is kept as it is,
    and doing it a second time changes nothing. *)
Theorem inject_prism_idempotent (env : Env) (g : World) :
  let g1 := snd (inject_prism env g) in
  fst (inject_prism env g) = Ok tt
  /\ set_has (PRISM_IMPORT env) (importStatements (state g1)) = true
  /\ map_has "Prism" (components (state g1)) = true
  /\ (forall info, map_get "Prism" (components (state g)) = Some info ->
                   map_get "Prism" (components (state g1)) = Some info)
  /\ inject_prism env g1 = (Ok tt, g1).
Proof.
  unfold inject_prism, bind, importStatements_add, modify_state, modify. cbn [fst snd].
  destruct g as [st lg]. destruct st as [cs c f fid im d ex imps ci cc]. cbn.
  assert (Hadd : set_has (PRISM_IMPORT env) (set_add (PRISM_IMPORT env) imps) = true)
    by apply set_has_add_same.
  assert (Hidem : set_add (PRISM_IMPORT env) (set_add (PRISM_IMPORT env) imps)
                  = set_add (PRISM_IMPORT env) imps).
  { unfold set_add at 1. now rewrite Hadd. }
  split; [reflexivity|].
  destruct (map_has "Prism" cs) eqn:Hp; cbn.
  - rewrite Hp, Hidem. auto.
  - assert (Hs : map_has "Prism"
                   (map_set "Prism"
                      (mkComponentInfo (mkSpecifier ImportDefaultSpecifier "Prism" "")
                         "astro/components/Prism.astro") cs) = true)
      by apply map_has_set_same.
    rewrite Hs, Hidem. split; [exact Hadd|]. split; [reflexivity|]. split; [|reflexivity].
    intros info Hi. unfold map_has in Hp. rewrite Hi in Hp. discriminate Hp.
Qed.

Lemma inject_prism_idempotent_witness :
  map_get "Prism"
    (components
       (state (snd (inject_prism sample_env
                      (mkWorld (set_components
                                  [("Prism", mkComponentInfo
                                               (mkSpecifier ImportDefaultSpecifier "Prism" "")
                                               "./MyPrism.astro")]
                                  (initial_state sample_filename sample_filename)) [])))))
  = Some (mkComponentInfo (mkSpecifier ImportDefaultSpecifier "Prism" "") "./MyPrism.astro").
Proof.
  apply (proj1 (proj2 (proj2 (proj2 (inject_prism_idempotent sample_env _))))).
  reflexivity.
Defined.

(* ================================================================= *)
(** * More on the attributes *)

Section AttributeKeys.

Variable env : Env.
Variable child : TemplateNode -> M World string.

(** One turn of the loop of [getAttributes] leaves the map as it is or
    sets one key. *)
Lemma getAttributes_step_sets (nodeName : string) (isPage : bool)
    (result result' : Js.Object) (attr : TemplateNode) (g g' : World) :
  getAttributes_step env child nodeName isPage result attr g = (Ok result', g') ->
  result' = result
  \/ exists k v, result' = Js.set k v result
                 /\ ((k = name attr /\ v <> "")
                     \/ (Js.startsWith k "...(" = true /\ v = "")).
Proof.
  unfold getAttributes_step. intros H.
  assert (Hcode : forall (m : M World string) (k v : string -> string),
            (forall c, (k c = name attr /\ v c <> "")
                       \/ (Js.startsWith (k c) "...(" = true /\ v c = "")) ->
            (code <- m ;;
             if negb (String.eqb code "") then ret (Js.set (k code) (v code) result)
             else ret result)%js g = (Ok result', g') ->
            result' = result
            \/ exists k v, result' = Js.set k v result
                           /\ ((k = name attr /\ v <> "")
                               \/ (Js.startsWith k "...(" = true /\ v = ""))).
  { intros m k v Hkv Hrun. apply bind_Ok in Hrun. destruct Hrun as (c & g1 & _ & Hrun).
    destruct (negb (String.eqb c "")); unfold ret in Hrun; injection Hrun as <- _;
      [right; exists (k c), (v c); auto | now left]. }
  assert (Hset : forall v, v <> "" ->
            result' = Js.set (name attr) v result ->
            result' = result
            \/ exists k v, result' = Js.set k v result
                           /\ ((k = name attr /\ v <> "")
                               \/ (Js.startsWith k "...(" = true /\ v = ""))).
  { intros v Hv ->. right. exists (name attr), v. auto. }
  assert (Hrest :
    (match attr_value attr with
     | ValueTrue => ret (Js.set (name attr) "true" result)
     | ValueFalse | ValueUndefined => ret result
     | ValueList [] => ret (Js.set (name attr) (Js.dq ++ Js.dq) result)
     | ValueList [val] =>
         match type val with
         | MustacheTag =>
             code <- compileExpression_of env child (expression val) ;;
             if negb (String.eqb code "")
             then ret (Js.set (name attr) ("(" ++ code ++ ")") result)
             else ret result
         | Text =>
             text_ <- of_fallible (getTextFromAttribute val) ;;
             when (negb isPage)
               (forM_ log (warnIfRelativeStringLiteral env nodeName (name attr)
                             (join_opt text_))) ;;
             ret (Js.set (name attr) (Js.JSON_stringify (join_opt text_)) result)
         | AttributeShorthand =>
             ret (Js.set (name attr) ("(" ++ name attr ++ ")") result)
         | t => throw (Error ("UNKNOWN: " ++ type_name t))
         end
     | ValueList segments =>
         codes <- of_fallible (segments_code segments) ;;
         ret (Js.set (name attr) ("(" ++ Js.join "+" codes ++ ")") result)
     end)%js g = (Ok result', g') ->
    result' = result
    \/ exists k v, result' = Js.set k v result
                   /\ ((k = name attr /\ v <> "")
                       \/ (Js.startsWith k "...(" = true /\ v = ""))).
  { clear H. intros H. destruct (attr_value attr) as [| | |l].
    - injection H as <- _. apply (Hset "true"); [discriminate | reflexivity].
    - injection H as <- _. now left.
    - injection H as <- _. now left.
    - destruct l as [|val [|v2 l]].
      + injection H as <- _. apply (Hset (Js.dq ++ Js.dq)); [discriminate | reflexivity].
      + destruct (type val); try (unfold throw in H; discriminate H).
        * (* Text *)
          apply bind_Ok in H. destruct H as (t & g1 & _ & H).
          apply bind_Ok in H. destruct H as ([] & g2 & _ & H).
          injection H as <- _.
          apply (Hset (Js.JSON_stringify (join_opt t))); [discriminate | reflexivity].
        * (* MustacheTag *)
          refine (Hcode (compileExpression_of env child (expression val))
                    (fun _ => name attr) (fun c => "(" ++ c ++ ")") _ H).
          intros c. left. split; [reflexivity | discriminate].
        * (* AttributeShorthand *)
          injection H as <- _.
          apply (Hset ("(" ++ name attr ++ ")")); [discriminate | reflexivity].
      + apply bind_Ok in H. destruct H as (codes & g1 & _ & H).
        injection H as <- _.
        apply (Hset ("(" ++ Js.join "+" codes ++ ")")); [discriminate | reflexivity]. }
  destruct (type attr); try (apply Hrest; exact H).
  refine (Hcode (compileExpression_of env child (expression attr))
            (fun c => "...(" ++ c ++ ")") (fun _ => "") _ H).
  intros c. right. split; [|reflexivity]. cbn. apply startsWith_empty.
Qed.

Lemma attribute_entry_more (attrs : list TemplateNode) (a : TemplateNode)
    (kv : string * string) :
  attribute_entry attrs kv -> attribute_entry (attrs ++ [a]) kv.
Proof.
  intros [[Hv (x & Hx & Hk)] | H]; [left | now right].
  split; [exact Hv|]. exists x. split; [apply in_or_app; now left | exact Hk].
Qed.

Lemma getAttributes_loop_entries (nodeName : string) (isPage : bool)
    (attrs : list TemplateNode) :
  forall seen result o g g',
    getAttributes_loop env child nodeName isPage result attrs g = (Ok o, g') ->
    Forall (attribute_entry seen) result ->
    Forall (attribute_entry (seen ++ attrs)) o.
Proof.
  induction attrs as [|a attrs IH]; intros seen result o g g' H Hr.
  - injection H as <- _. now rewrite app_nil_r.
  - simpl in H. apply bind_Ok in H. destruct H as (r1 & g1 & H1 & H2).
    replace (seen ++ a :: attrs)%list with ((seen ++ [a]) ++ attrs)%list
      by (rewrite <- app_assoc; reflexivity).
    apply (IH (seen ++ [a])%list r1 o g1 g' H2).
    assert (Hr' : Forall (attribute_entry (seen ++ [a])) result).
    { eapply Forall_impl; [|exact Hr]. intros kv. apply attribute_entry_more. }
    destruct (getAttributes_step_sets _ _ _ _ _ _ _ H1)
      as [-> | (k & v & -> & [[-> Hv] | [Hk ->]])]; [exact Hr' | |].
    + apply Forall_set; [exact Hr'|]. left. split; [exact Hv|].
      exists a. split; [apply in_or_app; right; now left | reflexivity].
    + apply Forall_set; [exact Hr'|]. right. split; [reflexivity | exact Hk].
Qed.

End AttributeKeys.

(** X16.  Every entry of the attribute map that [getAttributes] returns
    is the name of one of the attributes with a value that is not the
    empty text, or a spread key [...(code)] with the empty text as its
    value: no key is made up, and no named attribute compiles to an empty
    value. *)
Theorem getAttributes_entries (env : Env) (child : TemplateNode -> M World string)
    (nodeName : string) (attrs : list TemplateNode) (g g' : World) (o : Js.Object) :
  getAttributes env child nodeName attrs g = (Ok o, g') ->
  Forall (attribute_entry attrs) o.
Proof.
  unfold getAttributes. intros H.
  apply bind_Ok in H. destruct H as (st & g1 & _ & H).
  exact (getAttributes_loop_entries env child _ _ attrs [] [] o g1 g' H (Forall_nil _)).
Qed.

Lemma getAttributes_entries_witness :
  Forall (attribute_entry [mkAttribute "client:load" ValueTrue; mkAttribute "hidden" ValueFalse])
         [("client:load", "true")].
Proof.
  apply (getAttributes_entries sample_env (fun _ => ret "") "div"
           [mkAttribute "client:load" ValueTrue; mkAttribute "hidden" ValueFalse]
           empty_world empty_world).
  reflexivity.
Defined.

(* ================================================================= *)
(** * Text *)

(** X17.  The walk of a text node with raw text that holds nothing else.
    Inside a Markdown region the text goes as it is to the markdown buffer,
    which becomes the current one.  Outside, text of white space only emits
    nothing unless its parent is named [Markdown]; text under [code] emits
    a comma and the text as a JSON string, with the escaped left curly
    brackets put back; any other text emits a comma and the text as a JSON
    string.  [paren] and the world stay as they are. *)
Theorem text_emission (env : Env) (flush : TemplateNode -> M World string)
    (node p : TemplateNode) (w : Walk) (t : string) :
  type node = Text ->
  attributes node = [] -> children node = [] -> expression node = None ->
  raw node = Some t ->
  exists w1,
    visit env flush node (Some p) w = (Ok tt, w1)
    /\ world w1 = world w
    /\ paren w1 = paren w
    /\ if is_inside (state (world w)) then
         curr w1 = BufferMarkdown
         /\ buffers_markdown w1 = buffers_markdown w ++ t
         /\ buffers_out w1 = buffers_out w
       else
         let text_ :=
           if negb (String.eqb (name p) "Markdown") && Js.all_space t then ""
           else if String.eqb (name p) "code"
                then "," ++ Js.JSON_stringify (unescape_curly t)
                else "," ++ Js.JSON_stringify t in
         curr w1 = curr w
         /\ match curr w with
            | BufferOut =>
                buffers_out w1 = buffers_out w ++ text_
                /\ buffers_markdown w1 = buffers_markdown w
            | BufferMarkdown =>
                buffers_markdown w1 = buffers_markdown w ++ text_
                /\ buffers_out w1 = buffers_out w
            end.
Proof.
  intros Ht Ha Hc He Hr. rewrite visit_unfold. unfold enter, leave.
  rewrite Ht, Ha, Hc, He. unfold getTextFromAttribute. rewrite Ht, Hr.
  cbn [of_fallible join_opt forM_].
  unfold bind, ret, gets, emit, promote_to_markdown, modify.
  change (join_opt (Some t)) with t.
  destruct (is_inside (state (world w))) eqn:Ei.
  - eexists. split; [reflexivity|]. cbn. auto.
  - destruct (negb (String.eqb (name p) "Markdown") && Js.all_space t).
    + eexists. split; [reflexivity|]. rewrite !append_nil_r.
      destruct (curr w); auto.
    + destruct (String.eqb (name p) "code"); destruct (curr w) eqn:Ec;
        eexists; (split; [reflexivity|]); cbn; rewrite ?Ec; auto.
Qed.

Lemma text_emission_witness :
  exists w1,
    visit sample_env (compileHtml sample_env 0) (mkText "Hi") (Some h1_element)
          (fresh_walk empty_world) = (Ok tt, w1)
    /\ buffers_out w1 = "," ++ Js.quoted "Hi".
Proof.
  destruct (text_emission sample_env (compileHtml sample_env 0) (mkText "Hi") h1_element
              (fresh_walk empty_world) "Hi" eq_refl eq_refl eq_refl eq_refl eq_refl)
    as (w1 & H & _ & _ & _ & Hb & _).
  exists w1. split; [exact H | exact Hb].
Defined.

(* ================================================================= *)
(** * The deprecation warning of [compileModule] *)

Lemma quiet_refl (g : World) : quiet g g.
Proof. split; reflexivity. Qed.

Lemma quiet_trans (g1 g2 g3 : World) : quiet g1 g2 -> quiet g2 g3 -> quiet g1 g3.
Proof. intros [L1 F1] [L2 F2]. split; congruence. Qed.

Lemma quiet_modify (f : CodegenState -> CodegenState) :
  (forall s, filename (f s) = filename s) -> respects quiet (modify_state f).
Proof. intros H g. split; [reflexivity | apply H]. Qed.

Lemma quiet_add (x : string) : respects quiet (importStatements_add x).
Proof. apply quiet_modify. now intros []. Qed.

Lemma quiet_record_specifier (importUrl text_ : string) (sp : Specifier) :
  respects quiet (record_specifier importUrl text_ sp).
Proof.
  unfold record_specifier.
  repeat (apply (respects_bind _ quiet_trans); [|intros ?]);
    apply quiet_modify; intros s.
  - now destruct s.
  - destruct (map_has _ _); now destruct s.
  - destruct (map_get _ _); now destruct s.
Qed.

Lemma quiet_record_import (env : Env) (features : N) (content_ : string) (i : BabelNode) :
  respects quiet (record_import env features content_ i).
Proof.
  unfold record_import. destruct i; try (intros g; apply quiet_refl).
  destruct (set_has source (nodeBuiltinsSet env)); [intros g; apply quiet_refl|].
  apply (respects_bind _ quiet_trans).
  - apply (respects_forM_ _ quiet_refl quiet_trans).
    intros x _. apply quiet_record_specifier.
  - intros _. destruct (_ && _); [|apply quiet_add].
    apply (respects_bind _ quiet_trans); [intros g; apply quiet_refl|].
    intros st. apply (respects_bind _ quiet_trans); [apply quiet_add|].
    intros _. apply quiet_modify. now intros [].
Qed.

Lemma quiet_record_export (content_ : string) (e : BabelNode) :
  respects quiet (record_export content_ e).
Proof.
  unfold record_export. destruct e; try (intros g; apply quiet_refl).
  apply quiet_modify. now intros [].
Qed.

Lemma quiet_prepare_program (env : Env) (content_ : string) :
  respects quiet (prepare_program env content_).
Proof.
  unfold prepare_program.
  apply (respects_bind _ quiet_trans); [apply (respects_of_fallible _ quiet_refl)|].
  intros parsed. apply (respects_bind _ quiet_trans); [intros g; apply quiet_refl|].
  intros st. apply (respects_bind _ quiet_trans).
  - destruct (test_fetchContent content_); [|intros g; apply quiet_refl].
    apply (respects_bind _ quiet_trans); [apply quiet_add|].
    intros _. apply (respects_of_fallible _ quiet_refl).
  - intros program. apply (respects_bind _ quiet_trans);
      [apply (respects_of_fallible _ quiet_refl)|].
    intros locals. apply (respects_bind _ quiet_trans); [|intros _ g; apply quiet_refl].
    apply quiet_modify. now intros [].
Qed.

Lemma transpileExpressionSafe_Some (env : Env) (raw_ : string) (location_start : nat)
    (g g' : World) (code : string) :
  transpileExpressionSafe env raw_ location_start g = (Ok (Some code), g') -> g' = g.
Proof.
  unfold transpileExpressionSafe. destruct (transformSync env raw_) as [c|e].
  - unfold ret. intros H. now injection H as _ <-.
  - unfold bind, gets, log, modify, ret. simpl. destruct (positionAt env _ _).
    simpl. discriminate.
Qed.

(** X18.  When the module compiles it writes to the sink at most once: the
    deprecation warning for props, under the name of the file relative to
    the project root, when an exported variable declaration is not
    [__layout] or [__content].  The warning names the first declarator of
    each such export, from the last statement to the first. *)
Theorem props_warning_once (env : Env) (features : N) (m : Script)
    (w w' : World) (r : string * option string) :
  compileModule env features (Some m) w = (Ok r, w') ->
  exists program,
    program_of env (filename (state w)) (script_content m) = Returns program
    /\ logged w'
       = (logged w
          ++ match flat_map prop_of (rev program) with
             | [] => []
             | props =>
                 [LogWarn (posix_relative env (projectRoot_pathname env)
                             (filename (state w)))
                    (props_warning env (prop_names props))]
             end)%list.
Proof.
  unfold compileModule. intros H.
  apply bind_Ok in H. destruct H as (locals & wp & Hp & H).
  apply bind_Ok in H. destruct H as ([] & w1 & H1 & H).
  apply bind_Ok in H. destruct H as ([] & w2 & H2 & H).
  apply bind_Ok in H. destruct H as ([] & w3 & H3 & H).
  apply bind_Ok in H. destruct H as (t & w4 & H4 & H).
  destruct t as [script|]; [|discriminate H].
  unfold ret in H. injection H as _ <-.
  apply transpileExpressionSafe_Some in H4. subst w4.
  destruct (prepare_program_Ok env _ w wp locals Hp) as (program & Hprog & Hc & _).
  exists program. split; [exact Hprog|].
  rewrite <- (classify_body_props_backwards env program locals Hc).
  assert (Q : quiet w w2).
  { eapply quiet_trans; [exact (respects_Ok quiet _ _ _ _ (quiet_prepare_program env _) Hp)|].
    eapply quiet_trans.
    - refine (respects_Ok quiet _ _ _ _ _ H1).
      apply (respects_forM_ _ quiet_refl quiet_trans). intros x _.
      apply quiet_record_import.
    - refine (respects_Ok quiet _ _ _ _ _ H2).
      apply (respects_forM_ _ quiet_refl quiet_trans). intros x _.
      apply quiet_record_export. }
  destruct Q as [QL QF].
  destruct (props_found locals) as [|p ps]; simpl in H3.
  - unfold ret in H3. injection H3 as <-. now rewrite app_nil_r.
  - unfold bind, gets, log, modify in H3. injection H3 as <-. simpl.
    now rewrite QL, QF.
Qed.

Lemma props_warning_once_witness :
  logged (snd (compileModule
                 (sample_env_parsing [export_let "title" "x"; export_let "lang" "y"]) 0
                 (Some (mkScript "" 0 0)) empty_world))
  = [LogWarn sample_filename (props_warning sample_env ["lang"; "title"])].
Proof.
  assert (E : exists r w',
            compileModule
              (sample_env_parsing [export_let "title" "x"; export_let "lang" "y"]) 0
              (Some (mkScript "" 0 0)) empty_world = (Ok r, w')).
  { eexists. eexists. vm_compute. reflexivity. }
  destruct E as (r & w' & E). rewrite E.
  destruct (props_warning_once _ _ _ _ _ _ E) as (program & Hprog & Hl).
  injection Hprog as <-. exact Hl.
Defined.

(* ================================================================= *)
(** * The flush of a Markdown region *)

(** X19.  Whatever the renderer, the parser and the compile of the
    rendered region do, [pushMarkdownToBuffer] leaves [paren] and
    [markers.insideMarkdown] as they were: the inner compile works on its
    own marker.  When it completes, the markdown buffer is empty, the
    current buffer is [out], and [out] has grown by a comma and one text;
    for a buffer of white space only that text is the buffer itself and
    nothing else happens. *)
Theorem pushMarkdownToBuffer_restores (env : Env)
    (flush : TemplateNode -> M World string) (w : Walk) :
  let r := pushMarkdownToBuffer env flush w in
  insideMarkdown (state (world (snd r))) = insideMarkdown (state (world w))
  /\ paren (snd r) = paren w
  /\ (fst r = Ok tt ->
      buffers_markdown (snd r) = ""
      /\ curr (snd r) = BufferOut
      /\ exists result, buffers_out (snd r) = buffers_out w ++ "," ++ result)
  /\ (Js.all_space (buffers_markdown w) = true ->
      fst r = Ok tt
      /\ world (snd r) = world w
      /\ buffers_out (snd r) = buffers_out w ++ "," ++ buffers_markdown w).
Proof.
  intros r. subst r.
  unfold pushMarkdownToBuffer, bind, gets, lift_world, with_fresh_markers, emit_out,
    modify. cbv beta.
  destruct (Js.all_space (buffers_markdown w)) eqn:Es.
  - cbn. split; [reflexivity|]. split; [reflexivity|]. split.
    + intros _. split; [reflexivity|]. split; [reflexivity|].
      now exists (buffers_markdown w).
    + intros _. auto.
  - match goal with
    | |- context [renderMarkdown env ?a ?b] =>
        destruct (renderMarkdown env a b) as [rendered|e]
    end; [|cbn; repeat split; intros; auto; discriminate].
    cbn [of_fallible ret].
    destruct (parse env rendered) as [ast|e];
      [|cbn; repeat split; intros; auto; discriminate].
    cbn [of_fallible ret].
    destruct (transform env ast) as [html|e];
      [|cbn; repeat split; intros; auto; discriminate].
    cbn [of_fallible ret].
    match goal with
    | |- context [flush html ?a] => destruct (flush html a) as [[result | e |] g']
    end; cbn; (split; [now destruct (state g')|]); (split; [reflexivity|]);
      (split; [|discriminate]); intros H; try discriminate H.
    split; [reflexivity|]. split; [reflexivity|]. now exists result.
Qed.

Lemma pushMarkdownToBuffer_restores_witness :
  buffers_out (snd (pushMarkdownToBuffer sample_env (compileHtml sample_env 1)
                      (mkWalk empty_world 0 "h(x" " " BufferMarkdown)))
  = "h(x, ".
Proof.
  exact (proj2 (proj2 (proj2 (proj2 (proj2
           (pushMarkdownToBuffer_restores sample_env (compileHtml sample_env 1)
              (mkWalk empty_world 0 "h(x" " " BufferMarkdown)))) eq_refl))).
Defined.

(* ================================================================= *)
(** * What an element and a component emit *)

(** X20.  Entering an element whose tag is not a component tag, outside a
    Markdown region: after the separating comma, [out] gets
    [h("name", {props},], preceded by [h(__astro_slot_content, { name: v },]
    when the attribute map has a [slot] entry [v] that is not empty;
    [paren] goes up by one for each [h(] and the slot wrapper adds its
    import; the walk goes on into the children. *)
Theorem static_element_emission (env : Env)
    (child flush : TemplateNode -> M World string)
    (node : TemplateNode) (parent : option TemplateNode) (w : Walk)
    (attributes_ : Js.Object) (g1 : World) :
  element_like (type node) = true ->
  name node <> "" ->
  name node <> "Prism" ->
  isComponentTag env (name node) = false ->
  curr w = BufferOut ->
  getAttributes env child (name node) (attributes node) (world w) = (Ok attributes_, g1) ->
  let slotted := Js.truthy (Js.get "slot" attributes_) in
  exists w1,
    enter env child flush node parent w = (Ok Descend, w1)
    /\ buffers_out w1
       = (if String.eqb (buffers_out w) "" then "" else buffers_out w ++ ",")
         ++ (if slotted
             then "h(__astro_slot_content, { name: "
                  ++ join_opt (Js.get "slot" attributes_) ++ " },"
             else "")
         ++ "h(" ++ Js.quoted (name node) ++ ", " ++ generateAttributes attributes_ ++ ","
    /\ paren w1 = (paren w + (if slotted then 2 else 1))%Z
    /\ buffers_markdown w1 = buffers_markdown w
    /\ curr w1 = BufferOut
    /\ logged (world w1) = logged g1
    /\ state (world w1)
       = if slotted
         then set_importStatements
                (set_add import_astro_slot_content (importStatements (state g1))) (state g1)
         else state g1.
Proof.
  intros Hel Hname Hprism Htag Hcurr Hattrs slotted. subst slotted.
  assert (Henter : enter env child flush node parent w
                   = enter_element env child flush node w).
  { unfold enter.
    assert (Ep : String.eqb (name node) "Prism" = false) by now apply String.eqb_neq.
    destruct (type node); try discriminate Hel; rewrite ?Ep; reflexivity. }
  rewrite Henter. unfold enter_element.
  assert (En : String.eqb (name node) "" = false) by now apply String.eqb_neq.
  rewrite En. unfold bind at 1. unfold try_catch.
  assert (Etry : exists w1,
            enter_element_try env child flush node w = (Ok tt, w1)
            /\ buffers_out w1
               = (if String.eqb (buffers_out w) "" then "" else buffers_out w ++ ",")
                 ++ (if Js.truthy (Js.get "slot" attributes_)
                     then "h(__astro_slot_content, { name: "
                          ++ join_opt (Js.get "slot" attributes_) ++ " },"
                     else "")
                 ++ "h(" ++ Js.quoted (name node) ++ ", "
                 ++ generateAttributes attributes_ ++ ","
            /\ paren w1 = (paren w + (if Js.truthy (Js.get "slot" attributes_)
                                      then 2 else 1))%Z
            /\ buffers_markdown w1 = buffers_markdown w
            /\ curr w1 = BufferOut
            /\ logged (world w1) = logged g1
            /\ state (world w1)
               = if Js.truthy (Js.get "slot" attributes_)
                 then set_importStatements
                        (set_add import_astro_slot_content (importStatements (state g1)))
                        (state g1)
                 else state g1).
  { unfold enter_element_try.
    unfold bind at 1. unfold lift_world at 1. rewrite Hattrs.
    unfold bind at 1. unfold modify at 1.
    assert (Hopen : forall w0,
              curr w0 = BufferOut ->
              exists w1,
                open_static env flush (Js.quoted (name node)) attributes_ w0 = (Ok tt, w1)
                /\ buffers_out w1
                   = buffers_out w0
                     ++ (if Js.truthy (Js.get "slot" attributes_)
                         then "h(__astro_slot_content, { name: "
                              ++ join_opt (Js.get "slot" attributes_) ++ " },"
                         else "")
                     ++ "h(" ++ Js.quoted (name node) ++ ", "
                     ++ generateAttributes attributes_ ++ ","
                /\ paren w1 = (paren w0 + (if Js.truthy (Js.get "slot" attributes_)
                                           then 2 else 1))%Z
                /\ buffers_markdown w1 = buffers_markdown w0
                /\ curr w1 = BufferOut
                /\ logged (world w1) = logged (world w0)
                /\ state (world w1)
                   = if Js.truthy (Js.get "slot" attributes_)
                     then set_importStatements
                            (set_add import_astro_slot_content
                               (importStatements (state (world w0)))) (state (world w0))
                     else state (world w0)).
    { intros w0 Hc0. destruct w0 as [g0 p0 o0 m0 c0]. cbn [curr] in Hc0. subst c0.
      unfold open_static, flush_if_markdown, open_slot_content.
      unfold bind at 1. unfold bind at 1. unfold gets at 1.
      unfold curr_is_markdown. cbn [curr when]. unfold ret at 1.
      destruct (Js.truthy (Js.get "slot" attributes_)); cbn [when].
      - unfold bind, ret, emit, paren_incr, modify, lift_world, importStatements_add,
          modify_state, set_world, set_out, set_paren.
        cbn [curr world buffers_out paren buffers_markdown fst snd].
        eexists. split; [reflexivity|].
        cbn [curr world buffers_out paren buffers_markdown logged state].
        rewrite append_assoc. repeat split; try reflexivity; lia.
      - unfold bind, ret, emit, paren_incr, modify, set_world, set_out, set_paren.
        cbn [curr world buffers_out paren buffers_markdown].
        eexists. split; [reflexivity|].
        cbn [curr world buffers_out paren buffers_markdown logged state].
        repeat split; reflexivity. }
    destruct (Hopen (set_out (if String.eqb (buffers_out w) "" then buffers_out w ++ ""
                              else buffers_out w ++ ",") (set_world g1 w)) Hcurr)
      as (w1 & Ho & Hb & Hp & Hm & Hc & Hl & Hs).
    exists w1. split.
    - destruct (type node); try discriminate Hel; rewrite Htag; exact Ho.
    - rewrite Hb.
      cbn [curr set_world set_out set_paren world buffers_out paren buffers_markdown
           logged state] in *.
      split; [|auto].
      destruct (String.eqb (buffers_out w) "") eqn:Eo.
      + apply String.eqb_eq in Eo. rewrite Eo. reflexivity.
      + reflexivity. }
  destruct Etry as (w1 & -> & H). exists w1. split; [reflexivity | exact H].
Qed.

Lemma static_element_emission_witness :
  exists w1,
    enter sample_env (fun _ => ret "") (fun _ => ret "") h1_element None
          (fresh_walk empty_world) = (Ok Descend, w1)
    /\ buffers_out w1
       = "h(" ++ Js.quoted "h1" ++ ", " ++ generateAttributes [] ++ ","
    /\ paren w1 = 0%Z.
Proof.
  destruct (static_element_emission sample_env (fun _ => ret "") (fun _ => ret "")
              h1_element None (fresh_walk empty_world) [] empty_world)
    as (w1 & H & Hb & Hp & _); try reflexivity; try discriminate.
  exists w1. split; [exact H|]. split; [exact Hb | exact Hp].
Defined.

Lemma findHydrationAttributes_no_method (attrs : Js.Object) :
  method (findHydrationAttributes attrs) = None ->
  value (findHydrationAttributes attrs) = None.
Proof.
  rewrite findHydrationAttributes_find_rev.
  destruct (find is_directive_entry (rev attrs)); [discriminate | reflexivity].
Qed.

Lemma getComponentWrapper_not_hydrated (env : Env) (nm : string)
    (hydration : HydrationAttributes) (info : option ComponentInfo) (g : World) :
  Js.includes_char ":" nm = false ->
  isCustomElementTag env nm = false ->
  method hydration = None -> value hydration = None ->
  getComponentWrapper env nm hydration info g
  = (Ok ("__astro_component(" ++ nm ++ ", "
         ++ ("{ hydrate: undefined, displayName: " ++ Js.quoted nm ++ ", value: null }")
         ++ ")",
         [import_astro_component]), g).
Proof.
  intros Hc Hcustom Hm Hv. unfold getComponentWrapper.
  rewrite (includes_char_indexOf ":" nm Hc). unfold bind at 1. unfold ret at 1.
  rewrite Hcustom, Hm. cbn [Js.truthy]. unfold value_or_null. rewrite Hv.
  reflexivity.
Qed.

(** X21.  Entering an imported component that has no hydration directive,
    no [slot] entry and a plain name (no colon, not a custom element, not
    [Markdown], [Prism] or [Fragment]), outside a Markdown region: after
    the separating comma, [out] gets
    [h(__astro_component(Name, { hydrate: undefined, displayName: "Name",
    value: null }), {props}], [paren] goes up by one, the import of
    [__astro_component] joins the import statements, nothing is reported,
    and the walk goes on into the children. *)
Theorem imported_component_emission (env : Env)
    (child flush : TemplateNode -> M World string)
    (node : TemplateNode) (parent : option TemplateNode) (w : Walk)
    (attributes_ : Js.Object) (g1 : World) (info : ComponentInfo) :
  element_like (type node) = true ->
  name node <> "" -> name node <> "Prism" ->
  name node <> "Markdown" -> name node <> "Fragment" ->
  Js.includes_char ":" (name node) = false ->
  isComponentTag env (name node) = true ->
  isCustomElementTag env (name node) = false ->
  curr w = BufferOut ->
  getAttributes env child (name node) (attributes node) (world w) = (Ok attributes_, g1) ->
  lookup_component (name node) (state g1) = Some info ->
  method (findHydrationAttributes attributes_) = None ->
  Js.truthy (Js.get "slot" attributes_) = false ->
  exists w1,
    enter env child flush node parent w = (Ok Descend, w1)
    /\ buffers_out w1
       = (if String.eqb (buffers_out w) "" then "" else buffers_out w ++ ",")
         ++ "h(__astro_component(" ++ name node
         ++ ", { hydrate: undefined, displayName: " ++ Js.quoted (name node)
         ++ ", value: null }), " ++ generateAttributes attributes_
    /\ paren w1 = (paren w + 1)%Z
    /\ buffers_markdown w1 = buffers_markdown w
    /\ curr w1 = BufferOut
    /\ logged (world w1) = logged g1
    /\ state (world w1)
       = set_importStatements
           (set_add import_astro_component (importStatements (state g1))) (state g1).
Proof.
  intros Hel Hname Hprism Hmd Hfrag Hcolon Htag Hcustom Hcurr Hattrs Hinfo Hmethod Hslot.
  assert (Henter : enter env child flush node parent w
                   = enter_element env child flush node w).
  { unfold enter.
    assert (Ep : String.eqb (name node) "Prism" = false) by now apply String.eqb_neq.
    destruct (type node); try discriminate Hel; rewrite ?Ep; reflexivity. }
  rewrite Henter. unfold enter_element.
  assert (En : String.eqb (name node) "" = false) by now apply String.eqb_neq.
  assert (Em : String.eqb (name node) "Markdown" = false) by now apply String.eqb_neq.
  assert (Ef : isFragmentComponent (name node) = false)
    by (unfold isFragmentComponent; now apply String.eqb_neq).
  rewrite En. unfold bind at 1. unfold try_catch.
  destruct w as [g0 p0 o0 m0 c0]. cbn [curr] in Hcurr. subst c0.
  cbn [world] in Hattrs.
  assert (Etry :
    enter_element_try env child flush node (mkWalk g0 p0 o0 m0 BufferOut)
    = (Ok tt,
       mkWalk (mkWorld (set_importStatements
                          (set_add import_astro_component (importStatements (state g1)))
                          (state g1)) (logged g1))
              (p0 + 1)
              ((if String.eqb o0 "" then o0 ++ "" else o0 ++ ",")
               ++ "h(" ++ ("__astro_component(" ++ name node ++ ", "
                           ++ ("{ hydrate: undefined, displayName: "
                               ++ Js.quoted (name node) ++ ", value: null }") ++ ")")
               ++ ", " ++ generateAttributes attributes_)
              m0 BufferOut)).
  { unfold enter_element_try.
    unfold bind at 1. unfold lift_world at 1. cbn [world]. rewrite Hattrs.
    unfold bind at 1. unfold modify at 1.
    rewrite (split_char_absent ":" (name node) Hcolon). cbn [hd].
    destruct (type node); try discriminate Hel;
      rewrite Htag; change (negb true) with false; cbv iota;
      unfold bind at 1; unfold gets at 1;
      cbn [world set_out set_world state buffers_out];
      unfold isFrontmatterDefinedComponent;
      rewrite Hinfo, Ef, Em, andb_false_r; cbn [orb andb];
      unfold bind at 1; unfold lift_world at 1; cbn [world set_out set_world];
      rewrite (getComponentWrapper_not_hydrated env (name node) _ (Some info) g1
                 Hcolon Hcustom Hmethod (findHydrationAttributes_no_method _ Hmethod));
      rewrite Hmethod;
      unfold open_slot_content, flush_if_markdown, curr_is_markdown; rewrite Hslot;
      unfold bind, ret, gets, when, emit, paren_incr, modify, lift_world, forM_,
        importStatements_add, modify_state, set_world, set_out, set_paren;
      cbn [curr world buffers_out paren buffers_markdown fst snd state logged];
      reflexivity. }
  rewrite Etry. eexists. split; [reflexivity|].
  cbn [curr world buffers_out paren buffers_markdown logged state].
  repeat split; try reflexivity.
  destruct (String.eqb o0 "") eqn:Eo.
  - apply String.eqb_eq in Eo. subst o0.
    rewrite ?append_assoc. cbn [append]. rewrite ?append_assoc. cbn [append].
    reflexivity.
  - rewrite ?append_assoc. cbn [append]. rewrite ?append_assoc. cbn [append].
    reflexivity.
Qed.

Lemma imported_component_emission_witness :
  exists w1,
    enter sample_env (fun _ => ret "") (fun _ => ret "")
          (mkElement InlineComponent "X" [] []) None (fresh_walk world_with_X)
    = (Ok Descend, w1)
    /\ buffers_out w1
       = "h(__astro_component(X, { hydrate: undefined, displayName: " ++ Js.quoted "X"
         ++ ", value: null }), " ++ generateAttributes []
    /\ importStatements (state (world w1)) = [import_astro_component].
Proof.
  destruct (imported_component_emission sample_env (fun _ => ret "") (fun _ => ret "")
              (mkElement InlineComponent "X" [] []) None (fresh_walk world_with_X)
              [] world_with_X imported_X)
    as (w1 & H & Hb & _ & _ & _ & _ & Hs); try reflexivity; try discriminate.
  exists w1. split; [exact H|]. split; [exact Hb|]. now rewrite Hs.
Defined.

(** X22.  Leaving an element or a component that is not named [Markdown],
    outside a Markdown region: [out] gets one [)] when the node has an
    attribute named [slot], and then one more unless [paren] has come down
    to -1; [paren] goes down by one for each [)].  Nothing else changes. *)
Theorem element_leave_closes (env : Env) (flush : TemplateNode -> M World string)
    (node : TemplateNode) (w : Walk) :
  element_like (type node) = true ->
  name node <> "Markdown" ->
  curr w = BufferOut ->
  let p1 := if has_slot_attribute node then (paren w - 1)%Z else paren w in
  exists w1,
    leave env flush node w = (Ok tt, w1)
    /\ buffers_out w1
       = buffers_out w ++ (if has_slot_attribute node then ")" else "")
         ++ (if (p1 =? -1)%Z then "" else ")")
    /\ paren w1 = (if (p1 =? -1)%Z then p1 else p1 - 1)%Z
    /\ world w1 = world w
    /\ buffers_markdown w1 = buffers_markdown w
    /\ curr w1 = BufferOut.
Proof.
  intros Hel Hname Hcurr p1. subst p1.
  assert (Em : String.eqb (name node) "Markdown" = false) by now apply String.eqb_neq.
  destruct w as [g0 p0 o0 m0 c0]. cbn [curr] in Hcurr. subst c0. cbn [paren buffers_out].
  assert (Hclose : exists w1,
            close_parens node (mkWalk g0 p0 o0 m0 BufferOut) = (Ok tt, w1)
            /\ buffers_out w1
               = o0 ++ (if has_slot_attribute node then ")" else "")
                 ++ (if ((if has_slot_attribute node then p0 - 1 else p0) =? -1)%Z
                     then "" else ")")
            /\ paren w1
               = (if ((if has_slot_attribute node then p0 - 1 else p0) =? -1)%Z
                  then (if has_slot_attribute node then p0 - 1 else p0)
                  else (if has_slot_attribute node then p0 - 1 else p0) - 1)%Z
            /\ world w1 = g0
            /\ buffers_markdown w1 = m0
            /\ curr w1 = BufferOut).
  { unfold close_parens, bind, when, gets, ret, emit_out, paren_decr, modify,
      set_out, set_paren.
    destruct (has_slot_attribute node);
      cbn [curr world buffers_out paren buffers_markdown fst snd].
    - destruct (p0 - 1 =? -1)%Z; cbn [negb];
        eexists; (split; [reflexivity|]);
        cbn [curr world buffers_out paren buffers_markdown];
        rewrite ?append_assoc, ?append_nil_r; repeat split; reflexivity.
    - destruct (p0 =? -1)%Z; cbn [negb];
        eexists; (split; [reflexivity|]);
        cbn [curr world buffers_out paren buffers_markdown append];
        rewrite ?append_nil_r; repeat split; reflexivity. }
  destruct Hclose as (w1 & Hc & H). exists w1. split; [|exact H].
  unfold leave.
  destruct (type node); try discriminate Hel.
  - (* Element *)
    unfold flush_if_markdown, bind, gets, when, curr_is_markdown, ret. cbn [curr].
    exact Hc.
  - (* InlineComponent *)
    rewrite Em. unfold bind, ret, gets, curr_is_markdown. cbn [curr andb]. exact Hc.
  - unfold flush_if_markdown, bind, gets, when, curr_is_markdown, ret. cbn [curr].
    exact Hc.
  - unfold flush_if_markdown, bind, gets, when, curr_is_markdown, ret. cbn [curr].
    exact Hc.
Qed.

Lemma element_leave_closes_witness :
  exists w1,
    leave sample_env (fun _ => ret "") h1_element
          (mkWalk empty_world 0 "h(x" "" BufferOut) = (Ok tt, w1)
    /\ buffers_out w1 = "h(x)"
    /\ paren w1 = (-1)%Z.
Proof.
  destruct (element_leave_closes sample_env (fun _ => ret "") h1_element
              (mkWalk empty_world 0 "h(x" "" BufferOut))
    as (w1 & H & Hb & Hp & _); try reflexivity; try discriminate.
  exists w1. split; [exact H|]. split; [exact Hb | exact Hp].
Defined.
